(** * SubSurfCylinder: the tube generator of [subsurf_cyl.py]

    A shallow embedding of [TubeMaker.execute]: the parameter
    normalisation, the vertex and face-loop index plans, the position
    buffer, the face buffer and the texture-coordinate buffers.

    Python integers are [Z] (unbounded, [%] and [//] are the floored
    [Z.modulo] and [Z.div]).  Python floats are idealised as the real
    numbers [R]: rounding, infinities and NaN are not modelled there; the
    lines of plain arithmetic are given a second time in binary64, where a
    statement depends on the difference.  A list
    is a [list]; an item assignment [a[i] = v] follows Python, negative
    indices included, and raises [IndexError] out of range.  A float
    division raises [ZeroDivisionError] on a zero divisor.  The calls
    into the host ([bpy], [bmesh]) that follow the construction of the
    buffers are not part of the model. *)

From Stdlib Require Import ZArith List Bool Lia Reals Lra.
From Stdlib Require PrimFloat Uint63.
Import ListNotations.

#[local] Open Scope Z_scope.

(** ** Errors and the result monad *)

Inductive pyerr : Type :=
| IndexError
| ZeroDivisionError.

Inductive result (A : Type) : Type :=
| Ok (a : A)
| Raise (e : pyerr).

Arguments Ok {A} a.
Arguments Raise {A} e.

Definition bind {A B : Type} (m : result A) (k : A -> result B) : result B :=
  match m with
  | Ok a => k a
  | Raise e => Raise e
  end.

Notation "x <- m ;; k" := (bind m (fun x => k))
  (at level 61, m at next level, right associativity).

(** ** Python lists *)

(** [range(0, n)]. *)
Definition range (n : Z) : list Z :=
  map Z.of_nat (seq 0 (Z.to_nat n)).

(** [[x] * n]. *)
Definition pyrepeat {A : Type} (x : A) (n : Z) : list A :=
  repeat x (Z.to_nat n).

Definition len {A : Type} (l : list A) : Z := Z.of_nat (length l).

Fixpoint update {A : Type} (l : list A) (n : nat) (v : A) : list A :=
  match l, n with
  | [], _ => []
  | _ :: tl, O => v :: tl
  | hd :: tl, S m => hd :: update tl m v
  end.

(** [l[i] = v]: an index in [-len(l), len(l)) is accepted, a negative one
    counting from the end. *)
Definition setitem {A : Type} (l : list A) (i : Z) (v : A) : result (list A) :=
  if (0 <=? i) && (i <? len l) then Ok (update l (Z.to_nat i) v)
  else if (- len l <=? i) && (i <? 0) then Ok (update l (Z.to_nat (len l + i)) v)
  else Raise IndexError.

(** A block of item assignments on one list, in program order. *)
Fixpoint store_all {A : Type} (ws : list (Z * A)) (l : list A) : result (list A) :=
  match ws with
  | [] => Ok l
  | (i, v) :: ws' => l' <- setitem l i v ;; store_all ws' l'
  end.

(** [for i in range(0, n): body], the body being a block of item
    assignments. *)
Definition for_range {A : Type} (n : Z) (body : Z -> list (Z * A)) : list (Z * A) :=
  flat_map body (range n).

(** [l[i]] read back at a non-negative index. *)
Definition getitem {A : Type} (l : list A) (i : Z) : option A :=
  if 0 <=? i then nth_error l (Z.to_nat i) else None.

(** ** Parameters *)

Inductive CapFaceType : Type := NGON | QUAD | TRI | NONE.

Record TubeParams : Type := mkParams {
  sectors : Z;
  orientation : R;
  radius_btm : R;
  radius_top : R;
  depth : R;
  depth_offset : R;
  cap_face_type : CapFaceType;
  edge_loop_fac : R;
  calc_uvs : bool
}.

(** The parameter sets the operator's properties admit. *)
Record valid (p : TubeParams) : Prop := mkValid {
  valid_sectors : 3 <= sectors p;
  valid_radius_btm : (0 < radius_btm p)%R;
  valid_radius_top : (0 < radius_top p)%R;
  valid_depth : (0 < depth p)%R;
  valid_offset : (-1 <= depth_offset p <= 1)%R;
  valid_fac : (0 <= edge_loop_fac p < 1)%R
}.

(** ** Cap flags (lines 142-165) *)

Record CapFlags : Type := mkFlags {
  cap_is_none : bool;
  cap_is_ngon : bool;
  cap_is_quad : bool;
  cap_is_tri : bool
}.

Definition is_none (c : CapFaceType) : bool :=
  match c with NONE => true | _ => false end.
Definition is_ngon (c : CapFaceType) : bool :=
  match c with NGON => true | _ => false end.
Definition is_quad (c : CapFaceType) : bool :=
  match c with QUAD => true | _ => false end.
Definition is_tri (c : CapFaceType) : bool :=
  match c with TRI => true | _ => false end.

Definition cap_flags (sectors : Z) (c : CapFaceType) : CapFlags :=
  let cap_is_none := is_none c in
  let cap_is_ngon := is_ngon c in
  let cap_is_quad := is_quad c in
  let cap_is_tri := is_tri c in
  let '(cap_is_quad, cap_is_ngon) :=
    if (sectors <? 5) || negb (sectors mod 2 =? 0)
    then (false, if negb cap_is_none then true else cap_is_ngon)
    else (cap_is_quad, cap_is_ngon) in
  let '(cap_is_tri, cap_is_ngon) :=
    if sectors <? 4
    then (false, if negb cap_is_none then true else cap_is_ngon)
    else (cap_is_tri, cap_is_ngon) in
  mkFlags cap_is_none cap_is_ngon cap_is_quad cap_is_tri.

Definition use_center_spoke (f : CapFlags) : bool :=
  cap_is_tri f || cap_is_quad f.

Definition use_caps (f : CapFlags) : bool :=
  cap_is_tri f || cap_is_quad f || cap_is_ngon f.

Definition Rltb (x y : R) : bool := if Rlt_dec x y then true else false.
Definition Rgeb (x y : R) : bool := if Rge_dec x y then true else false.

Definition use_edge_loops (edge_loop_fac : R) : bool :=
  Rltb 0 edge_loop_fac && Rltb edge_loop_fac 1.

(** ** Vertex index plan (lines 234-268) *)

Record VPlan : Type := mkVPlan {
  v_idx_btm_spoke : Z;
  v_idx_btm_fan : Z;
  v_idx_btm_ctrl : Z;
  v_idx_btm_edge : Z;
  v_idx_side_lwr_ctrl : Z;
  v_idx_mid : Z;
  v_idx_side_upp_ctrl : Z;
  v_idx_top_edge : Z;
  v_idx_top_ctrl : Z;
  v_idx_top_fan : Z;
  v_idx_top_spoke : Z;
  len_vs : Z
}.

Definition v_plan (sectors : Z) (f : CapFlags) (el : bool) : VPlan :=
  let v_idx_btm_spoke := 0 in
  let v_idx_btm_fan := v_idx_btm_spoke in
  let v_idx_btm_fan :=
    if use_center_spoke f then v_idx_btm_fan + 1 else v_idx_btm_fan in
  let v_idx_btm_ctrl := v_idx_btm_fan in
  let v_idx_btm_ctrl :=
    if el && use_caps f then v_idx_btm_ctrl + sectors else v_idx_btm_ctrl in
  let v_idx_btm_edge := v_idx_btm_ctrl in
  let v_idx_btm_edge :=
    if el && use_caps f then v_idx_btm_edge + sectors else v_idx_btm_edge in
  let v_idx_side_lwr_ctrl := v_idx_btm_edge + sectors in
  let v_idx_mid := v_idx_side_lwr_ctrl in
  let v_idx_mid := if el then v_idx_mid + sectors else v_idx_mid in
  let v_idx_side_upp_ctrl := v_idx_mid in
  let v_idx_side_upp_ctrl :=
    if el then v_idx_side_upp_ctrl + sectors else v_idx_side_upp_ctrl in
  let v_idx_top_edge := v_idx_side_upp_ctrl in
  let v_idx_top_edge :=
    if el then v_idx_top_edge + sectors else v_idx_top_edge in
  let v_idx_top_ctrl := v_idx_top_edge in
  let v_idx_top_ctrl :=
    if el then v_idx_top_ctrl + sectors else v_idx_top_ctrl in
  let v_idx_top_fan := v_idx_top_ctrl in
  let v_idx_top_fan :=
    if el then v_idx_top_fan + sectors else v_idx_top_fan in
  let v_idx_top_spoke := v_idx_top_fan in
  let v_idx_top_spoke :=
    if use_caps f || cap_is_none f
    then v_idx_top_spoke + sectors else v_idx_top_spoke in
  let len_vs := v_idx_top_spoke in
  let len_vs := if use_center_spoke f then len_vs + 1 else len_vs in
  mkVPlan v_idx_btm_spoke v_idx_btm_fan v_idx_btm_ctrl v_idx_btm_edge
          v_idx_side_lwr_ctrl v_idx_mid v_idx_side_upp_ctrl v_idx_top_edge
          v_idx_top_ctrl v_idx_top_fan v_idx_top_spoke len_vs.

(** ** Face-loop index plan (lines 361-412) *)

Record LPlan : Type := mkLPlan {
  loop_idx_btm_fan : Z;
  loop_idx_btm_mid : Z;
  loop_idx_btm_ctrl : Z;
  loop_idx_side_lwr_ctrl : Z;
  loop_idx_side_lwr : Z;
  loop_idx_side_upp : Z;
  loop_idx_side_upp_ctrl : Z;
  loop_idx_top_ctrl : Z;
  loop_idx_top_mid : Z;
  loop_idx_top_fan : Z;
  len_loop_idcs : Z
}.

Definition l_plan (sectors : Z) (f : CapFlags) (el : bool) : LPlan :=
  let half_sectors := sectors / 2 in
  let loop_idx_btm_fan := 0 in
  let loop_idx_btm_mid := loop_idx_btm_fan in
  let loop_idx_btm_mid :=
    if cap_is_ngon f then loop_idx_btm_mid + 1
    else if cap_is_quad f then loop_idx_btm_mid + half_sectors
    else if cap_is_tri f then loop_idx_btm_mid + sectors
    else loop_idx_btm_mid in
  let loop_idx_btm_ctrl := loop_idx_btm_mid in
  let loop_idx_btm_ctrl :=
    if el && use_caps f then loop_idx_btm_ctrl + sectors else loop_idx_btm_ctrl in
  let loop_idx_side_lwr_ctrl := loop_idx_btm_ctrl in
  let loop_idx_side_lwr_ctrl :=
    if el && use_caps f
    then loop_idx_side_lwr_ctrl + sectors else loop_idx_side_lwr_ctrl in
  let loop_idx_side_lwr := loop_idx_side_lwr_ctrl in
  let loop_idx_side_lwr :=
    if el then loop_idx_side_lwr + sectors else loop_idx_side_lwr in
  let loop_idx_side_upp := loop_idx_side_lwr in
  let loop_idx_side_upp :=
    if el then loop_idx_side_upp + sectors else loop_idx_side_upp in
  let loop_idx_side_upp_ctrl := loop_idx_side_upp in
  let loop_idx_side_upp_ctrl :=
    if el then loop_idx_side_upp_ctrl + sectors else loop_idx_side_upp_ctrl in
  let loop_idx_top_ctrl := loop_idx_side_upp_ctrl in
  let loop_idx_top_ctrl :=
    if el && use_caps f then loop_idx_top_ctrl + sectors else loop_idx_top_ctrl in
  let loop_idx_top_mid := loop_idx_top_ctrl in
  let loop_idx_top_mid :=
    if el && use_caps f then loop_idx_top_mid + sectors else loop_idx_top_mid in
  let loop_idx_top_fan := loop_idx_top_mid + sectors in
  let len_loop_idcs := loop_idx_top_fan in
  let len_loop_idcs :=
    if cap_is_ngon f then len_loop_idcs + 1
    else if cap_is_quad f then len_loop_idcs + half_sectors
    else if cap_is_tri f then len_loop_idcs + sectors
    else len_loop_idcs in
  mkLPlan loop_idx_btm_fan loop_idx_btm_mid loop_idx_btm_ctrl
          loop_idx_side_lwr_ctrl loop_idx_side_lwr loop_idx_side_upp
          loop_idx_side_upp_ctrl loop_idx_top_ctrl loop_idx_top_mid
          loop_idx_top_fan len_loop_idcs.

(** ** Heights and control factors (lines 169-218) *)

Definition vec2 : Type := (R * R)%type.
Definition vec3 : Type := (R * R * R)%type.

(** Float division [a / b]. *)
Definition fdiv (a b : R) : result R :=
  if Req_dec_T b 0 then Raise ZeroDivisionError else Ok (a / b)%R.

Definition offset_fac (p : TubeParams) : R := (depth_offset p * 0.5 + 0.5)%R.
Definition half_depth (p : TubeParams) : R := (depth p * 0.5)%R.
Definition vz_mid (p : TubeParams) : R :=
  ((1 - offset_fac p) * - half_depth p + offset_fac p * half_depth p)%R.
Definition vz_btm (p : TubeParams) : R := (vz_mid p - half_depth p)%R.
Definition vz_top (p : TubeParams) : R := (vz_mid p + half_depth p)%R.

Record Factors : Type := mkFactors {
  aspect_ratio_btm : R;
  aspect_ratio_top : R;
  t_btm : R; u_btm : R;
  t_top : R; u_top : R;
  t_fan_btm : R; u_fan_btm : R;
  t_fan_top : R; u_fan_top : R
}.

(** Over the reals [1 - t] differs from 1 for every [t] but 0; in binary64
    it is 1 for a small enough [t] (see [factors64]). *)
Definition factors (p : TubeParams) (caps : bool) : result Factors :=
  let t := edge_loop_fac p in
  let u := (1 - t)%R in
  ar <- (if caps
         then (ab <- fdiv (radius_btm p) (depth p) ;;
               at_ <- fdiv (radius_top p) (depth p) ;;
               Ok (ab, at_))
         else Ok (1%R, 1%R)) ;;
  let '(aspect_ratio_btm, aspect_ratio_top) := ar in
  let '(t_btm, u_btm) :=
    if Rltb (radius_btm p) (depth p)
    then ((t * aspect_ratio_btm)%R, (1 - t * aspect_ratio_btm)%R)
    else (t, u) in
  let '(t_top, u_top) :=
    if Rltb (radius_top p) (depth p)
    then ((t * aspect_ratio_top)%R, (1 - t * aspect_ratio_top)%R)
    else (t, u) in
  fb <- (if Rgeb (radius_btm p) (depth p)
         then (q <- fdiv t aspect_ratio_btm ;; Ok (q, (1 - q)%R))
         else Ok (t, u)) ;;
  ft <- (if Rgeb (radius_top p) (depth p)
         then (q <- fdiv t aspect_ratio_top ;; Ok (q, (1 - q)%R))
         else Ok (t, u)) ;;
  Ok (mkFactors aspect_ratio_btm aspect_ratio_top
                t_btm u_btm t_top u_top
                (fst fb) (snd fb) (fst ft) (snd ft)).

(** ** The sine and cosine table (lines 220-229) *)

(** [sectors_to_theta = math.tau / sectors]. *)
Definition sectors_to_theta (p : TubeParams) : result R :=
  fdiv (2 * PI)%R (IZR (sectors p)).

(** Entry [i] of [cartesian]: the table has [sectors] entries, each
    assigned once, and is read only at the indices of [range(0, sectors)].
    [math.cos] and [math.sin] are read as the cosine and the sine of the
    reals, and the angles of two sectors differ; in binary64 a large
    orientation absorbs [i * step] (see [theta64]). *)
Definition cartesian (p : TubeParams) (step : R) (i : Z) : vec2 :=
  let theta := (orientation p + IZR i * step)%R in
  (cos theta, sin theta).

(** ** Positions (lines 269-357) *)

Definition ring (off : Z) (i : Z) (cart : vec2) (radius z : R) : Z * vec3 :=
  (off + i, ((fst cart * radius)%R, (snd cart * radius)%R, z)).

Definition radius_mid (p : TubeParams) : R :=
  ((radius_btm p + radius_top p) * 0.5)%R.
Definition side_lwr_ctrl_z (p : TubeParams) (k : Factors) : R :=
  (u_btm k * vz_btm p + t_btm k * vz_mid p)%R.
Definition side_upp_ctrl_z (p : TubeParams) (k : Factors) : R :=
  (u_top k * vz_top p + t_top k * vz_mid p)%R.
Definition radius_side_lwr_ctrl (p : TubeParams) (k : Factors) : R :=
  (u_btm k * radius_btm p + t_btm k * radius_mid p)%R.
Definition radius_side_upp_ctrl (p : TubeParams) (k : Factors) : R :=
  (u_top k * radius_top p + t_top k * radius_mid p)%R.
Definition radius_fan_btm (p : TubeParams) : R := (radius_btm p * 0.5)%R.
Definition radius_fan_top (p : TubeParams) : R := (radius_top p * 0.5)%R.
Definition radius_cap_lwr_ctrl (p : TubeParams) (k : Factors) : R :=
  (u_fan_btm k * radius_btm p + t_fan_btm k * radius_fan_btm p)%R.
Definition radius_cap_upp_ctrl (p : TubeParams) (k : Factors) : R :=
  (u_fan_top k * radius_top p + t_fan_top k * radius_fan_top p)%R.

Definition vs_spokes (p : TubeParams) (f : CapFlags) (vp : VPlan)
  : list (Z * vec3) :=
  if use_center_spoke f
  then [(v_idx_btm_spoke vp, (0%R, 0%R, vz_btm p));
        (v_idx_top_spoke vp, (0%R, 0%R, vz_top p))]
  else [].

Definition vs_edges (p : TubeParams) (step : R) (vp : VPlan)
  : list (Z * vec3) :=
  for_range (sectors p) (fun i =>
    let cart := cartesian p step i in
    [ring (v_idx_btm_edge vp) i cart (radius_btm p) (vz_btm p);
     ring (v_idx_top_edge vp) i cart (radius_top p) (vz_top p)]).

Definition vs_side_loops (p : TubeParams) (k : Factors) (step : R) (vp : VPlan)
  : list (Z * vec3) :=
  for_range (sectors p) (fun i =>
    let cart := cartesian p step i in
    [ring (v_idx_side_lwr_ctrl vp) i cart
          (radius_side_lwr_ctrl p k) (side_lwr_ctrl_z p k);
     ring (v_idx_mid vp) i cart (radius_mid p) (vz_mid p);
     ring (v_idx_side_upp_ctrl vp) i cart
          (radius_side_upp_ctrl p k) (side_upp_ctrl_z p k)]).

Definition vs_cap_loops (p : TubeParams) (k : Factors) (step : R) (vp : VPlan)
  : list (Z * vec3) :=
  for_range (sectors p) (fun i =>
    let cart := cartesian p step i in
    [ring (v_idx_btm_fan vp) i cart (radius_fan_btm p) (vz_btm p);
     ring (v_idx_btm_ctrl vp) i cart (radius_cap_lwr_ctrl p k) (vz_btm p);
     ring (v_idx_top_ctrl vp) i cart (radius_cap_upp_ctrl p k) (vz_top p);
     ring (v_idx_top_fan vp) i cart (radius_fan_top p) (vz_top p)]).

(** The item assignments on [vs], in program order. *)
Definition vs_stores (p : TubeParams) (f : CapFlags) (el : bool)
    (k : Factors) (step : R) (vp : VPlan) : list (Z * vec3) :=
  vs_spokes p f vp
  ++ vs_edges p step vp
  ++ (if el
      then vs_side_loops p k step vp
           ++ (if use_caps f then vs_cap_loops p k step vp else [])
      else []).

Definition positions (p : TubeParams) (f : CapFlags) (el : bool)
    (k : Factors) (step : R) (vp : VPlan) : result (list vec3) :=
  store_all (vs_stores p f el k step vp)
            (pyrepeat (0%R, 0%R, 0%R) (len_vs vp)).

(** ** Faces (lines 414-519) *)

Definition face : Type := list Z.

(** The two n-gon index arrays (lines 444-449, 722-727). *)
Definition ngon_arrays (sectors btm_fan top_fan : Z) : result (face * face) :=
  idcs_btm_arr <-
    store_all (for_range sectors (fun i =>
                 let j := (i - 1) mod sectors in
                 [(i, btm_fan + sectors - 1 - j)]))
              (pyrepeat 0 sectors) ;;
  idcs_top_arr <-
    store_all (for_range sectors (fun i => [(i, top_fan + i)]))
              (pyrepeat 0 sectors) ;;
  Ok (idcs_btm_arr, idcs_top_arr).

(** The central fan of both caps (lines 416-451, 695-729); the same
    text serves the vertex indices and the texture-coordinate indices. *)
Definition fan_stores (sectors : Z) (f : CapFlags) (lp : LPlan)
    (btm_spoke btm_fan top_spoke top_fan : Z) : result (list (Z * face)) :=
  if cap_is_tri f then
    Ok (for_range sectors (fun i =>
          let j := (i + 1) mod sectors in
          [(loop_idx_btm_fan lp + i, [btm_spoke; btm_fan + j; btm_fan + i]);
           (loop_idx_top_fan lp + i, [top_spoke; top_fan + i; top_fan + j])]))
  else if cap_is_quad f then
    Ok (for_range (sectors / 2) (fun h =>
          let i := h + h in
          let j := (i + 1) mod sectors in
          let k := (i + 2) mod sectors in
          [(loop_idx_btm_fan lp + h,
            [btm_spoke; btm_fan + k; btm_fan + j; btm_fan + i]);
           (loop_idx_top_fan lp + h,
            [top_spoke; top_fan + i; top_fan + j; top_fan + k])]))
  else if cap_is_ngon f then
    arrs <- ngon_arrays sectors btm_fan top_fan ;;
    Ok [(loop_idx_btm_fan lp, fst arrs); (loop_idx_top_fan lp, snd arrs)]
  else Ok [].

(** The control bands of the caps (lines 455-480, 733-754). *)
Definition cap_band_stores (sectors : Z) (lp : LPlan)
    (btm_fan btm_ctrl btm_edge top_edge top_ctrl top_fan : Z)
  : list (Z * face) :=
  for_range sectors (fun i =>
    let j := (i + 1) mod sectors in
    [(loop_idx_btm_mid lp + i,
      [btm_fan + i; btm_fan + j; btm_ctrl + j; btm_ctrl + i]);
     (loop_idx_btm_ctrl lp + i,
      [btm_ctrl + i; btm_ctrl + j; btm_edge + j; btm_edge + i]);
     (loop_idx_top_ctrl lp + i,
      [top_edge + i; top_edge + j; top_ctrl + j; top_ctrl + i]);
     (loop_idx_top_mid lp + i,
      [top_ctrl + i; top_ctrl + j; top_fan + j; top_fan + i])]).

(** Side panels over vertex indices (lines 482-519). *)
Definition side_stores (sectors : Z) (el : bool) (lp : LPlan) (vp : VPlan)
  : list (Z * face) :=
  if el then
    for_range sectors (fun i =>
      let j := i + 1 in
      let k := j mod sectors in
      [(loop_idx_side_lwr_ctrl lp + i,
        [v_idx_btm_edge vp + i; v_idx_btm_edge vp + k;
         v_idx_side_lwr_ctrl vp + k; v_idx_side_lwr_ctrl vp + i]);
       (loop_idx_side_lwr lp + i,
        [v_idx_side_lwr_ctrl vp + i; v_idx_side_lwr_ctrl vp + k;
         v_idx_mid vp + k; v_idx_mid vp + i]);
       (loop_idx_side_upp lp + i,
        [v_idx_mid vp + i; v_idx_mid vp + k;
         v_idx_side_upp_ctrl vp + k; v_idx_side_upp_ctrl vp + i]);
       (loop_idx_side_upp_ctrl lp + i,
        [v_idx_side_upp_ctrl vp + i; v_idx_side_upp_ctrl vp + k;
         v_idx_top_edge vp + k; v_idx_top_edge vp + i])])
  else
    for_range sectors (fun i =>
      let j := i + 1 in
      let k := j mod sectors in
      [(loop_idx_side_lwr_ctrl lp + i,
        [v_idx_btm_edge vp + i; v_idx_btm_edge vp + k;
         v_idx_top_edge vp + k; v_idx_top_edge vp + i])]).

(** The item assignments on [v_idcs], in program order. *)
Definition v_idcs_stores (sectors : Z) (f : CapFlags) (el : bool)
    (lp : LPlan) (vp : VPlan) : result (list (Z * face)) :=
  fan <- fan_stores sectors f lp
           (v_idx_btm_spoke vp) (v_idx_btm_fan vp)
           (v_idx_top_spoke vp) (v_idx_top_fan vp) ;;
  Ok (fan
      ++ (if el && use_caps f
          then cap_band_stores sectors lp
                 (v_idx_btm_fan vp) (v_idx_btm_ctrl vp) (v_idx_btm_edge vp)
                 (v_idx_top_edge vp) (v_idx_top_ctrl vp) (v_idx_top_fan vp)
          else [])
      ++ side_stores sectors el lp vp).

Definition faces (sectors : Z) (f : CapFlags) (el : bool) : result (list face) :=
  let vp := v_plan sectors f el in
  let lp := l_plan sectors f el in
  ws <- v_idcs_stores sectors f el lp vp ;;
  store_all ws (pyrepeat [0; 0; 0; 0] (len_loop_idcs lp)).

(** ** Texture coordinates (lines 537-786) *)

Record VtPlan : Type := mkVtPlan {
  len_vts : Z;
  vt_idx_btm_strip : Z;
  vt_idx_top_strip : Z;
  vt_idx_side_lwr_ctrl : Z;
  vt_idx_mid_strip : Z;
  vt_idx_side_upp_ctrl : Z;
  vt_idx_btm_edge : Z;
  vt_idx_btm_ctrl : Z;
  vt_idx_btm_fan : Z;
  vt_idx_top_edge : Z;
  vt_idx_top_ctrl : Z;
  vt_idx_top_fan : Z;
  vt_idx_btm_spoke : Z;
  vt_idx_top_spoke : Z
}.

Definition vt_plan (sectors : Z) (f : CapFlags) (el : bool) : VtPlan :=
  let sectorsp1 := sectors + 1 in
  let len_vts := sectorsp1 * 2 in
  let len_vts := if el then len_vts + sectorsp1 * 3 else len_vts in
  let len_vts :=
    if use_caps f then
      let len_vts := len_vts + sectors * 2 in
      let len_vts := if el then len_vts + sectors * 4 else len_vts in
      if use_center_spoke f then len_vts + 2 else len_vts
    else len_vts in
  let vt_idx_btm_strip := 0 in
  let vt_idx_top_strip := sectorsp1 in
  let '(vt_idx_side_lwr_ctrl, vt_idx_mid_strip, vt_idx_side_upp_ctrl) :=
    if el then (sectorsp1 * 2, sectorsp1 * 3, sectorsp1 * 4)
    else (-1, -1, -1) in
  let '(vt_idx_btm_edge, vt_idx_btm_ctrl, vt_idx_btm_fan,
        vt_idx_top_edge, vt_idx_top_ctrl, vt_idx_top_fan,
        vt_idx_btm_spoke, vt_idx_top_spoke) :=
    if use_caps f then
      let sectorsp1_2 := sectorsp1 * 2 in
      let vt_idx_btm_edge := sectorsp1_2 in
      let vt_idx_top_edge := sectorsp1_2 + sectors in
      let vt_idx_btm_fan := vt_idx_btm_edge in
      let vt_idx_top_fan := vt_idx_top_edge in
      let '(vt_idx_btm_edge, vt_idx_btm_ctrl, vt_idx_btm_fan,
            vt_idx_top_edge, vt_idx_top_ctrl, vt_idx_top_fan) :=
        if el then
          let sectorsp1_5 := sectorsp1 * 5 in
          (sectorsp1_5, sectorsp1_5 + sectors, sectorsp1_5 + sectors * 2,
           sectorsp1_5 + sectors * 3, sectorsp1_5 + sectors * 4,
           sectorsp1_5 + sectors * 5)
        else (vt_idx_btm_edge, -1, vt_idx_btm_fan,
              vt_idx_top_edge, -1, vt_idx_top_fan) in
      let '(vt_idx_btm_spoke, vt_idx_top_spoke) :=
        if use_center_spoke f then (len_vts - 2, len_vts - 1) else (-1, -1) in
      (vt_idx_btm_edge, vt_idx_btm_ctrl, vt_idx_btm_fan,
       vt_idx_top_edge, vt_idx_top_ctrl, vt_idx_top_fan,
       vt_idx_btm_spoke, vt_idx_top_spoke)
    else (-1, -1, -1, -1, -1, -1, -1, -1) in
  mkVtPlan len_vts vt_idx_btm_strip vt_idx_top_strip
           vt_idx_side_lwr_ctrl vt_idx_mid_strip vt_idx_side_upp_ctrl
           vt_idx_btm_edge vt_idx_btm_ctrl vt_idx_btm_fan
           vt_idx_top_edge vt_idx_top_ctrl vt_idx_top_fan
           vt_idx_btm_spoke vt_idx_top_spoke.

Definition vts_min_y (f : CapFlags) : R := if use_caps f then 0.5%R else 0%R.
Definition vts_max_y : R := 1%R.
Definition vts_mid_y (f : CapFlags) : R := ((vts_min_y f + vts_max_y) * 0.5)%R.

Definition vts_rad : R := 0.25%R.
Definition vt_btm_center_x : R := 0.75%R.
Definition vt_btm_center_y : R := 0.25%R.
Definition vt_top_center_x : R := 0.25%R.
Definition vt_top_center_y : R := 0.25%R.

Definition vt_side_lwr_ctrl_y (f : CapFlags) (k : Factors) : R :=
  (u_btm k * vts_min_y f + t_btm k * vts_mid_y f)%R.
Definition vt_side_upp_ctrl_y (f : CapFlags) (k : Factors) : R :=
  (u_top k * vts_max_y + t_top k * vts_mid_y f)%R.

Definition vts_radius_mid : R := (vts_rad * 0.5)%R.
Definition vts_radius_cap_lwr_ctrl (k : Factors) : R :=
  (u_fan_btm k * vts_rad + t_fan_btm k * vts_radius_mid)%R.
Definition vts_radius_cap_upp_ctrl (k : Factors) : R :=
  (u_fan_top k * vts_rad + t_fan_top k * vts_radius_mid)%R.

(** The side strips (lines 612-616).  Over the reals
    [j * sectors_to_uv] is [j / sectors]; in binary64 it is that up to
    rounding (see [strip_x64]). *)
Definition vts_strips (sectors : Z) (f : CapFlags) (sectors_to_uv : R)
    (tp : VtPlan) : list (Z * vec2) :=
  for_range (sectors + 1) (fun j =>
    let x := (IZR j * sectors_to_uv)%R in
    [(vt_idx_btm_strip tp + j, (x, vts_min_y f));
     (vt_idx_top_strip tp + j, (x, vts_max_y))]).

Definition vts_side_loops (sectors : Z) (f : CapFlags) (k : Factors)
    (sectors_to_uv : R) (tp : VtPlan) : list (Z * vec2) :=
  for_range (sectors + 1) (fun j =>
    let x := (IZR j * sectors_to_uv)%R in
    [(vt_idx_side_lwr_ctrl tp + j, (x, vt_side_lwr_ctrl_y f k));
     (vt_idx_mid_strip tp + j, (x, vts_mid_y f));
     (vt_idx_side_upp_ctrl tp + j, (x, vt_side_upp_ctrl_y f k))]).

Definition vts_spokes (f : CapFlags) (tp : VtPlan) : list (Z * vec2) :=
  if use_center_spoke f
  then [(vt_idx_btm_spoke tp, (vt_btm_center_x, vt_btm_center_y));
        (vt_idx_top_spoke tp, (vt_top_center_x, vt_top_center_y))]
  else [].

Definition vts_edges (p : TubeParams) (step : R) (tp : VtPlan)
  : list (Z * vec2) :=
  for_range (sectors p) (fun i =>
    let cart := cartesian p step i in
    let cos_t := fst cart in
    let sin_t := snd cart in
    [(vt_idx_btm_edge tp + i,
      ((vt_btm_center_x + cos_t * vts_rad)%R,
       (vt_btm_center_y + sin_t * vts_rad)%R));
     (vt_idx_top_edge tp + i,
      ((vt_top_center_x + cos_t * vts_rad)%R,
       (vt_top_center_y + sin_t * vts_rad)%R))]).

Definition vts_cap_loops (p : TubeParams) (k : Factors) (step : R)
    (tp : VtPlan) : list (Z * vec2) :=
  for_range (sectors p) (fun i =>
    let cart := cartesian p step i in
    let cos_t := fst cart in
    let sin_t := snd cart in
    let cos_t_mid := (cos_t * vts_radius_mid)%R in
    let sin_t_mid := (sin_t * vts_radius_mid)%R in
    [(vt_idx_btm_fan tp + i,
      ((vt_btm_center_x + cos_t_mid)%R, (vt_btm_center_y + sin_t_mid)%R));
     (vt_idx_btm_ctrl tp + i,
      ((vt_btm_center_x + cos_t * vts_radius_cap_lwr_ctrl k)%R,
       (vt_btm_center_y + sin_t * vts_radius_cap_lwr_ctrl k)%R));
     (vt_idx_top_ctrl tp + i,
      ((vt_top_center_x + cos_t * vts_radius_cap_upp_ctrl k)%R,
       (vt_top_center_y + sin_t * vts_radius_cap_upp_ctrl k)%R));
     (vt_idx_top_fan tp + i,
      ((vt_top_center_x + cos_t_mid)%R, (vt_top_center_y + sin_t_mid)%R))]).

(** The item assignments on [vts], in program order. *)
Definition vts_stores (p : TubeParams) (f : CapFlags) (el : bool)
    (k : Factors) (step sectors_to_uv : R) (tp : VtPlan) : list (Z * vec2) :=
  vts_strips (sectors p) f sectors_to_uv tp
  ++ (if el then vts_side_loops (sectors p) f k sectors_to_uv tp else [])
  ++ (if use_caps f
      then vts_spokes f tp
           ++ vts_edges p step tp
           ++ (if el then vts_cap_loops p k step tp else [])
      else []).

(** Side panels over texture-coordinate indices (lines 756-786): the
    seam column [sectors] is used, without wrap-around. *)
Definition vt_side_stores (sectors : Z) (el : bool) (lp : LPlan) (tp : VtPlan)
  : list (Z * face) :=
  if el then
    for_range sectors (fun i =>
      let j := i + 1 in
      [(loop_idx_side_lwr_ctrl lp + i,
        [vt_idx_btm_strip tp + i; vt_idx_btm_strip tp + j;
         vt_idx_side_lwr_ctrl tp + j; vt_idx_side_lwr_ctrl tp + i]);
       (loop_idx_side_lwr lp + i,
        [vt_idx_side_lwr_ctrl tp + i; vt_idx_side_lwr_ctrl tp + j;
         vt_idx_mid_strip tp + j; vt_idx_mid_strip tp + i]);
       (loop_idx_side_upp lp + i,
        [vt_idx_mid_strip tp + i; vt_idx_mid_strip tp + j;
         vt_idx_side_upp_ctrl tp + j; vt_idx_side_upp_ctrl tp + i]);
       (loop_idx_side_upp_ctrl lp + i,
        [vt_idx_side_upp_ctrl tp + i; vt_idx_side_upp_ctrl tp + j;
         vt_idx_top_strip tp + j; vt_idx_top_strip tp + i])])
  else
    for_range sectors (fun i =>
      let j := i + 1 in
      [(loop_idx_side_lwr_ctrl lp + i,
        [vt_idx_btm_strip tp + i; vt_idx_btm_strip tp + j;
         vt_idx_top_strip tp + j; vt_idx_top_strip tp + i])]).

Definition vt_idcs_stores (sectors : Z) (f : CapFlags) (el : bool)
    (lp : LPlan) (tp : VtPlan) : result (list (Z * face)) :=
  fan <- fan_stores sectors f lp
           (vt_idx_btm_spoke tp) (vt_idx_btm_fan tp)
           (vt_idx_top_spoke tp) (vt_idx_top_fan tp) ;;
  Ok (fan
      ++ (if el && use_caps f
          then cap_band_stores sectors lp
                 (vt_idx_btm_fan tp) (vt_idx_btm_ctrl tp) (vt_idx_btm_edge tp)
                 (vt_idx_top_edge tp) (vt_idx_top_ctrl tp) (vt_idx_top_fan tp)
          else [])
      ++ vt_side_stores sectors el lp tp).

Record UVs : Type := mkUVs {
  vts : list vec2;
  vt_idcs : list face
}.

Definition texcoords (p : TubeParams) (f : CapFlags) (el : bool)
    (k : Factors) (step : R) : result UVs :=
  let tp := vt_plan (sectors p) f el in
  let lp := l_plan (sectors p) f el in
  sectors_to_uv <- fdiv 1 (IZR (sectors p)) ;;
  vts <- store_all (vts_stores p f el k step sectors_to_uv tp)
                   (pyrepeat (0%R, 0%R) (len_vts tp)) ;;
  ws <- vt_idcs_stores (sectors p) f el lp tp ;;
  vt_idcs <- store_all ws (pyrepeat [0; 0; 0; 0] (len_loop_idcs lp)) ;;
  Ok (mkUVs vts vt_idcs).

(** ** The generator *)

Record Mesh : Type := mkMesh {
  vs : list vec3;
  v_idcs : list face;
  uvs : option UVs
}.

Definition execute (p : TubeParams) : result Mesh :=
  let f := cap_flags (sectors p) (cap_face_type p) in
  let el := use_edge_loops (edge_loop_fac p) in
  k <- factors p (use_caps f) ;;
  step <- sectors_to_theta p ;;
  vs <- positions p f el k step (v_plan (sectors p) f el) ;;
  v_idcs <- faces (sectors p) f el ;;
  uvs <- (if calc_uvs p
          then (uv <- texcoords p f el k step ;; Ok (Some uv))
          else Ok None) ;;
  Ok (mkMesh vs v_idcs uvs).

(** ** The arithmetic in binary64 *)

(** The definitions above read every float as a real number.  The lines
    of [execute] that use only [+], [-], [*], [/] and comparisons are set
    down here a second time on binary64 floats, operation by operation as
    CPython rounds them, to mark where the two readings part: an equality
    or a strict inequality between computed floats that holds over the
    reals need not hold in binary64.  [math.cos] and [math.sin] have no
    binary64 counterpart here. *)

Section Binary64.
Import PrimFloat.

(** An [int] in float arithmetic; exact below [2^53] in absolute value. *)
Definition float_of_int (n : Z) : float :=
  if 0 <=? n then of_uint63 (Uint63.of_Z n)
  else (- of_uint63 (Uint63.of_Z (- n)))%float.

(** Float division [a / b]: a zero divisor of either sign raises. *)
Definition fdiv64 (a b : float) : result float :=
  if eqb b 0 then Raise ZeroDivisionError else Ok (a / b)%float.

(** [math.tau]. *)
Definition tau64 : float := 0x1.921fb54442d18p+2%float.

(** Heights (lines 172-177). *)
Definition vz_mid64 (d d_offset : float) : float :=
  (let offset_fac := d_offset * 0.5 + 0.5 in
   let half_depth := d * 0.5 in
   (1 - offset_fac) * - half_depth + offset_fac * half_depth)%float.

Definition vz_btm64 (d d_offset : float) : float :=
  (vz_mid64 d d_offset - d * 0.5)%float.

Definition vz_top64 (d d_offset : float) : float :=
  (vz_mid64 d d_offset + d * 0.5)%float.

(** Control factors (lines 181-218). *)
Record Factors64 : Type := mkFactors64 {
  t_btm64 : float; u_btm64 : float;
  t_top64 : float; u_top64 : float;
  t_fan_btm64 : float; u_fan_btm64 : float;
  t_fan_top64 : float; u_fan_top64 : float
}.

Definition factors64 (r_btm r_top d t : float) (caps : bool)
  : result Factors64 :=
  let u := (1 - t)%float in
  ar <- (if caps
         then (ab <- fdiv64 r_btm d ;;
               at_ <- fdiv64 r_top d ;;
               Ok (ab, at_))
         else Ok (1%float, 1%float)) ;;
  let '(aspect_ratio_btm, aspect_ratio_top) := ar in
  let '(t_btm, u_btm) :=
    if ltb r_btm d
    then ((t * aspect_ratio_btm)%float, (1 - t * aspect_ratio_btm)%float)
    else (t, u) in
  let '(t_top, u_top) :=
    if ltb r_top d
    then ((t * aspect_ratio_top)%float, (1 - t * aspect_ratio_top)%float)
    else (t, u) in
  fb <- (if leb d r_btm
         then (q <- fdiv64 t aspect_ratio_btm ;; Ok (q, (1 - q)%float))
         else Ok (t, u)) ;;
  ft <- (if leb d r_top
         then (q <- fdiv64 t aspect_ratio_top ;; Ok (q, (1 - q)%float))
         else Ok (t, u)) ;;
  Ok (mkFactors64 t_btm u_btm t_top u_top
                  (fst fb) (snd fb) (fst ft) (snd ft)).

(** The height of the lower side control ring (line 295). *)
Definition side_lwr_ctrl_z64 (k : Factors64) (d d_offset : float) : float :=
  (u_btm64 k * vz_btm64 d d_offset + t_btm64 k * vz_mid64 d d_offset)%float.

(** The radius of the bottom cap control ring (lines 324-326). *)
Definition radius_cap_lwr_ctrl64 (k : Factors64) (r_btm : float) : float :=
  (u_fan_btm64 k * r_btm + t_fan_btm64 k * (r_btm * 0.5))%float.

(** The angle of sector [i] (lines 222, 226). *)
Definition theta64 (orient : float) (sectors i : Z) : result float :=
  sectors_to_theta <- fdiv64 tau64 (float_of_int sectors) ;;
  Ok (orient + float_of_int i * sectors_to_theta)%float.

(** The x coordinate of sample [j] of a side strip (lines 612, 614). *)
Definition strip_x64 (sectors j : Z) : result float :=
  sectors_to_uv <- fdiv64 1 (float_of_int sectors) ;;
  Ok (float_of_int j * sectors_to_uv)%float.

End Binary64.

(** ** Derived notions used in the statements *)

(** An assignment inside a list of [n] items. *)
Definition inbounds {A : Type} (n : Z) (w : Z * A) : Prop := 0 <= fst w < n.

(** Both [cap_is_tri] and [cap_is_ngon] are set. *)
Definition tri_ngon_clash (f : CapFlags) : bool :=
  cap_is_tri f && cap_is_ngon f.

(** The flags [execute] can reach. *)
Inductive flags_shape : CapFlags -> Prop :=
| shape_none : flags_shape (mkFlags true false false false)
| shape_ngon : flags_shape (mkFlags false true false false)
| shape_quad : flags_shape (mkFlags false false true false)
| shape_tri : flags_shape (mkFlags false false false true).

(** What [factors] returns, field by field. *)
Record factors_spec (p : TubeParams) (caps : bool) (k : Factors) : Prop := {
  fs_aspect_btm :
    aspect_ratio_btm k = if caps then (radius_btm p / depth p)%R else 1%R;
  fs_aspect_top :
    aspect_ratio_top k = if caps then (radius_top p / depth p)%R else 1%R;
  fs_t_btm :
    t_btm k = if Rltb (radius_btm p) (depth p)
              then (edge_loop_fac p * aspect_ratio_btm k)%R
              else edge_loop_fac p;
  fs_t_top :
    t_top k = if Rltb (radius_top p) (depth p)
              then (edge_loop_fac p * aspect_ratio_top k)%R
              else edge_loop_fac p;
  fs_t_fan_btm :
    t_fan_btm k = if Rgeb (radius_btm p) (depth p)
                  then (edge_loop_fac p / aspect_ratio_btm k)%R
                  else edge_loop_fac p;
  fs_t_fan_top :
    t_fan_top k = if Rgeb (radius_top p) (depth p)
                  then (edge_loop_fac p / aspect_ratio_top k)%R
                  else edge_loop_fac p;
  fs_u_btm : u_btm k = (1 - t_btm k)%R;
  fs_u_top : u_top k = (1 - t_top k)%R;
  fs_u_fan_btm : u_fan_btm k = (1 - t_fan_btm k)%R;
  fs_u_fan_top : u_fan_top k = (1 - t_fan_top k)%R
}.

(** The point of a ring at sector [i]. *)
Definition ring_point (p : TubeParams) (step : R) (i : Z) (radius z : R)
  : vec3 :=
  snd (ring 0 i (cartesian p step i) radius z).

(** The flags for capStyle NONE. *)
Definition no_caps : CapFlags := mkFlags true false false false.

(** The side quad from ring [a] to ring [b] at sector [i]. *)
Definition side_quad (s a b i : Z) : face :=
  [a + i; a + (i + 1) mod s; b + (i + 1) mod s; b + i].

(** The flags for capStyle TRI with four sectors or an odd number from
    five on. *)
Definition clash_flags : CapFlags := mkFlags false true false true.

(** Linear interpolation from [a] toward [b]. *)
Definition lerp (a b t : R) : R := ((1 - t) * a + t * b)%R.

Definition lerp3 (a b : vec3) (t : R) : vec3 :=
  let '(ax, ay, az) := a in
  let '(bx, by_, bz) := b in
  (lerp ax bx t, lerp ay by_ t, lerp az bz t).

(** The parameter set of the round-trip scenario. *)
Definition p_round_trip : TubeParams :=
  mkParams 8 0 0.5 0.5 1.5 0 QUAD 0 false.

(** Eight sectors, no caps, edge loops. *)
Definition p_capless : TubeParams :=
  mkParams 8 0 0.5 0.5 1.5 0 NONE 0.5 false.

(** Five sectors, triangle caps. *)
Definition p_tri5 : TubeParams :=
  mkParams 5 0 0.5 0.5 1.5 0 TRI 0 false.

(** Three sectors, no caps, edge loops. *)
Definition p_capless3 : TubeParams :=
  mkParams 3 0 0.5 0.5 1.5 0 NONE 0.5 false.


(** Eight sectors, quad caps, edge loops. *)
Definition p_loops : TubeParams :=
  mkParams 8 0 0.5 0.5 1.5 0 QUAD 0.5 false.

(** The round-trip scenario with texture coordinates. *)
Definition p_uv : TubeParams :=
  mkParams 8 0 0.5 0.5 1.5 0 QUAD 0 true.

(** Five sectors, triangle caps, texture coordinates requested. *)
Definition p_tri5_uv : TubeParams :=
  mkParams 5 0 0.5 0.5 1.5 0 TRI 0 true.

(** ** Further notions used in the statements *)

(** A point inside the cylinder of radius [rmax] between the heights
    [zlo] and [zhi]. *)
Definition in_cylinder (rmax zlo zhi : R) (v : vec3) : Prop :=
  let '(x, y, z) := v in
  (zlo <= z <= zhi /\ x * x + y * y <= rmax * rmax)%R.

(** A texture coordinate inside the rectangle [x0, x1] x [y0, y1]. *)
Definition in_rect (x0 x1 y0 y1 : R) (v : vec2) : Prop :=
  (x0 <= fst v <= x1 /\ y0 <= snd v <= y1)%R.


(** The number of faces of one cap, by requested style and sector
    count. *)
Definition cap_face_count (s : Z) (c : CapFaceType) : Z :=
  match c with
  | NONE => 0
  | NGON => 1
  | QUAD => if (s <? 5) || negb (s mod 2 =? 0) then 1 else s / 2
  | TRI => if s <? 4 then 1 else s
  end.

(** The number of centre spokes (0 or 2). *)
Definition spoke_count (s : Z) (c : CapFaceType) : Z :=
  match c with
  | QUAD => if (s <? 5) || negb (s mod 2 =? 0) then 0 else 2
  | TRI => if s <? 4 then 0 else 2
  | _ => 0
  end.

(** The number of ring-sized groups of the position buffer. *)
Definition ring_count (c : CapFaceType) (el : bool) : Z :=
  if el then (if is_none c then 7 else 9) else 2.

(** The number of quad strips of the face buffer. *)
Definition strip_count (c : CapFaceType) (el : bool) : Z :=
  if el then (if is_none c then 4 else 8) else 1.

(** [l[i]] as Python reads it: an index in [-len(l), len(l)) is accepted,
    a negative one counting from the end. *)
Definition pyindex {A : Type} (l : list A) (i : Z) : result A :=
  let j := if i <? 0 then len l + i else i in
  if (0 <=? j) && (j <? len l)
  then match nth_error l (Z.to_nat j) with
       | Some x => Ok x
       | None => Raise IndexError
       end
  else Raise IndexError.

(** The texture coordinate of corner [i] of face [fi] (lines 789-793):
    [vts[vt_idcs[face.index][i]]]. *)
Definition loop_uv (uv : UVs) (fi i : Z) : result vec2 :=
  faceuvidcs <- pyindex (vt_idcs uv) fi ;;
  vi <- pyindex faceuvidcs i ;;
  pyindex (vts uv) vi.

(** Some assignment of the block goes to index [i]. *)
Definition covered {A : Type} (i : Z) (ws : list (Z * A)) : Prop :=
  exists v, In (i, v) ws.

(** [i] lies in one of the blocks of [n] indices starting at [offs]. *)
Fixpoint in_blocks (n i : Z) (offs : list Z) : Prop :=
  match offs with
  | [] => False
  | o :: tl => o <= i < o + n \/ in_blocks n i tl
  end.

(** Two faces with the same number of corners. *)
Definition same_arity (a b : face) : Prop := length a = length b.

(** The directed edges of a face: each corner to the next one, and the last
    corner back to the first. *)
Definition edges (fc : face) : list (Z * Z) :=
  match fc with
  | [] => []
  | x :: tl => combine fc (tl ++ [x])
  end.

(** The rings of positions from the bottom of the tube to its top, each
    by the index of its first position (lines 234-268). *)
Definition ring_chain (s : Z) (f : CapFlags) (el : bool) : list Z :=
  let vp := v_plan s f el in
  if el then
    (if use_caps f then [v_idx_btm_fan vp; v_idx_btm_ctrl vp] else [])
    ++ [v_idx_btm_edge vp; v_idx_side_lwr_ctrl vp; v_idx_mid vp;
        v_idx_side_upp_ctrl vp; v_idx_top_edge vp]
    ++ (if use_caps f then [v_idx_top_ctrl vp; v_idx_top_fan vp] else [])
  else [v_idx_btm_edge vp; v_idx_top_edge vp].

(** The pairs of neighbouring rings. *)
Definition bands (s : Z) (f : CapFlags) (el : bool) : list (Z * Z) :=
  combine (ring_chain s f el) (tl (ring_chain s f el)).

(** The faces of a tube: a quad between two neighbouring rings, or a face
    of the bottom or the top cap. *)
Inductive tube_face (s : Z) (f : CapFlags) (el : bool) : face -> Prop :=
| face_band a b i :
    In (a, b) (bands s f el) -> 0 <= i < s ->
    tube_face s f el (side_quad s a b i)
| face_tri_btm i :
    cap_is_tri f = true -> 0 <= i < s ->
    tube_face s f el
      [v_idx_btm_spoke (v_plan s f el);
       v_idx_btm_fan (v_plan s f el) + (i + 1) mod s;
       v_idx_btm_fan (v_plan s f el) + i]
| face_tri_top i :
    cap_is_tri f = true -> 0 <= i < s ->
    tube_face s f el
      [v_idx_top_spoke (v_plan s f el);
       v_idx_top_fan (v_plan s f el) + i;
       v_idx_top_fan (v_plan s f el) + (i + 1) mod s]
| face_quad_btm h :
    cap_is_quad f = true -> 0 <= h < s / 2 ->
    tube_face s f el
      [v_idx_btm_spoke (v_plan s f el);
       v_idx_btm_fan (v_plan s f el) + (h + h + 2) mod s;
       v_idx_btm_fan (v_plan s f el) + (h + h + 1) mod s;
       v_idx_btm_fan (v_plan s f el) + (h + h)]
| face_quad_top h :
    cap_is_quad f = true -> 0 <= h < s / 2 ->
    tube_face s f el
      [v_idx_top_spoke (v_plan s f el);
       v_idx_top_fan (v_plan s f el) + (h + h);
       v_idx_top_fan (v_plan s f el) + (h + h + 1) mod s;
       v_idx_top_fan (v_plan s f el) + (h + h + 2) mod s]
| face_ngon_btm b t :
    cap_is_ngon f = true ->
    ngon_arrays s (v_idx_btm_fan (v_plan s f el))
                  (v_idx_top_fan (v_plan s f el)) = Ok (b, t) ->
    tube_face s f el b
| face_ngon_top b t :
    cap_is_ngon f = true ->
    ngon_arrays s (v_idx_btm_fan (v_plan s f el))
                  (v_idx_top_fan (v_plan s f el)) = Ok (b, t) ->
    tube_face s f el t.

(** The edge [e] run through the other way. *)
Definition flip (e : Z * Z) : Z * Z := (snd e, fst e).

(** Some face of [fs] has the directed edge [e]. *)
Definition has_edge (fs : list face) (e : Z * Z) : Prop :=
  exists fc, In fc fs /\ In e (edges fc).

(** [v] is a corner of some face of [fs]. *)
Definition is_corner (fs : list face) (v : Z) : Prop :=
  exists fc, In fc fs /\ In v fc.

(** The directed edge [e] lies on a rim of the open tube: on the bottom
    ring, which starts at position 0, in the direction of the sectors, or on
    the top ring, which starts at position [top], against it. *)
Definition on_rim (s top : Z) (e : Z * Z) : Prop :=
  exists i, 0 <= i < s
    /\ (e = (i, (i + 1) mod s) \/ e = (top + (i + 1) mod s, top + i)).

(** The parameters [p] with the edge-loop factor [t]. *)
Definition with_edge_loop_fac (p : TubeParams) (t : R) : TubeParams :=
  mkParams (sectors p) (orientation p) (radius_btm p) (radius_top p)
           (depth p) (depth_offset p) (cap_face_type p) t (calc_uvs p).

(** The z component of the cross product of two vectors of the plane:
    positive when [b] lies counter-clockwise of [a], by less than a half
    turn. *)
Definition cross2 (a b : vec2) : R := (fst a * snd b - snd a * fst b)%R.

(** * Properties *)

(** ** Lists and item assignment *)

Section ListFacts.
Context {A : Type}.
Implicit Types (l : list A) (ws : list (Z * A)).

Lemma length_update l n v : length (update l n v) = length l.
Proof.
  revert n; induction l as [|a l IH]; intros [|n]; simpl; auto.
Qed.

Lemma nth_error_update_eq l n v :
  (n < length l)%nat -> nth_error (update l n v) n = Some v.
Proof.
  revert n; induction l as [|a l IH]; intros [|n] H; simpl in *;
    try lia; auto.
  apply IH; lia.
Qed.

Lemma nth_error_update_neq l n m v :
  n <> m -> nth_error (update l n v) m = nth_error l m.
Proof.
  revert n m; induction l as [|a l IH]; intros [|n] [|m] H; simpl;
    auto; try congruence.
Qed.

Lemma Forall_update (P : A -> Prop) l n v :
  Forall P l -> P v -> Forall P (update l n v).
Proof.
  intros Hl Hv; revert n; induction Hl as [|a l Ha Hl IH]; intros [|n];
    simpl; auto.
Qed.

Lemma len_update l n v : len (update l n v) = len l.
Proof. unfold len; now rewrite length_update. Qed.

Lemma len_pyrepeat (x : A) n : 0 <= n -> len (pyrepeat x n) = n.
Proof.
  intros H; unfold len, pyrepeat; rewrite repeat_length; lia.
Qed.

Lemma len_nonneg l : 0 <= len l.
Proof. unfold len; lia. Qed.

Lemma setitem_inbounds l i v :
  0 <= i < len l -> setitem l i v = Ok (update l (Z.to_nat i) v).
Proof.
  intros [H0 H1]; unfold setitem.
  apply Z.leb_le in H0; apply Z.ltb_lt in H1; now rewrite H0, H1.
Qed.

Lemma setitem_above l i v : len l <= i -> setitem l i v = Raise IndexError.
Proof.
  intros H; unfold setitem; pose proof (len_nonneg l).
  replace (i <? len l) with false by (symmetry; apply Z.ltb_ge; lia).
  replace (i <? 0) with false by (symmetry; apply Z.ltb_ge; lia).
  now rewrite !andb_false_r.
Qed.

Lemma setitem_len l i v l' : setitem l i v = Ok l' -> len l' = len l.
Proof.
  unfold setitem; intros H.
  destruct (_ && _); [|destruct (_ && _)]; inversion H; apply len_update.
Qed.

Lemma setitem_Forall (P : A -> Prop) l i v l' :
  Forall P l -> P v -> setitem l i v = Ok l' -> Forall P l'.
Proof.
  unfold setitem; intros Hl Hv H.
  destruct (_ && _); [|destruct (_ && _)]; inversion H;
    now apply Forall_update.
Qed.

Lemma store_all_app ws1 ws2 l :
  store_all (ws1 ++ ws2) l = (l' <- store_all ws1 l ;; store_all ws2 l').
Proof.
  revert l; induction ws1 as [|[i v] ws1 IH]; intros l; simpl; auto.
  destruct (setitem l i v); simpl; auto.
Qed.

Lemma store_all_len ws l l' : store_all ws l = Ok l' -> len l' = len l.
Proof.
  revert l; induction ws as [|[i v] ws IH]; intros l; simpl.
  - now intros [= ->].
  - destruct (setitem l i v) as [l1|] eqn:E; simpl; [|discriminate].
    intros H; rewrite (IH _ H); eauto using setitem_len.
Qed.

(** Whatever holds of the initial items and of every stored value holds
    of the final items. *)
Lemma store_all_Forall (P : A -> Prop) ws l l' :
  Forall P l -> Forall (fun w => P (snd w)) ws ->
  store_all ws l = Ok l' -> Forall P l'.
Proof.
  intros Hl Hws; revert l Hl; induction Hws as [|[i v] ws Hv Hws IH];
    intros l Hl; simpl.
  - now intros [= <-].
  - destruct (setitem l i v) as [l1|] eqn:E; simpl; [|discriminate].
    apply IH; eauto using setitem_Forall.
Qed.

(** Assignments inside the list never raise. *)
Lemma store_all_ok ws l :
  Forall (inbounds (len l)) ws -> exists l', store_all ws l = Ok l'.
Proof.
  intros H; revert l H; induction ws as [|[i v] ws IH]; intros l H; simpl.
  - eauto.
  - inversion H as [|? ? Hi Hws]; subst; unfold inbounds in Hi; simpl in Hi.
    rewrite setitem_inbounds by assumption; simpl.
    apply IH; now rewrite len_update.
Qed.

(** The first assignment past the end raises. *)
Lemma store_all_raise ws1 i v ws2 l :
  Forall (inbounds (len l)) ws1 -> len l <= i ->
  store_all (ws1 ++ (i, v) :: ws2) l = Raise IndexError.
Proof.
  intros H Hi; rewrite store_all_app.
  destruct (store_all_ok ws1 l H) as [l1 E]; rewrite E; simpl.
  rewrite setitem_above; auto.
  now rewrite (store_all_len _ _ _ E).
Qed.

Lemma getitem_update_eq l i v :
  0 <= i < len l -> getitem (update l (Z.to_nat i) v) i = Some v.
Proof.
  intros [H0 H1]; unfold getitem.
  replace (0 <=? i) with true by (symmetry; now apply Z.leb_le).
  apply nth_error_update_eq; unfold len in H1; lia.
Qed.

Lemma getitem_update_neq l i j v :
  0 <= i -> 0 <= j -> i <> j ->
  getitem (update l (Z.to_nat j) v) i = getitem l i.
Proof.
  intros Hi Hj Hij; unfold getitem; destruct (0 <=? i); auto.
  apply nth_error_update_neq; lia.
Qed.

(** An item holds [v] at the end when every assignment to it stores [v]
    and either there is one or the item held [v] from the start. *)
Lemma store_all_get ws l l' i v :
  store_all ws l = Ok l' -> Forall (inbounds (len l)) ws -> 0 <= i ->
  (forall v', In (i, v') ws -> v' = v) ->
  In (i, v) ws \/ getitem l i = Some v ->
  getitem l' i = Some v.
Proof.
  revert l; induction ws as [|[j w] ws IH]; intros l E Hb Hi Hu Hin;
    simpl in E.
  - destruct Hin as [[]|Hin]; now inversion E; subst.
  - inversion Hb as [|? ? Hj Hws]; subst; unfold inbounds in Hj; simpl in Hj.
    rewrite setitem_inbounds in E by assumption; simpl in E.
    apply (IH _ E); auto.
    + now rewrite len_update.
    + intros v' Hv'; apply Hu; now right.
    + destruct (Z.eq_dec j i) as [->|Hne].
      * right; rewrite (Hu w) by now left.
        now apply getitem_update_eq.
      * destruct Hin as [[Hin|Hin]|Hin]; auto.
        -- congruence.
        -- right; rewrite getitem_update_neq; auto; lia.
Qed.

Lemma store_all_getitem ws l l' i v :
  store_all ws l = Ok l' -> Forall (inbounds (len l)) ws ->
  In (i, v) ws -> (forall v', In (i, v') ws -> v' = v) ->
  getitem l' i = Some v.
Proof.
  intros E Hb Hin Hu; apply (store_all_get ws l l' i v); auto.
  rewrite Forall_forall in Hb; apply (Hb _ Hin).
Qed.

End ListFacts.

Lemma in_range i n : In i (range n) <-> 0 <= i < n.
Proof.
  unfold range; rewrite in_map_iff; split.
  - intros (k & <- & Hk); apply in_seq in Hk; lia.
  - intros H; exists (Z.to_nat i); split; [lia|apply in_seq; lia].
Qed.

Lemma in_for_range {A : Type} (w : Z * A) n body :
  In w (for_range n body) <-> exists i, 0 <= i < n /\ In w (body i).
Proof.
  unfold for_range; rewrite in_flat_map; split;
    intros (i & Hi & Hw); exists i; split; auto; now apply in_range.
Qed.

Lemma Forall_for_range {A : Type} (P : Z * A -> Prop) n body :
  (forall i, 0 <= i < n -> Forall P (body i)) -> Forall P (for_range n body).
Proof.
  intros H; apply Forall_forall; intros w Hw.
  apply in_for_range in Hw; destruct Hw as (i & Hi & Hw).
  specialize (H i Hi); rewrite Forall_forall in H; auto.
Qed.

Lemma range_two n : 2 <= n -> exists tl, range n = 0 :: 1 :: tl.
Proof.
  intros H; unfold range.
  destruct (Z.to_nat n) as [|[|k]] eqn:E; try lia.
  simpl; eauto.
Qed.

(** ** Flags *)

Lemma Rltb_true x y : Rltb x y = true <-> (x < y)%R.
Proof. unfold Rltb; destruct (Rlt_dec x y); split; auto; discriminate. Qed.

Lemma Rltb_false x y : Rltb x y = false <-> (y <= x)%R.
Proof.
  unfold Rltb; destruct (Rlt_dec x y); split; auto; try discriminate; lra.
Qed.

Lemma Rgeb_true x y : Rgeb x y = true <-> (x >= y)%R.
Proof. unfold Rgeb; destruct (Rge_dec x y); split; auto; discriminate. Qed.

Lemma Rgeb_false x y : Rgeb x y = false <-> (x < y)%R.
Proof.
  unfold Rgeb; destruct (Rge_dec x y); split; auto; try discriminate; lra.
Qed.

Lemma use_edge_loops_true t : use_edge_loops t = true <-> (0 < t < 1)%R.
Proof.
  unfold use_edge_loops; rewrite andb_true_iff, !Rltb_true; tauto.
Qed.

Lemma use_edge_loops_false t :
  use_edge_loops t = false <-> (t <= 0 \/ 1 <= t)%R.
Proof.
  unfold use_edge_loops; rewrite andb_false_iff, !Rltb_false; tauto.
Qed.

Lemma cap_flags_shape s c :
  tri_ngon_clash (cap_flags s c) = false -> flags_shape (cap_flags s c).
Proof.
  unfold tri_ngon_clash, cap_flags.
  destruct c, (Z.ltb_spec s 5), (s mod 2 =? 0), (Z.ltb_spec s 4); simpl;
    intros Hc; try discriminate; try lia; constructor.
Qed.

Lemma cap_flags_clash s c :
  tri_ngon_clash (cap_flags s c) = true <->
  c = TRI /\ 4 <= s /\ (s < 5 \/ s mod 2 <> 0).
Proof.
  unfold tri_ngon_clash, cap_flags.
  destruct (Z.ltb_spec s 5), (Z.eqb_spec (s mod 2) 0), (Z.ltb_spec s 4);
    destruct c; simpl; split; intros Hc; try discriminate; try lia;
    try (destruct Hc as (Hc & _); discriminate); repeat split; auto; lia.
Qed.

Lemma cap_flags_none s : cap_flags s NONE = mkFlags true false false false.
Proof.
  unfold cap_flags; destruct (s <? 5), (s mod 2 =? 0), (s <? 4); reflexivity.
Qed.

Lemma cap_flags_caps_or_none s c :
  use_caps (cap_flags s c) || cap_is_none (cap_flags s c) = true.
Proof.
  unfold cap_flags, use_caps.
  destruct c, (s <? 5), (s mod 2 =? 0), (s <? 4); reflexivity.
Qed.

(** ** Factors and angles *)

Lemma fdiv_ok a b : b <> 0%R -> fdiv a b = Ok (a / b)%R.
Proof. intros H; unfold fdiv; destruct (Req_dec_T b 0); tauto. Qed.


Lemma div_nonzero a b : a <> 0%R -> b <> 0%R -> (a / b)%R <> 0%R.
Proof.
  intros Ha Hb H; apply Ha.
  replace a with (a / b * b)%R by (field; auto); rewrite H; ring.
Qed.

Lemma factors_inv p caps k : factors p caps = Ok k -> factors_spec p caps k.
Proof.
  unfold factors; intros H.
  destruct caps; simpl in H.
  - unfold fdiv at 1 2 in H.
    destruct (Req_dec_T (depth p) 0); simpl in H; [discriminate|].
    destruct (Rltb (radius_btm p) (depth p)) eqn:Eb,
             (Rltb (radius_top p) (depth p)) eqn:Et,
             (Rgeb (radius_btm p) (depth p)) eqn:Gb,
             (Rgeb (radius_top p) (depth p)) eqn:Gt; simpl in H;
      unfold fdiv in H;
      repeat match type of H with
             | context [Req_dec_T ?a ?b] =>
                 destruct (Req_dec_T a b); simpl in H; try discriminate
             end;
      inversion H; subst; clear H; constructor; simpl;
      rewrite ?Eb, ?Et, ?Gb, ?Gt; reflexivity.
  - destruct (Rltb (radius_btm p) (depth p)) eqn:Eb,
             (Rltb (radius_top p) (depth p)) eqn:Et,
             (Rgeb (radius_btm p) (depth p)) eqn:Gb,
             (Rgeb (radius_top p) (depth p)) eqn:Gt; simpl in H;
      unfold fdiv in H;
      repeat match type of H with
             | context [Req_dec_T ?a ?b] =>
                 destruct (Req_dec_T a b); simpl in H; try discriminate
             end;
      inversion H; subst; clear H; constructor; simpl;
      rewrite ?Eb, ?Et, ?Gb, ?Gt; reflexivity.
Qed.

(** No division fails without caps, nor with caps when the depth and the
    radii are not zero. *)
Lemma factors_ok p caps :
  (caps = true ->
   depth p <> 0%R /\ radius_btm p <> 0%R /\ radius_top p <> 0%R) ->
  exists k, factors p caps = Ok k.
Proof.
  intros H; unfold factors; destruct caps; simpl.
  - destruct (H eq_refl) as (Hd & Hb & Ht).
    rewrite !fdiv_ok by assumption; simpl.
    destruct (Rltb (radius_btm p) (depth p)), (Rltb (radius_top p) (depth p)),
             (Rgeb (radius_btm p) (depth p)), (Rgeb (radius_top p) (depth p));
      simpl; rewrite ?fdiv_ok by (apply div_nonzero; assumption); simpl; eauto.
  - destruct (Rltb (radius_btm p) (depth p)), (Rltb (radius_top p) (depth p)),
             (Rgeb (radius_btm p) (depth p)), (Rgeb (radius_top p) (depth p));
      simpl; rewrite ?fdiv_ok by lra; simpl; eauto.
Qed.

Lemma sectors_to_theta_ok p :
  sectors p <> 0 -> sectors_to_theta p = Ok (2 * PI / IZR (sectors p))%R.
Proof.
  intros H; unfold sectors_to_theta; apply fdiv_ok.
  intros E; apply H; now apply eq_IZR_R0.
Qed.

(** ** Every assignment is inside its list *)

#[local] Arguments Z.add : simpl never.
#[local] Arguments Z.sub : simpl never.
#[local] Arguments Z.mul : simpl never.
#[local] Arguments Z.div : simpl never.
#[local] Arguments Z.modulo : simpl never.
#[local] Arguments Z.opp : simpl never.

Ltac bounds :=
  repeat first
    [ apply Forall_nil
    | apply Forall_cons
    | apply Forall_app; split
    | apply Forall_for_range; intros ];
  unfold inbounds, ring; simpl; first [lia | Z.div_mod_to_equations; lia].

Lemma vs_stores_inbounds p f el k step :
  0 <= sectors p -> use_caps f || cap_is_none f = true ->
  Forall (inbounds (len_vs (v_plan (sectors p) f el)))
         (vs_stores p f el k step (v_plan (sectors p) f el)).
Proof.
  intros Hs Hc.
  unfold vs_stores, vs_spokes, vs_edges, vs_side_loops, vs_cap_loops, v_plan.
  destruct (use_center_spoke f), (use_caps f), (cap_is_none f), el;
    simpl in *; try discriminate; bounds.
Qed.

Lemma ngon_arrays_ok s bf tf :
  0 <= s -> exists b t, ngon_arrays s bf tf = Ok (b, t).
Proof.
  intros Hs; unfold ngon_arrays.
  destruct (store_all_ok
              (for_range s (fun i => [(i, bf + s - 1 - (i - 1) mod s)]))
              (pyrepeat 0 s)) as [b Eb].
  { rewrite len_pyrepeat by assumption; bounds. }
  destruct (store_all_ok (for_range s (fun i => [(i, tf + i)]))
                         (pyrepeat 0 s)) as [t Et].
  { rewrite len_pyrepeat by assumption; bounds. }
  rewrite Eb; simpl; rewrite Et; simpl; eauto.
Qed.

Lemma fan_stores_inbounds s f el bs bf ts tf :
  0 <= s -> flags_shape f ->
  exists ws, fan_stores s f (l_plan s f el) bs bf ts tf = Ok ws
             /\ Forall (inbounds (len_loop_idcs (l_plan s f el))) ws.
Proof.
  intros Hs Hf; unfold fan_stores.
  destruct Hf; simpl.
  - eexists; split; [reflexivity|constructor].
  - destruct (ngon_arrays_ok s bf tf Hs) as (b & t & E); rewrite E; simpl.
    eexists; split; [reflexivity|].
    unfold l_plan; destruct el; simpl; bounds.
  - eexists; split; [reflexivity|].
    unfold l_plan; destruct el; simpl; bounds.
  - eexists; split; [reflexivity|].
    unfold l_plan; destruct el; simpl; bounds.
Qed.

Lemma cap_band_stores_inbounds s f a b c d e g :
  0 <= s -> use_caps f = true ->
  Forall (inbounds (len_loop_idcs (l_plan s f true)))
         (cap_band_stores s (l_plan s f true) a b c d e g).
Proof.
  intros Hs Hc; unfold cap_band_stores, l_plan; rewrite Hc.
  destruct (cap_is_ngon f), (cap_is_quad f), (cap_is_tri f); simpl; bounds.
Qed.

Lemma side_stores_inbounds s f el vp :
  0 <= s -> flags_shape f ->
  Forall (inbounds (len_loop_idcs (l_plan s f el)))
         (side_stores s el (l_plan s f el) vp).
Proof.
  intros Hs Hf; unfold side_stores, l_plan.
  destruct Hf, el; simpl; bounds.
Qed.

Lemma vt_side_stores_inbounds s f el tp :
  0 <= s -> flags_shape f ->
  Forall (inbounds (len_loop_idcs (l_plan s f el)))
         (vt_side_stores s el (l_plan s f el) tp).
Proof.
  intros Hs Hf; unfold vt_side_stores, l_plan.
  destruct Hf, el; simpl; bounds.
Qed.

Lemma vts_stores_inbounds p f el k step stu :
  0 <= sectors p ->
  Forall (inbounds (len_vts (vt_plan (sectors p) f el)))
         (vts_stores p f el k step stu (vt_plan (sectors p) f el)).
Proof.
  intros Hs.
  unfold vts_stores, vts_strips, vts_side_loops, vts_spokes, vts_edges,
    vts_cap_loops, vt_plan.
  destruct (use_center_spoke f), (use_caps f), el; simpl; bounds.
Qed.

(** ** The stages run to completion *)

Lemma len_vs_nonneg s f el : 0 <= s -> 0 <= len_vs (v_plan s f el).
Proof.
  intros Hs; unfold v_plan.
  destruct (use_center_spoke f), (use_caps f), (cap_is_none f), el;
    simpl; lia.
Qed.

Lemma len_loop_idcs_nonneg s f el :
  0 <= s -> 0 <= len_loop_idcs (l_plan s f el).
Proof.
  intros Hs; unfold l_plan.
  destruct (use_caps f), (cap_is_ngon f), (cap_is_quad f), (cap_is_tri f), el;
    simpl; first [lia | Z.div_mod_to_equations; lia].
Qed.

Lemma len_vts_nonneg s f el : 0 <= s -> 0 <= len_vts (vt_plan s f el).
Proof.
  intros Hs; unfold vt_plan.
  destruct (use_center_spoke f), (use_caps f), el; simpl; lia.
Qed.

Lemma positions_ok p f el k step :
  0 <= sectors p -> use_caps f || cap_is_none f = true ->
  exists vs, positions p f el k step (v_plan (sectors p) f el) = Ok vs.
Proof.
  intros Hs Hc; apply store_all_ok.
  rewrite len_pyrepeat by now apply len_vs_nonneg.
  now apply vs_stores_inbounds.
Qed.

Lemma positions_len p f el k step vs :
  0 <= sectors p ->
  positions p f el k step (v_plan (sectors p) f el) = Ok vs ->
  len vs = len_vs (v_plan (sectors p) f el).
Proof.
  intros Hs E; apply store_all_len in E; rewrite E.
  apply len_pyrepeat; now apply len_vs_nonneg.
Qed.

Lemma v_idcs_stores_inbounds s f el :
  0 <= s -> flags_shape f ->
  exists ws,
    v_idcs_stores s f el (l_plan s f el) (v_plan s f el) = Ok ws
    /\ Forall (inbounds (len_loop_idcs (l_plan s f el))) ws.
Proof.
  intros Hs Hf; unfold v_idcs_stores.
  destruct (fan_stores_inbounds s f el
              (v_idx_btm_spoke (v_plan s f el)) (v_idx_btm_fan (v_plan s f el))
              (v_idx_top_spoke (v_plan s f el)) (v_idx_top_fan (v_plan s f el))
              Hs Hf) as (fan & E & Hfan).
  rewrite E; cbn [bind]; eexists; split; [reflexivity|].
  apply Forall_app; split; auto.
  apply Forall_app; split; [|now apply side_stores_inbounds].
  destruct el; cbn [andb]; [|constructor].
  destruct (use_caps f) eqn:Hc; [|constructor].
  now apply cap_band_stores_inbounds.
Qed.

Lemma vt_idcs_stores_inbounds s f el :
  0 <= s -> flags_shape f ->
  exists ws,
    vt_idcs_stores s f el (l_plan s f el) (vt_plan s f el) = Ok ws
    /\ Forall (inbounds (len_loop_idcs (l_plan s f el))) ws.
Proof.
  intros Hs Hf; unfold vt_idcs_stores.
  destruct (fan_stores_inbounds s f el
              (vt_idx_btm_spoke (vt_plan s f el))
              (vt_idx_btm_fan (vt_plan s f el))
              (vt_idx_top_spoke (vt_plan s f el))
              (vt_idx_top_fan (vt_plan s f el))
              Hs Hf) as (fan & E & Hfan).
  rewrite E; cbn [bind]; eexists; split; [reflexivity|].
  apply Forall_app; split; auto.
  apply Forall_app; split; [|now apply vt_side_stores_inbounds].
  destruct el; cbn [andb]; [|constructor].
  destruct (use_caps f) eqn:Hc; [|constructor].
  now apply cap_band_stores_inbounds.
Qed.

Lemma faces_ok s f el :
  0 <= s -> flags_shape f -> exists fs, faces s f el = Ok fs.
Proof.
  intros Hs Hf; unfold faces.
  destruct (v_idcs_stores_inbounds s f el Hs Hf) as (ws & E & Hws).
  rewrite E; simpl; apply store_all_ok.
  rewrite len_pyrepeat by now apply len_loop_idcs_nonneg.
  assumption.
Qed.

Lemma faces_len s f el fs :
  0 <= s -> faces s f el = Ok fs -> len fs = len_loop_idcs (l_plan s f el).
Proof.
  intros Hs; unfold faces.
  destruct (v_idcs_stores _ _ _ _ _) as [ws|]; simpl; [|discriminate].
  intros E; apply store_all_len in E; rewrite E.
  apply len_pyrepeat; now apply len_loop_idcs_nonneg.
Qed.

Lemma texcoords_ok p f el k step :
  1 <= sectors p -> flags_shape f -> exists uv, texcoords p f el k step = Ok uv.
Proof.
  intros Hs Hf; unfold texcoords.
  rewrite fdiv_ok by (intros E; apply eq_IZR_R0 in E; lia); cbn [bind].
  destruct (store_all_ok
              (vts_stores p f el k step (1 / IZR (sectors p))
                          (vt_plan (sectors p) f el))
              (pyrepeat (0%R, 0%R) (len_vts (vt_plan (sectors p) f el))))
    as [vts E].
  { rewrite len_pyrepeat by (apply len_vts_nonneg; lia).
    apply vts_stores_inbounds; lia. }
  rewrite E; cbn [bind].
  destruct (vt_idcs_stores_inbounds (sectors p) f el) as (ws & Ews & Hws);
    [lia|assumption|].
  rewrite Ews; cbn [bind].
  destruct (store_all_ok ws
              (pyrepeat [0; 0; 0; 0]
                        (len_loop_idcs (l_plan (sectors p) f el)))) as [vi Ei].
  { rewrite len_pyrepeat by (apply len_loop_idcs_nonneg; lia); assumption. }
  rewrite Ei; cbn [bind]; eauto.
Qed.

(** The stages of a run of [execute] that returns a mesh. *)
Lemma execute_inv p m :
  execute p = Ok m ->
  let f := cap_flags (sectors p) (cap_face_type p) in
  let el := use_edge_loops (edge_loop_fac p) in
  exists k step,
    factors p (use_caps f) = Ok k
    /\ sectors_to_theta p = Ok step
    /\ positions p f el k step (v_plan (sectors p) f el) = Ok (vs m)
    /\ faces (sectors p) f el = Ok (v_idcs m)
    /\ (if calc_uvs p
        then exists uv, texcoords p f el k step = Ok uv /\ uvs m = Some uv
        else uvs m = None).
Proof.
  intros H; cbv zeta; unfold execute in H.
  set (f := cap_flags (sectors p) (cap_face_type p)) in *.
  set (el := use_edge_loops (edge_loop_fac p)) in *.
  destruct (factors p (use_caps f)) as [k|] eqn:Ek; simpl in H; [|discriminate].
  destruct (sectors_to_theta p) as [step|] eqn:Es; simpl in H; [|discriminate].
  destruct (positions p f el k step _) as [v|] eqn:Ev; simpl in H;
    [|discriminate].
  destruct (faces (sectors p) f el) as [fs|] eqn:Ef; simpl in H;
    [|discriminate].
  exists k, step; destruct (calc_uvs p).
  - destruct (texcoords p f el k step) as [uv|] eqn:Eu; simpl in H;
      [|discriminate].
    inversion H; subst; simpl; eauto 10.
  - simpl in H; inversion H; subst; simpl; auto.
Qed.

(** [execute] returns a mesh whenever no divisor is zero and the flags do
    not clash. *)
Lemma execute_ok p :
  let f := cap_flags (sectors p) (cap_face_type p) in
  1 <= sectors p ->
  tri_ngon_clash f = false ->
  (use_caps f = true ->
   depth p <> 0%R /\ radius_btm p <> 0%R /\ radius_top p <> 0%R) ->
  exists m, execute p = Ok m.
Proof.
  intros f Hs Hc Hd; unfold execute.
  change (cap_flags (sectors p) (cap_face_type p)) with f.
  set (el := use_edge_loops (edge_loop_fac p)).
  destruct (factors_ok p (use_caps f) Hd) as [k Ek]; rewrite Ek; cbn [bind].
  rewrite sectors_to_theta_ok by lia; cbn [bind].
  destruct (positions_ok p f el k (2 * PI / IZR (sectors p))) as [v Ev];
    [lia|apply cap_flags_caps_or_none|].
  rewrite Ev; cbn [bind].
  pose proof (cap_flags_shape _ _ Hc) as Hf; fold f in Hf.
  destruct (faces_ok (sectors p) f el) as [fs Ef]; [lia|assumption|].
  rewrite Ef; cbn [bind].
  destruct (calc_uvs p); cbn [bind]; eauto.
  destruct (texcoords_ok p f el k (2 * PI / IZR (sectors p)) Hs Hf) as [uv Eu].
  rewrite Eu; cbn [bind]; eauto.
Qed.

Lemma valid_execute_ok p :
  valid p ->
  tri_ngon_clash (cap_flags (sectors p) (cap_face_type p)) = false ->
  exists m, execute p = Ok m.
Proof.
  intros [Hs Hb Ht Hd _ _] Hc; apply execute_ok; auto; try lia.
  intros _; repeat split; lra.
Qed.

(** ** What the position buffer holds *)

Ltac split_in :=
  repeat match goal with
    | H : In _ (_ ++ _) |- _ => apply in_app_or in H; destruct H as [H|H]
    | H : In _ (for_range _ _) |- _ =>
        let j := fresh "j" in
        let Hj := fresh "Hj" in
        apply in_for_range in H; destruct H as (j & Hj & H)
    | H : In _ (_ :: _) |- _ => destruct H as [H|H]
    | H : In _ [] |- _ => destruct H
    | H : _ \/ _ |- _ => destruct H as [H|H]
    | H : False |- _ => destruct H
    end.

Ltac zlia := first [lia | Z.div_mod_to_equations; lia].

Ltac same_store H :=
  unfold ring in H;
  let Hi := fresh "Hi" in
  let Hv := fresh "Hv" in
  injection H as Hi Hv;
  first [ exfalso; zlia
        | match type of Hi with
          | _ + ?j = _ + ?i =>
              assert (j = i) by zlia; subst; reflexivity
          end ].

Ltac find_store i :=
  lazymatch goal with
  | |- _ \/ _ => first [left; reflexivity | right; find_store i]
  | |- _ = _ => reflexivity
  | |- In _ (_ ++ _) =>
      apply in_or_app; first [left; find_store i | right; find_store i]
  | |- In _ (for_range _ _) =>
      apply in_for_range; exists i; split;
      [ zlia | unfold ring; simpl; find_store i ]
  | |- In _ (_ :: _) => simpl; find_store i
  end.

Lemma positions_get p f el k step vs i v :
  0 <= sectors p -> use_caps f || cap_is_none f = true ->
  positions p f el k step (v_plan (sectors p) f el) = Ok vs ->
  In (i, v) (vs_stores p f el k step (v_plan (sectors p) f el)) ->
  (forall v', In (i, v') (vs_stores p f el k step (v_plan (sectors p) f el)) ->
              v' = v) ->
  getitem vs i = Some v.
Proof.
  intros Hs Hc E Hin Hu; unfold positions in E.
  apply (store_all_getitem _ _ _ _ _ E); auto.
  rewrite len_pyrepeat by now apply len_vs_nonneg.
  now apply vs_stores_inbounds.
Qed.

Ltac vs_cases f el Hc :=
  revert Hc;
  unfold vs_stores, vs_spokes, vs_edges, vs_side_loops, vs_cap_loops, v_plan;
  destruct (use_center_spoke f), (use_caps f), (cap_is_none f);
  try (is_var el; destruct el);
  intros Hc; simpl in Hc; try discriminate Hc.

Ltac ring_get f el Hs Hc E i :=
  apply (positions_get _ _ _ _ _ _ _ _ Hs Hc E);
  [ vs_cases f el Hc; try discriminate; simpl; find_store i
  | let v' := fresh "v'" in
    let Hin := fresh "Hin" in
    intros v' Hin; revert Hin; vs_cases f el Hc; try discriminate;
    simpl; intros Hin; split_in; same_store Hin ].

Lemma vs_edge_rings p f el k step vs i :
  0 <= sectors p -> use_caps f || cap_is_none f = true ->
  positions p f el k step (v_plan (sectors p) f el) = Ok vs ->
  0 <= i < sectors p ->
  getitem vs (v_idx_btm_edge (v_plan (sectors p) f el) + i)
  = Some (ring_point p step i (radius_btm p) (vz_btm p))
  /\ getitem vs (v_idx_top_edge (v_plan (sectors p) f el) + i)
     = Some (ring_point p step i (radius_top p) (vz_top p)).
Proof.
  intros Hs Hc E Hi; split; ring_get f el Hs Hc E i.
Qed.

Lemma vs_side_rings p f k step vs i :
  0 <= sectors p -> use_caps f || cap_is_none f = true ->
  positions p f true k step (v_plan (sectors p) f true) = Ok vs ->
  0 <= i < sectors p ->
  getitem vs (v_idx_side_lwr_ctrl (v_plan (sectors p) f true) + i)
  = Some (ring_point p step i (radius_side_lwr_ctrl p k) (side_lwr_ctrl_z p k))
  /\ getitem vs (v_idx_mid (v_plan (sectors p) f true) + i)
     = Some (ring_point p step i (radius_mid p) (vz_mid p))
  /\ getitem vs (v_idx_side_upp_ctrl (v_plan (sectors p) f true) + i)
     = Some (ring_point p step i (radius_side_upp_ctrl p k)
                        (side_upp_ctrl_z p k)).
Proof.
  intros Hs Hc E Hi; repeat split; ring_get f true Hs Hc E i.
Qed.

Lemma vs_cap_rings p f k step vs i :
  0 <= sectors p -> use_caps f = true ->
  positions p f true k step (v_plan (sectors p) f true) = Ok vs ->
  0 <= i < sectors p ->
  getitem vs (v_idx_btm_fan (v_plan (sectors p) f true) + i)
  = Some (ring_point p step i (radius_fan_btm p) (vz_btm p))
  /\ getitem vs (v_idx_btm_ctrl (v_plan (sectors p) f true) + i)
     = Some (ring_point p step i (radius_cap_lwr_ctrl p k) (vz_btm p))
  /\ getitem vs (v_idx_top_ctrl (v_plan (sectors p) f true) + i)
     = Some (ring_point p step i (radius_cap_upp_ctrl p k) (vz_top p))
  /\ getitem vs (v_idx_top_fan (v_plan (sectors p) f true) + i)
     = Some (ring_point p step i (radius_fan_top p) (vz_top p)).
Proof.
  intros Hs Hcaps E Hi.
  assert (Hc : use_caps f || cap_is_none f = true) by now rewrite Hcaps.
  repeat split; ring_get f true Hs Hc E i.
Qed.

(** ** What the face buffer holds without caps *)

Lemma faces_none_get s el fs i v :
  0 <= s -> faces s no_caps el = Ok fs ->
  In (i, v) (side_stores s el (l_plan s no_caps el) (v_plan s no_caps el)) ->
  (forall v',
      In (i, v') (side_stores s el (l_plan s no_caps el) (v_plan s no_caps el))
      -> v' = v) ->
  getitem fs i = Some v.
Proof.
  intros Hs E Hin Hu; unfold faces, v_idcs_stores in E.
  replace (el && use_caps no_caps) with false in E by now destruct el.
  cbn [fan_stores no_caps cap_is_tri cap_is_quad cap_is_ngon bind app] in E.
  apply (store_all_getitem _ _ _ _ _ E); auto.
  rewrite len_pyrepeat by now apply len_loop_idcs_nonneg.
  apply side_stores_inbounds; auto; constructor.
Qed.

Ltac side_get Hs E i :=
  apply (faces_none_get _ _ _ _ _ Hs E);
  [ unfold side_stores, l_plan, v_plan, side_quad; simpl; find_store i
  | let v' := fresh "v'" in
    let Hin := fresh "Hin" in
    intros v' Hin; revert Hin;
    unfold side_stores, l_plan, v_plan, side_quad; simpl;
    intros Hin; split_in; same_store Hin ].

Lemma faces_none_plain s fs i :
  0 <= s -> faces s no_caps false = Ok fs -> 0 <= i < s ->
  getitem fs i = Some (side_quad s 0 s i).
Proof.
  intros Hs E Hi.
  replace i with (0 + i) at 1 by lia.
  replace (side_quad s 0 s i) with (side_quad s 0 (0 + s) i)
    by (f_equal; lia).
  side_get Hs E i.
Qed.

Lemma faces_none_loops s fs i :
  0 <= s -> faces s no_caps true = Ok fs -> 0 <= i < s ->
  getitem fs (0 + i) = Some (side_quad s 0 (0 + s) i)
  /\ getitem fs (0 + s + i) = Some (side_quad s (0 + s) (0 + s + s) i)
  /\ getitem fs (0 + s + s + i)
     = Some (side_quad s (0 + s + s) (0 + s + s + s) i)
  /\ getitem fs (0 + s + s + s + i)
     = Some (side_quad s (0 + s + s + s) (0 + s + s + s + s) i).
Proof.
  intros Hs E Hi; repeat split; side_get Hs E i.
Qed.

(** ** What the texture-coordinate buffer holds *)

Lemma texcoords_inv p f el k step uv :
  texcoords p f el k step = Ok uv ->
  sectors p <> 0
  /\ store_all (vts_stores p f el k step (1 / IZR (sectors p))
                           (vt_plan (sectors p) f el))
               (pyrepeat (0%R, 0%R) (len_vts (vt_plan (sectors p) f el)))
     = Ok (vts uv).
Proof.
  unfold texcoords, fdiv; intros H.
  destruct (Req_dec_T (IZR (sectors p)) 0) as [E0|E0]; simpl in H;
    [discriminate|].
  split; [intros E; apply E0; now rewrite E|].
  destruct (store_all (vts_stores _ _ _ _ _ _ _) _) as [v|]; simpl in H;
    [|discriminate].
  destruct (vt_idcs_stores _ _ _ _ _) as [ws|]; simpl in H; [|discriminate].
  destruct (store_all ws _) as [vi|]; simpl in H; [|discriminate].
  now inversion H.
Qed.

Lemma vts_get p f el k step uv i v :
  0 <= sectors p ->
  texcoords p f el k step = Ok uv ->
  In (i, v) (vts_stores p f el k step (1 / IZR (sectors p))
                        (vt_plan (sectors p) f el)) ->
  (forall v', In (i, v') (vts_stores p f el k step (1 / IZR (sectors p))
                                     (vt_plan (sectors p) f el)) -> v' = v) ->
  getitem (vts uv) i = Some v.
Proof.
  intros Hs E Hin Hu; apply texcoords_inv in E; destruct E as (_ & E).
  apply (store_all_getitem _ _ _ _ _ E); auto.
  rewrite len_pyrepeat by now apply len_vts_nonneg.
  now apply vts_stores_inbounds.
Qed.

Ltac vts_cases f el :=
  unfold vts_stores, vts_strips, vts_side_loops, vts_spokes, vts_edges,
    vts_cap_loops, vt_plan;
  try match goal with H : use_caps f = true |- _ => rewrite !H end;
  destruct (use_center_spoke f), (use_caps f);
  try (is_var el; destruct el).

Ltac vts_ring_get f el Hs E i :=
  apply (vts_get _ _ _ _ _ _ _ _ Hs E);
  [ vts_cases f el; try discriminate; simpl; find_store i
  | let v' := fresh "v'" in
    let Hin := fresh "Hin" in
    intros v' Hin; revert Hin; vts_cases f el; try discriminate;
    simpl; intros Hin; split_in; same_store Hin ].

Lemma vts_strip_rows p f el k step uv j :
  0 <= sectors p -> texcoords p f el k step = Ok uv ->
  0 <= j < sectors p + 1 ->
  getitem (vts uv) (vt_idx_btm_strip (vt_plan (sectors p) f el) + j)
  = Some ((IZR j * (1 / IZR (sectors p)))%R, vts_min_y f)
  /\ getitem (vts uv) (vt_idx_top_strip (vt_plan (sectors p) f el) + j)
     = Some ((IZR j * (1 / IZR (sectors p)))%R, vts_max_y).
Proof.
  intros Hs E Hj; split; vts_ring_get f el Hs E j.
Qed.

Lemma vts_edge_rings p f el k step uv i :
  0 <= sectors p -> texcoords p f el k step = Ok uv ->
  use_caps f = true -> 0 <= i < sectors p ->
  getitem (vts uv) (vt_idx_btm_edge (vt_plan (sectors p) f el) + i)
  = Some ((vt_btm_center_x + fst (cartesian p step i) * vts_rad)%R,
          (vt_btm_center_y + snd (cartesian p step i) * vts_rad)%R)
  /\ getitem (vts uv) (vt_idx_top_edge (vt_plan (sectors p) f el) + i)
     = Some ((vt_top_center_x + fst (cartesian p step i) * vts_rad)%R,
             (vt_top_center_y + snd (cartesian p step i) * vts_rad)%R).
Proof.
  intros Hs E Hc Hi; split; vts_ring_get f el Hs E i.
Qed.

Lemma vts_loop_rows p f k step uv j :
  0 <= sectors p -> texcoords p f true k step = Ok uv ->
  0 <= j < sectors p + 1 ->
  getitem (vts uv) (vt_idx_side_lwr_ctrl (vt_plan (sectors p) f true) + j)
  = Some ((IZR j * (1 / IZR (sectors p)))%R, vt_side_lwr_ctrl_y f k)
  /\ getitem (vts uv) (vt_idx_mid_strip (vt_plan (sectors p) f true) + j)
     = Some ((IZR j * (1 / IZR (sectors p)))%R, vts_mid_y f)
  /\ getitem (vts uv) (vt_idx_side_upp_ctrl (vt_plan (sectors p) f true) + j)
     = Some ((IZR j * (1 / IZR (sectors p)))%R, vt_side_upp_ctrl_y f k).
Proof.
  intros Hs E Hj; repeat split; vts_ring_get f true Hs E j.
Qed.

(** ** Face indices are positions *)

Lemma Forall_pyrepeat {A : Type} (P : A -> Prop) (x : A) n :
  P x -> Forall P (pyrepeat x n).
Proof.
  intros H; apply Forall_forall; intros y Hy.
  apply repeat_spec in Hy; now subst.
Qed.

Ltac values_ok :=
  repeat first
    [ apply Forall_nil
    | apply Forall_cons
    | apply Forall_app; split
    | apply Forall_for_range; intros ];
  simpl; zlia.

Lemma ngon_arrays_range s bf tf lo hi b t :
  1 <= s -> lo <= 0 < hi ->
  lo <= bf -> bf + s <= hi -> lo <= tf -> tf + s <= hi ->
  ngon_arrays s bf tf = Ok (b, t) ->
  Forall (fun x => lo <= x < hi) b /\ Forall (fun x => lo <= x < hi) t.
Proof.
  intros Hs H0 Hb1 Hb2 Ht1 Ht2; unfold ngon_arrays.
  destruct (store_all (for_range s (fun i => [(i, bf + s - 1 - (i - 1) mod s)]))
                      (pyrepeat 0 s)) as [b'|] eqn:Eb; simpl; [|discriminate].
  destruct (store_all (for_range s (fun i => [(i, tf + i)])) (pyrepeat 0 s))
    as [t'|] eqn:Et; simpl; [|discriminate].
  intros [= <- <-]; split.
  - eapply (store_all_Forall (fun x => lo <= x < hi)); [| |exact Eb];
      [now apply Forall_pyrepeat|values_ok].
  - eapply (store_all_Forall (fun x => lo <= x < hi)); [| |exact Et];
      [now apply Forall_pyrepeat|values_ok].
Qed.

Ltac faces_values s f el E :=
  eapply (store_all_Forall
            (Forall (fun x => 0 <= x < len_vs (v_plan s f el))));
  [ | | exact E ];
  [ apply Forall_pyrepeat; unfold v_plan; destruct el; simpl; values_ok
  | unfold cap_band_stores, side_stores, v_plan; destruct el; simpl;
    values_ok ].

(** Outside the clash of [cap_is_tri] with [cap_is_ngon], every index of
    every face of the buffer is the index of a position. *)
Lemma faces_indices_in_range s f el fs :
  1 <= s -> flags_shape f -> faces s f el = Ok fs ->
  Forall (Forall (fun x => 0 <= x < len_vs (v_plan s f el))) fs.
Proof.
  intros Hs Hf; unfold faces, v_idcs_stores, fan_stores.
  destruct Hf; cbn [cap_is_tri cap_is_quad cap_is_ngon bind].
  - intros E; faces_values s (mkFlags true false false false) el E.
  - set (f := mkFlags false true false false).
    destruct (ngon_arrays s _ _) as [[b t]|] eqn:En; cbn [bind];
      [|discriminate].
    apply (ngon_arrays_range s _ _ 0 (len_vs (v_plan s f el))) in En;
      try (unfold v_plan; destruct el; simpl; lia).
    destruct En as (Hb & Ht); intros E.
    eapply (store_all_Forall
              (Forall (fun x => 0 <= x < len_vs (v_plan s f el))));
      [ | | exact E ].
    + apply Forall_pyrepeat; unfold v_plan; destruct el; simpl; values_ok.
    + cbn [fst snd app]; apply Forall_cons; [assumption|].
      apply Forall_cons; [assumption|].
      unfold cap_band_stores, side_stores, v_plan; destruct el; simpl;
        values_ok.
  - intros E; faces_values s (mkFlags false false true false) el E.
  - intros E; faces_values s (mkFlags false false false true) el E.
Qed.

Lemma execute_indices_in_range p m :
  1 <= sectors p ->
  tri_ngon_clash (cap_flags (sectors p) (cap_face_type p)) = false ->
  execute p = Ok m ->
  Forall (Forall (fun x => 0 <= x < len (vs m))) (v_idcs m).
Proof.
  intros Hs Hc E.
  destruct (execute_inv _ _ E) as (k & step & _ & _ & Ev & Ef & _).
  apply positions_len in Ev; [|lia]; rewrite Ev.
  apply faces_indices_in_range; auto.
  now apply cap_flags_shape.
Qed.

(** * The claims *)

(** ** C10: rim rings shared between caps and sides *)

(** C10.  With caps and without edge loops, the fan offset of each cap is
    the offset of its edge ring, in the vertex plan and in the
    texture-coordinate plan alike; the position buffer then holds the two
    rim rings once each, plus the two spokes when the cap has a spoke. *)
Theorem C10_fan_is_edge_without_loops (s : Z) (c : CapFaceType) :
  c <> NONE ->
  let f := cap_flags s c in
  let vp := v_plan s f false in
  let tp := vt_plan s f false in
  use_caps f = true
  /\ v_idx_btm_fan vp = v_idx_btm_edge vp
  /\ v_idx_top_fan vp = v_idx_top_edge vp
  /\ vt_idx_btm_fan tp = vt_idx_btm_edge tp
  /\ vt_idx_top_fan tp = vt_idx_top_edge tp
  /\ v_idx_top_edge vp = v_idx_btm_edge vp + s
  /\ len_vs vp = 2 * s + (if use_center_spoke f then 2 else 0).
Proof.
  intros Hc f vp tp.
  assert (Hcaps : use_caps f = true).
  { subst f; unfold cap_flags, use_caps.
    destruct c, (s <? 5), (s mod 2 =? 0), (s <? 4); simpl; congruence. }
  pose proof (cap_flags_caps_or_none s c) as Hn; fold f in Hn.
  split; [assumption|].
  subst vp tp; unfold v_plan, vt_plan; rewrite Hcaps.
  destruct (use_center_spoke f); simpl; repeat split; lia.
Qed.

Lemma C10_witness :
  let f := cap_flags 8 QUAD in
  v_idx_btm_fan (v_plan 8 f false) = v_idx_btm_edge (v_plan 8 f false)
  /\ vt_idx_top_fan (vt_plan 8 f false) = vt_idx_top_edge (vt_plan 8 f false).
Proof.
  assert (H : QUAD <> NONE) by discriminate.
  pose proof (C10_fan_is_edge_without_loops 8 QUAD H) as T.
  cbv zeta in *; tauto.
Defined.

(** ** C5: the eight-sector quad-capped tube *)

Lemma p_round_trip_valid : valid p_round_trip.
Proof. constructor; simpl; try lia; lra. Qed.

(** C5.  For sectors = 8, both radii 0.5, depth 1.5, offset 0, QUAD caps,
    edge-loop factor 0 and no texture coordinates, [execute] returns 18
    positions (the bottom spoke at 0, the bottom ring from 1, the top ring
    from 9, the top spoke at 17) and 16 faces: 4 bottom-cap quads around
    spoke 0, 8 side quads, 4 top-cap quads around spoke 17. *)
Theorem C5_round_trip :
  exists m,
    execute p_round_trip = Ok m
    /\ v_plan 8 (cap_flags 8 QUAD) false
       = mkVPlan 0 1 1 1 9 9 9 9 9 9 17 18
    /\ len (vs m) = 18
    /\ len (v_idcs m) = 16
    /\ v_idcs m =
         [[0; 3; 2; 1]; [0; 5; 4; 3]; [0; 7; 6; 5]; [0; 1; 8; 7]]
         ++ [[1; 2; 10; 9]; [2; 3; 11; 10]; [3; 4; 12; 11]; [4; 5; 13; 12];
             [5; 6; 14; 13]; [6; 7; 15; 14]; [7; 8; 16; 15]; [8; 1; 9; 16]]
         ++ [[17; 9; 10; 11]; [17; 11; 12; 13]; [17; 13; 14; 15];
             [17; 15; 16; 9]]
    /\ uvs m = None.
Proof.
  destruct (valid_execute_ok p_round_trip p_round_trip_valid eq_refl)
    as [m E].
  exists m; split; [assumption|].
  destruct (execute_inv _ _ E) as (k & step & _ & _ & Ev & Ef & Hu).
  assert (Hel : use_edge_loops (edge_loop_fac p_round_trip) = false)
    by (apply use_edge_loops_false; simpl; lra).
  rewrite Hel in Ev, Ef.
  apply positions_len in Ev; [|simpl; lia].
  change (faces 8 (cap_flags 8 QUAD) false = Ok (v_idcs m)) in Ef.
  remember (v_idcs m) as fs eqn:Efs; vm_compute in Ef.
  injection Ef as <-.
  repeat split; auto.
Qed.

(** ** C6: faces without caps *)

Lemma In_getitem {A : Type} (x : A) (l : list A) :
  In x l -> exists i, 0 <= i < len l /\ getitem l i = Some x.
Proof.
  intros H; apply In_nth_error in H; destruct H as [n H].
  exists (Z.of_nat n); split.
  - assert (Hn : nth_error l n <> None) by congruence.
    apply nth_error_Some in Hn; unfold len; lia.
  - unfold getitem; replace (0 <=? Z.of_nat n) with true
      by (symmetry; apply Z.leb_le; lia).
    now rewrite Nat2Z.id.
Qed.

(** C6.  With capStyle NONE the face buffer holds side quads only:
    [sectors] of them, from the bottom ring to the top ring, when the
    edge-loop factor is 0 or at least 1, and [4 * sectors] of them, in
    four strips over five rings, when the factor lies strictly between 0
    and 1. *)
Theorem C6_capless_face_count (p : TubeParams) :
  3 <= sectors p -> cap_face_type p = NONE ->
  let s := sectors p in
  exists m,
    execute p = Ok m
    /\ ((edge_loop_fac p = 0 \/ 1 <= edge_loop_fac p)%R ->
        len (v_idcs m) = s
        /\ (forall i, 0 <= i < s ->
                      getitem (v_idcs m) i = Some (side_quad s 0 s i))
        /\ (forall fc, In fc (v_idcs m) ->
                       exists i, 0 <= i < s /\ fc = side_quad s 0 s i))
    /\ ((0 < edge_loop_fac p < 1)%R ->
        len (v_idcs m) = 4 * s
        /\ (forall i, 0 <= i < s ->
              getitem (v_idcs m) i = Some (side_quad s 0 s i)
              /\ getitem (v_idcs m) (s + i)
                 = Some (side_quad s s (2 * s) i)
              /\ getitem (v_idcs m) (2 * s + i)
                 = Some (side_quad s (2 * s) (3 * s) i)
              /\ getitem (v_idcs m) (3 * s + i)
                 = Some (side_quad s (3 * s) (4 * s) i))
        /\ (forall fc, In fc (v_idcs m) ->
              exists q i, 0 <= q < 4 /\ 0 <= i < s
                          /\ fc = side_quad s (q * s) ((q + 1) * s) i)).
Proof.
  intros Hs Hcap s.
  assert (Hf : cap_flags (sectors p) (cap_face_type p) = no_caps)
    by (rewrite Hcap; apply cap_flags_none).
  destruct (execute_ok p) as [m E];
    [lia|now rewrite Hf|rewrite Hf; discriminate|].
  exists m; split; [assumption|].
  destruct (execute_inv _ _ E) as (k & step & _ & _ & _ & Ef & _).
  rewrite Hf in Ef; fold s in Ef.
  assert (Hs0 : 0 <= s) by (subst s; lia).
  split; intros Hel.
  - assert (Hel' : use_edge_loops (edge_loop_fac p) = false)
      by (apply use_edge_loops_false; lra).
    rewrite Hel' in Ef.
    assert (Hlen : len (v_idcs m) = s).
    { rewrite (faces_len _ _ _ _ Hs0 Ef); unfold l_plan; simpl; lia. }
    assert (Hget : forall i, 0 <= i < s ->
                     getitem (v_idcs m) i = Some (side_quad s 0 s i))
      by (intros i Hi; now apply faces_none_plain).
    repeat split; auto.
    intros fc Hin; apply In_getitem in Hin; destruct Hin as (i & Hi & Hg).
    exists i; split; [lia|].
    rewrite Hget in Hg by lia; congruence.
  - apply use_edge_loops_true in Hel; rewrite Hel in Ef.
    assert (Hlen : len (v_idcs m) = 4 * s).
    { rewrite (faces_len _ _ _ _ Hs0 Ef); unfold l_plan; simpl; lia. }
    assert (Hget : forall i, 0 <= i < s ->
              getitem (v_idcs m) i = Some (side_quad s 0 s i)
              /\ getitem (v_idcs m) (s + i)
                 = Some (side_quad s s (2 * s) i)
              /\ getitem (v_idcs m) (2 * s + i)
                 = Some (side_quad s (2 * s) (3 * s) i)
              /\ getitem (v_idcs m) (3 * s + i)
                 = Some (side_quad s (3 * s) (4 * s) i)).
    { intros i Hi.
      destruct (faces_none_loops s (v_idcs m) i Hs0 Ef Hi)
        as (H0 & H1 & H2 & H3).
      replace (0 + i) with i in H0 by lia.
      replace (0 + s) with s in * by lia.
      replace (s + s) with (2 * s) in * by lia.
      replace (2 * s + s) with (3 * s) in * by lia.
      replace (3 * s + s) with (4 * s) in * by lia.
      auto. }
    repeat split; auto; try (now apply Hget).
    intros fc Hin; apply In_getitem in Hin; destruct Hin as (i & Hi & Hg).
    rewrite Hlen in Hi.
    assert (Hq : exists q j, 0 <= q < 4 /\ 0 <= j < s /\ i = q * s + j).
    { destruct (Z_lt_dec i s); [exists 0, i; lia|].
      destruct (Z_lt_dec i (2 * s)); [exists 1, (i - s); lia|].
      destruct (Z_lt_dec i (3 * s)); [exists 2, (i - 2 * s); lia|].
      exists 3, (i - 3 * s); lia. }
    destruct Hq as (q & j & Hq & Hj & ->).
    exists q, j; repeat split; try lia.
    destruct (Hget j Hj) as (H0 & H1 & H2 & H3).
    assert (Hq' : q = 0 \/ q = 1 \/ q = 2 \/ q = 3) by lia.
    destruct Hq' as [-> | [-> | [-> | ->]]].
    + replace (0 * s + j) with j in Hg by lia.
      replace (0 * s) with 0 by lia. replace ((0 + 1) * s) with s by lia.
      congruence.
    + replace (1 * s + j) with (s + j) in Hg by lia.
      replace (1 * s) with s by lia. replace ((1 + 1) * s) with (2 * s) by lia.
      congruence.
    + replace ((2 + 1) * s) with (3 * s) by lia. congruence.
    + replace ((3 + 1) * s) with (4 * s) by lia. congruence.
Qed.

Lemma C6_witness :
  exists m, execute p_capless = Ok m /\ len (v_idcs m) = 32.
Proof.
  assert (Hs : 3 <= sectors p_capless) by (simpl; lia).
  assert (Hc : cap_face_type p_capless = NONE) by reflexivity.
  destruct (C6_capless_face_count p_capless Hs Hc) as (m & E & _ & H).
  exists m; split; [assumption|].
  apply H; simpl; lra.
Defined.

(** ** C1, C2: triangle fans on a buffer planned for n-gons *)

Lemma cap_flags_tri_clash s :
  4 <= s -> s < 5 \/ s mod 2 <> 0 -> cap_flags s TRI = clash_flags.
Proof.
  intros H4 H; unfold cap_flags, clash_flags.
  destruct (Z.ltb_spec s 5), (Z.eqb_spec (s mod 2) 0), (Z.ltb_spec s 4);
    simpl; try reflexivity; lia.
Qed.

(** The second triangle of the top fan is stored one past the end. *)
Lemma faces_clash s el : 2 <= s -> faces s clash_flags el = Raise IndexError.
Proof.
  intros Hs; unfold faces, v_idcs_stores, fan_stores.
  cbn [clash_flags cap_is_tri bind].
  destruct (range_two s Hs) as [tl E].
  unfold for_range at 1; rewrite E.
  cbn [flat_map app].
  set (lp := l_plan s clash_flags el).
  set (vp := v_plan s clash_flags el).
  match goal with
  | |- store_all (?a :: ?b :: ?c :: (?i, ?v) :: ?rest) ?l = _ =>
      apply (store_all_raise [a; b; c] i v rest l)
  end.
  - rewrite len_pyrepeat by (apply len_loop_idcs_nonneg; lia).
    subst lp; unfold l_plan; destruct el; simpl;
      repeat first [apply Forall_nil | apply Forall_cons];
      unfold inbounds; simpl; lia.
  - rewrite len_pyrepeat by (apply len_loop_idcs_nonneg; lia).
    subst lp; unfold l_plan; destruct el; simpl; lia.
Qed.

(** C1.  For a valid parameter set with capStyle TRI and four sectors, or
    an odd number of them from five on, [execute] fills the positions and then raises
    [IndexError]: a face is assigned past the end of the face buffer. *)
Theorem C1_tri_fan_out_of_range (p : TubeParams) :
  valid p -> cap_face_type p = TRI ->
  sectors p = 4 \/ (5 <= sectors p /\ sectors p mod 2 = 1) ->
  execute p = Raise IndexError.
Proof.
  intros [Hs Hb Ht Hd _ _] Hcap Hodd; unfold execute.
  assert (H4 : 4 <= sectors p) by lia.
  assert (Hx : sectors p < 5 \/ sectors p mod 2 <> 0)
    by (destruct Hodd as [->|[_ ->]]; [left|right]; lia).
  rewrite Hcap, (cap_flags_tri_clash _ H4 Hx).
  set (el := use_edge_loops (edge_loop_fac p)).
  destruct (factors_ok p (use_caps clash_flags)) as [k Ek].
  { intros _; repeat split; lra. }
  rewrite Ek; cbn [bind].
  rewrite sectors_to_theta_ok by lia; cbn [bind].
  destruct (positions_ok p clash_flags el k (2 * PI / IZR (sectors p)))
    as [v Ev]; [lia|reflexivity|].
  rewrite Ev; cbn [bind].
  rewrite faces_clash by lia; reflexivity.
Qed.

Lemma C1_witness : execute p_tri5 = Raise IndexError.
Proof.
  apply C1_tri_fan_out_of_range.
  - constructor; simpl; try lia; lra.
  - reflexivity.
  - right; split; [simpl; lia|reflexivity].
Defined.

(** C2.  For capStyle TRI and an odd number of sectors from 5 on, the
    test on the sector count sets [cap_is_ngon] although the style is not
    QUAD, and [cap_is_tri] stays set: the spoke is used, the face plan
    reserves one face for each cap, and the triangle fan raises
    [IndexError] on its second face. *)
Theorem C2_tri_odd_sectors (s : Z) (el : bool) :
  5 <= s -> s mod 2 = 1 ->
  let f := cap_flags s TRI in
  cap_is_tri f = true
  /\ use_center_spoke f = true
  /\ cap_is_ngon f = true
  /\ loop_idx_btm_mid (l_plan s f el) - loop_idx_btm_fan (l_plan s f el) = 1
  /\ len_loop_idcs (l_plan s f el) - loop_idx_top_fan (l_plan s f el) = 1
  /\ faces s f el = Raise IndexError.
Proof.
  intros Hs Hodd f; subst f.
  rewrite cap_flags_tri_clash by first [lia | right; rewrite Hodd; lia].
  repeat split; try reflexivity;
    try (unfold l_plan; destruct el; simpl; lia).
  apply faces_clash; lia.
Qed.

Lemma C2_witness :
  cap_is_ngon (cap_flags 5 TRI) = true
  /\ faces 5 (cap_flags 5 TRI) false = Raise IndexError.
Proof.
  assert (H5 : 5 <= 5) by lia.
  assert (Ho : 5 mod 2 = 1) by reflexivity.
  pose proof (C2_tri_odd_sectors 5 false H5 Ho) as T.
  cbv zeta in T; tauto.
Defined.

(** ** C3: the top control ring and top fan without caps *)

Lemma getitem_pyrepeat {A : Type} (x : A) n j :
  0 <= j < n -> getitem (pyrepeat x n) j = Some x.
Proof.
  intros Hj; unfold getitem, pyrepeat.
  replace (0 <=? j) with true by (symmetry; apply Z.leb_le; lia).
  apply nth_error_repeat; lia.
Qed.

(** Without caps and with edge loops, every position is assigned below
    [5 * sectors]. *)
Lemma vs_stores_capless_below p k step :
  0 <= sectors p ->
  Forall (fun w => 0 <= fst w < 5 * sectors p)
         (vs_stores p no_caps true k step (v_plan (sectors p) no_caps true)).
Proof.
  intros Hs.
  unfold vs_stores, vs_spokes, vs_edges, vs_side_loops, v_plan; simpl.
  repeat first
    [ apply Forall_nil | apply Forall_cons | apply Forall_app; split
    | apply Forall_for_range; intros ]; unfold ring; simpl; lia.
Qed.

(** C3.  With capStyle NONE and edge loops, the top control ring and the
    top fan are not stored (there are no caps), yet each advances the
    running offset by [sectors]: the mesh has [7 * sectors] positions for
    five rings, every assignment goes below [5 * sectors], and the last
    [2 * sectors] positions keep their initial (0, 0, 0).  The face
    buffer has its [4 * sectors] faces. *)
Theorem C3_top_rings_counted_without_caps (p : TubeParams) :
  1 <= sectors p -> cap_face_type p = NONE ->
  (0 < edge_loop_fac p < 1)%R ->
  let s := sectors p in
  let f := cap_flags s (cap_face_type p) in
  let vp := v_plan s f (use_edge_loops (edge_loop_fac p)) in
  use_caps f = false
  /\ v_idx_top_ctrl vp - v_idx_top_edge vp = s
  /\ v_idx_top_fan vp - v_idx_top_ctrl vp = s
  /\ v_idx_top_spoke vp - v_idx_top_fan vp = s
  /\ len_vs vp = 7 * s
  /\ (forall k step,
        Forall (fun w => 0 <= fst w < 5 * s)
               (vs_stores p f (use_edge_loops (edge_loop_fac p)) k step vp))
  /\ exists m,
       execute p = Ok m
       /\ len (vs m) = 7 * s
       /\ (forall j, 5 * s <= j < 7 * s ->
                     getitem (vs m) j = Some (0%R, 0%R, 0%R))
       /\ len (v_idcs m) = 4 * s.
Proof.
  intros Hs Hcap Hel s f vp.
  assert (Hf : f = no_caps) by (subst f; rewrite Hcap; apply cap_flags_none).
  assert (He : use_edge_loops (edge_loop_fac p) = true)
    by now apply use_edge_loops_true.
  assert (Hs0 : 0 <= sectors p) by lia.
  subst vp; rewrite Hf, He; fold s.
  do 5 (split; [first [reflexivity | unfold v_plan; simpl; lia]|]).
  split; [intros k step; now apply vs_stores_capless_below|].
  destruct (execute_ok p) as [m E]; [lia| | |].
  { fold s f; now rewrite Hf. }
  { fold s f; rewrite Hf; discriminate. }
  exists m; split; [assumption|].
  destruct (execute_inv _ _ E) as (k & step & _ & _ & Ev & Ef & _).
  fold s f in Ev, Ef; rewrite Hf, He in Ev, Ef.
  assert (Hlen : len_vs (v_plan s no_caps true) = 7 * s)
    by (unfold v_plan; simpl; lia).
  split; [|split].
  - rewrite (positions_len _ _ _ _ _ _ Hs0 Ev); assumption.
  - intros j Hj; unfold positions in Ev.
    apply (store_all_get _ _ _ _ _ Ev); try lia.
    + rewrite len_pyrepeat by (fold s; lia).
      now apply vs_stores_inbounds.
    + intros v' Hin.
      pose proof (vs_stores_capless_below p k step Hs0) as Hb.
      rewrite Forall_forall in Hb; specialize (Hb _ Hin).
      simpl in Hb; fold s in Hb; lia.
    + right; apply getitem_pyrepeat; fold s; lia.
  - rewrite (faces_len _ _ _ _ Hs0 Ef); unfold l_plan; simpl; lia.
Qed.

Lemma C3_witness :
  len_vs (v_plan 3 (cap_flags 3 NONE) true) = 21
  /\ exists m, execute p_capless3 = Ok m
               /\ getitem (vs m) 15 = Some (0%R, 0%R, 0%R)
               /\ getitem (vs m) 20 = Some (0%R, 0%R, 0%R).
Proof.
  assert (Hs : 1 <= sectors p_capless3) by (simpl; lia).
  assert (Hc : cap_face_type p_capless3 = NONE) by reflexivity.
  assert (Hel : (0 < edge_loop_fac p_capless3 < 1)%R) by (simpl; lra).
  destruct (C3_top_rings_counted_without_caps p_capless3 Hs Hc Hel)
    as (_ & _ & _ & _ & Hl & _ & m & E & _ & Hz & _).
  split.
  - assert (He : use_edge_loops (edge_loop_fac p_capless3) = true)
      by now apply use_edge_loops_true.
    rewrite He in Hl; exact Hl.
  - exists m; split; [assumption|].
    split; apply Hz; simpl; lia.
Defined.

(** ** C4: no precondition check *)




(** ** Interpolation *)

Lemma lerp3_ring p step i r1 z1 r2 z2 t :
  ring_point p step i ((1 - t) * r1 + t * r2) ((1 - t) * z1 + t * z2)
  = lerp3 (ring_point p step i r1 z1) (ring_point p step i r2 z2) t.
Proof.
  unfold ring_point, ring, lerp3, lerp; simpl.
  f_equal; try f_equal; ring.
Qed.

Lemma use_caps_cap_flags s c : use_caps (cap_flags s c) = negb (is_none c).
Proof.
  unfold cap_flags, use_caps.
  destruct c, (s <? 5), (s mod 2 =? 0), (s <? 4); reflexivity.
Qed.

(** The stages of [execute] up to the positions never fail on a valid
    parameter set, whatever becomes of the faces. *)
Lemma positions_stage p :
  valid p ->
  let f := cap_flags (sectors p) (cap_face_type p) in
  let el := use_edge_loops (edge_loop_fac p) in
  exists k step vs_,
    factors p (use_caps f) = Ok k
    /\ factors_spec p (use_caps f) k
    /\ sectors_to_theta p = Ok step
    /\ positions p f el k step (v_plan (sectors p) f el) = Ok vs_
    /\ (forall m, execute p = Ok m -> vs m = vs_).
Proof.
  intros [Hs Hb Ht Hd _ _] f el.
  destruct (factors_ok p (use_caps f)) as [k Ek];
    [intros _; repeat split; lra|].
  destruct (positions_ok p f el k (2 * PI / IZR (sectors p))) as [v Ev];
    [lia|apply cap_flags_caps_or_none|].
  exists k, (2 * PI / IZR (sectors p))%R, v.
  split; [assumption|].
  split; [now apply factors_inv|].
  split; [apply sectors_to_theta_ok; lia|].
  split; [assumption|].
  intros m E; destruct (execute_inv _ _ E) as (k' & step' & Ek' & Es' & Ev' & _).
  fold f el in Ek', Ev'.
  rewrite sectors_to_theta_ok in Es' by lia.
  congruence.
Qed.

(** ** C8: mirror-image rings *)

(** C8.  With equal radii and a zero depth offset, the bottom and top edge
    rings hold, sector by sector, the same x and y, at heights
    [-depth/2] and [+depth/2]; the mid ring, stored only with edge loops
    (so not for an edge-loop factor of 0), holds the same x and y at
    height 0, halfway between them. *)
Theorem C8_mirror_rings (p : TubeParams) :
  valid p -> radius_btm p = radius_top p -> depth_offset p = 0%R ->
  let f := cap_flags (sectors p) (cap_face_type p) in
  let el := use_edge_loops (edge_loop_fac p) in
  let vp := v_plan (sectors p) f el in
  exists k step vs_,
    factors p (use_caps f) = Ok k
    /\ sectors_to_theta p = Ok step
    /\ positions p f el k step vp = Ok vs_
    /\ (forall m, execute p = Ok m -> vs m = vs_)
    /\ (edge_loop_fac p = 0%R -> el = false)
    /\ forall i, 0 <= i < sectors p ->
         exists x y,
           getitem vs_ (v_idx_btm_edge vp + i)
           = Some (x, y, (- (depth p / 2))%R)
           /\ getitem vs_ (v_idx_top_edge vp + i)
              = Some (x, y, (depth p / 2)%R)
           /\ (el = true ->
               getitem vs_ (v_idx_mid vp + i) = Some (x, y, 0%R)).
Proof.
  intros Hv Hr Ho f el vp.
  destruct (positions_stage p Hv) as (k & step & v & Ek & Hk & Es & Ev & Hm).
  fold f el in Ek, Hk, Ev; fold vp in Ev.
  exists k, step, v.
  do 4 (split; [assumption|]).
  split; [intros H0; subst el; apply use_edge_loops_false; lra|].
  intros i Hi.
  assert (Hs : 0 <= sectors p) by (destruct Hv; lia).
  pose proof (cap_flags_caps_or_none (sectors p) (cap_face_type p)) as Hc.
  fold f in Hc.
  destruct (vs_edge_rings p f el k step v i Hs Hc Ev Hi) as (Hb & Ht).
  fold vp in Hb, Ht.
  exists (fst (cartesian p step i) * radius_btm p)%R,
         (snd (cartesian p step i) * radius_btm p)%R.
  assert (Zb : vz_btm p = (- (depth p / 2))%R).
  { unfold vz_btm, vz_mid, offset_fac, half_depth; rewrite Ho; lra. }
  assert (Zt : vz_top p = (depth p / 2)%R).
  { unfold vz_top, vz_mid, offset_fac, half_depth; rewrite Ho; lra. }
  assert (Zm : vz_mid p = 0%R).
  { unfold vz_mid, offset_fac, half_depth; rewrite Ho; lra. }
  repeat split.
  - rewrite Hb; unfold ring_point, ring; simpl; now rewrite Zb.
  - rewrite Ht; unfold ring_point, ring; simpl; now rewrite Zt, Hr.
  - intros Hel; subst vp; revert Ev; rewrite Hel; intros Ev.
    destruct (vs_side_rings p f k step v i Hs Hc Ev Hi) as (_ & Hmid & _).
    rewrite Hmid; unfold ring_point, ring, radius_mid; simpl.
    rewrite Zm, <- Hr; do 3 f_equal; lra.
Qed.

Lemma C8_witness :
  exists k step vs_,
    positions p_round_trip (cap_flags 8 QUAD)
              (use_edge_loops (edge_loop_fac p_round_trip)) k step
              (v_plan 8 (cap_flags 8 QUAD)
                      (use_edge_loops (edge_loop_fac p_round_trip)))
    = Ok vs_
    /\ use_edge_loops (edge_loop_fac p_round_trip) = false.
Proof.
  destruct (C8_mirror_rings p_round_trip p_round_trip_valid eq_refl eq_refl)
    as (k & step & v & _ & _ & Ev & _ & Hel & _).
  exists k, step, v; split; [exact Ev|].
  apply Hel; reflexivity.
Defined.

(** ** C7: control-loop factors *)

(** Where the side and cap control rings are stored, in terms of the
    factors of [factors]. *)
Lemma control_rings p k step vs_ i :
  let f := cap_flags (sectors p) (cap_face_type p) in
  let vp := v_plan (sectors p) f true in
  0 <= sectors p ->
  factors_spec p (use_caps f) k ->
  positions p f true k step vp = Ok vs_ ->
  0 <= i < sectors p ->
  let btm := ring_point p step i (radius_btm p) (vz_btm p) in
  let top := ring_point p step i (radius_top p) (vz_top p) in
  let mid := ring_point p step i (radius_mid p) (vz_mid p) in
  getitem vs_ (v_idx_btm_edge vp + i) = Some btm
  /\ getitem vs_ (v_idx_top_edge vp + i) = Some top
  /\ getitem vs_ (v_idx_mid vp + i) = Some mid
  /\ getitem vs_ (v_idx_side_lwr_ctrl vp + i) = Some (lerp3 btm mid (t_btm k))
  /\ getitem vs_ (v_idx_side_upp_ctrl vp + i) = Some (lerp3 top mid (t_top k))
  /\ (use_caps f = true ->
      getitem vs_ (v_idx_btm_ctrl vp + i)
      = Some (lerp3 btm (ring_point p step i (radius_fan_btm p) (vz_btm p))
                    (t_fan_btm k))
      /\ getitem vs_ (v_idx_top_ctrl vp + i)
         = Some (lerp3 top (ring_point p step i (radius_fan_top p) (vz_top p))
                       (t_fan_top k))).
Proof.
  intros f vp Hs Hk Ev Hi btm top mid.
  pose proof (cap_flags_caps_or_none (sectors p) (cap_face_type p)) as Hc.
  fold f in Hc.
  destruct (vs_edge_rings p f true k step vs_ i Hs Hc Ev Hi) as (Hb & Ht).
  destruct (vs_side_rings p f k step vs_ i Hs Hc Ev Hi) as (Hl & Hm & Hu).
  fold vp in Hb, Ht, Hl, Hm, Hu.
  destruct Hk as [Hab Hat Htb Htt Htfb Htft Hub Hut Hufb Huft].
  do 3 (split; [assumption|]).
  split; [|split].
  - rewrite Hl; f_equal; subst btm mid; rewrite <- lerp3_ring.
    unfold radius_side_lwr_ctrl, side_lwr_ctrl_z; now rewrite Hub.
  - rewrite Hu; f_equal; subst top mid; rewrite <- lerp3_ring.
    unfold radius_side_upp_ctrl, side_upp_ctrl_z; now rewrite Hut.
  - intros Hcaps.
    destruct (vs_cap_rings p f k step vs_ i Hs Hcaps Ev Hi)
      as (_ & Hbc & Htc & _).
    fold vp in Hbc, Htc; split.
    + rewrite Hbc; f_equal; subst btm.
      replace (vz_btm p) with ((1 - t_fan_btm k) * vz_btm p
                               + t_fan_btm k * vz_btm p)%R at 1 by ring.
      rewrite <- lerp3_ring; unfold radius_cap_lwr_ctrl.
      rewrite Hufb; do 2 f_equal; ring.
    + rewrite Htc; f_equal; subst top.
      replace (vz_top p) with ((1 - t_fan_top k) * vz_top p
                               + t_fan_top k * vz_top p)%R at 1 by ring.
      rewrite <- lerp3_ring; unfold radius_cap_upp_ctrl.
      rewrite Huft; do 2 f_equal; ring.
Qed.

(** Without caps the lower side control ring is interpolated with the
    edge-loop factor itself, not with the factor times radius over
    depth. *)
Lemma C7_counterexample :
  (0 < edge_loop_fac p_capless < 1)%R
  /\ (radius_btm p_capless < depth p_capless)%R
  /\ exists k step vs_,
       positions p_capless (cap_flags 8 NONE) true k step
                 (v_plan 8 (cap_flags 8 NONE) true) = Ok vs_
       /\ (forall m, execute p_capless = Ok m -> vs m = vs_)
       /\ getitem vs_ (v_idx_side_lwr_ctrl (v_plan 8 (cap_flags 8 NONE) true)
                       + 0)
          <> Some (lerp3
                     (ring_point p_capless step 0 (radius_btm p_capless)
                                 (vz_btm p_capless))
                     (ring_point p_capless step 0 (radius_mid p_capless)
                                 (vz_mid p_capless))
                     (edge_loop_fac p_capless
                      * (radius_btm p_capless / depth p_capless))).
Proof.
  split; [simpl; lra|]. split; [simpl; lra|].
  assert (Hv : valid p_capless) by (constructor; simpl; try lia; lra).
  destruct (positions_stage p_capless Hv)
    as (k & step & v & Ek & Hk & Es & Ev & Hm).
  assert (Hel : use_edge_loops (edge_loop_fac p_capless) = true)
    by (apply use_edge_loops_true; simpl; lra).
  rewrite Hel in Ev.
  exists k, step, v; split; [exact Ev|]. split; [exact Hm|].
  assert (Hs : 0 <= sectors p_capless) by (simpl; lia).
  assert (H0 : 0 <= 0 < sectors p_capless) by (simpl; lia).
  destruct (control_rings p_capless k step v 0 Hs Hk Ev H0)
    as (_ & _ & _ & Hl & _).
  change (sectors p_capless) with 8 in Hl.
  change (cap_face_type p_capless) with NONE in Hl.
  rewrite Hl; intros H; injection H as _ _ Hz.
  destruct Hk as [Hab _ Htb _ _ _ _ _ _ _].
  revert Hz; rewrite Htb.
  replace (Rltb (radius_btm p_capless) (depth p_capless)) with true
    by (symmetry; apply Rltb_true; simpl; lra).
  unfold lerp, vz_btm, vz_mid, offset_fac, half_depth; simpl.
  rewrite Hab; simpl; lra.
Qed.

(** C7 as amended.  With edge loops, at every sector: when the bottom
    radius is below the depth, the lower side control ring is the
    interpolation from the bottom edge ring toward the mid ring with
    factor [t * (radius_btm / depth)] if there are caps and with factor
    [t] if capStyle is NONE (the aspect ratio is then 1); when the bottom
    radius is at least the depth and there are caps, the bottom cap
    control ring is the interpolation from the bottom edge ring toward
    the bottom fan ring with factor [t * (depth / radius_btm)]; and
    likewise at the top. *)
Theorem C7_control_loop_factors (p : TubeParams) :
  valid p -> (0 < edge_loop_fac p < 1)%R ->
  let t := edge_loop_fac p in
  let f := cap_flags (sectors p) (cap_face_type p) in
  let vp := v_plan (sectors p) f true in
  let scale (r : R) : R :=
    if is_none (cap_face_type p) then 1%R else (r / depth p)%R in
  exists k step vs_,
    factors p (use_caps f) = Ok k
    /\ sectors_to_theta p = Ok step
    /\ positions p f true k step vp = Ok vs_
    /\ (forall m, execute p = Ok m -> vs m = vs_)
    /\ forall i, 0 <= i < sectors p ->
         let btm := ring_point p step i (radius_btm p) (vz_btm p) in
         let top := ring_point p step i (radius_top p) (vz_top p) in
         let mid := ring_point p step i (radius_mid p) (vz_mid p) in
         let fan_btm := ring_point p step i (radius_fan_btm p) (vz_btm p) in
         let fan_top := ring_point p step i (radius_fan_top p) (vz_top p) in
         getitem vs_ (v_idx_btm_edge vp + i) = Some btm
         /\ getitem vs_ (v_idx_top_edge vp + i) = Some top
         /\ getitem vs_ (v_idx_mid vp + i) = Some mid
         /\ ((radius_btm p < depth p)%R ->
             getitem vs_ (v_idx_side_lwr_ctrl vp + i)
             = Some (lerp3 btm mid (t * scale (radius_btm p))))
         /\ ((radius_top p < depth p)%R ->
             getitem vs_ (v_idx_side_upp_ctrl vp + i)
             = Some (lerp3 top mid (t * scale (radius_top p))))
         /\ (cap_face_type p <> NONE -> (radius_btm p >= depth p)%R ->
             getitem vs_ (v_idx_btm_ctrl vp + i)
             = Some (lerp3 btm fan_btm (t * (depth p / radius_btm p))))
         /\ (cap_face_type p <> NONE -> (radius_top p >= depth p)%R ->
             getitem vs_ (v_idx_top_ctrl vp + i)
             = Some (lerp3 top fan_top (t * (depth p / radius_top p)))).
Proof.
  intros Hv Ht t f vp scale.
  destruct (positions_stage p Hv) as (k & step & v & Ek & Hk & Es & Ev & Hm).
  fold f in Ek, Hk, Ev.
  assert (Hel : use_edge_loops (edge_loop_fac p) = true)
    by now apply use_edge_loops_true.
  rewrite Hel in Ev; fold vp in Ev.
  exists k, step, v; do 4 (split; [assumption|]).
  intros i Hi btm top mid fan_btm fan_top.
  assert (Hs : 0 <= sectors p) by (destruct Hv; lia).
  destruct (control_rings p k step v i Hs Hk Ev Hi)
    as (Hb & Htp & Hmid & Hl & Hu & Hcap).
  fold f vp btm top mid fan_btm fan_top in Hb, Htp, Hmid, Hl, Hu, Hcap.
  destruct Hk as [Hab Hat Htb Htt Htfb Htft _ _ _ _].
  assert (Hcaps : use_caps f = negb (is_none (cap_face_type p)))
    by apply use_caps_cap_flags.
  destruct Hv as [_ Hrb Hrt Hd _ _].
  do 3 (split; [assumption|]).
  split; [|split; [|split]].
  - intros Hlt; rewrite Hl, Htb, Hab, Hcaps.
    replace (Rltb (radius_btm p) (depth p)) with true
      by (symmetry; now apply Rltb_true).
    subst scale; cbv beta; destruct (is_none (cap_face_type p)); reflexivity.
  - intros Hlt; rewrite Hu, Htt, Hat, Hcaps.
    replace (Rltb (radius_top p) (depth p)) with true
      by (symmetry; now apply Rltb_true).
    subst scale; cbv beta; destruct (is_none (cap_face_type p)); reflexivity.
  - intros Hn Hge.
    assert (Hc : use_caps f = true)
      by (rewrite Hcaps; destruct (cap_face_type p); auto; congruence).
    destruct (Hcap Hc) as (Hbc & _).
    rewrite Hbc, Htfb, Hab, Hc.
    replace (Rgeb (radius_btm p) (depth p)) with true
      by (symmetry; now apply Rgeb_true).
    do 2 f_equal; unfold t; field; split; lra.
  - intros Hn Hge.
    assert (Hc : use_caps f = true)
      by (rewrite Hcaps; destruct (cap_face_type p); auto; congruence).
    destruct (Hcap Hc) as (_ & Htc).
    rewrite Htc, Htft, Hat, Hc.
    replace (Rgeb (radius_top p) (depth p)) with true
      by (symmetry; now apply Rgeb_true).
    do 2 f_equal; unfold t; field; split; lra.
Qed.

Lemma C7_witness :
  exists k step vs_,
    positions p_loops (cap_flags 8 QUAD) true k step
              (v_plan 8 (cap_flags 8 QUAD) true) = Ok vs_
    /\ getitem vs_ (v_idx_side_lwr_ctrl (v_plan 8 (cap_flags 8 QUAD) true) + 0)
       = Some (lerp3
                 (ring_point p_loops step 0 0.5 (vz_btm p_loops))
                 (ring_point p_loops step 0 (radius_mid p_loops)
                             (vz_mid p_loops))
                 (0.5 * (0.5 / 1.5))).
Proof.
  assert (Hv : valid p_loops) by (constructor; simpl; try lia; lra).
  assert (Ht : (0 < edge_loop_fac p_loops < 1)%R) by (simpl; lra).
  destruct (C7_control_loop_factors p_loops Hv Ht)
    as (k & step & v & _ & _ & Ev & _ & H).
  exists k, step, v; split; [exact Ev|].
  assert (H0 : 0 <= 0 < sectors p_loops) by (simpl; lia).
  destruct (H 0 H0) as (_ & _ & _ & Hl & _).
  apply Hl; simpl; lra.
Defined.

(** ** C9: texture coordinates *)

(** With [cap_is_tri] and [cap_is_ngon] both set, [execute] stops at the
    face loop for a valid parameter set, texture coordinates requested or
    not. *)
Lemma execute_clash p :
  valid p -> cap_flags (sectors p) (cap_face_type p) = clash_flags ->
  execute p = Raise IndexError.
Proof.
  intros [Hs Hb Ht Hd _ _] Hf; unfold execute; rewrite Hf.
  set (el := use_edge_loops (edge_loop_fac p)).
  destruct (factors_ok p (use_caps clash_flags)) as [k Ek].
  { intros _; repeat split; lra. }
  rewrite Ek; cbn [bind].
  rewrite sectors_to_theta_ok by lia; cbn [bind].
  destruct (positions_ok p clash_flags el k (2 * PI / IZR (sectors p)))
    as [v Ev]; [lia|reflexivity|].
  rewrite Ev; cbn [bind].
  rewrite faces_clash by lia; reflexivity.
Qed.

(** The claim as written fails twice.  For the valid parameter set with
    five sectors and capStyle TRI, texture coordinates requested,
    [execute] raises [IndexError] at the face loop, before any texture
    coordinate is computed.  And in binary64 the seam sample of a strip
    of 49 sectors, [49 * (1.0 / 49)], is less than 1. *)
Lemma C9_counterexample :
  (valid p_tri5_uv /\ calc_uvs p_tri5_uv = true
   /\ execute p_tri5_uv = Raise IndexError)
  /\ (exists x, strip_x64 49 49 = Ok x
                /\ PrimFloat.ltb x PrimFloat.one = true).
Proof.
  split.
  - assert (Hv : valid p_tri5_uv) by (constructor; simpl; try lia; lra).
    split; [assumption|]; split; [reflexivity|].
    apply execute_clash; [assumption|reflexivity].
  - eexists; split; vm_compute; reflexivity.
Qed.

(** C9 as amended.  Over the reals, as this file reads the floats of
    [execute], and for a valid parameter set on which [cap_is_tri] and
    [cap_is_ngon] are not both set: when texture coordinates are
    requested [execute] returns, and
    each side strip (bottom and top, and the three control strips with
    edge loops) has [sectors + 1] samples, sample [j] at
    x = [j * (1 / sectors)] = [j / sectors], from 0 to 1 inclusive; the
    bottom strip is at
    y = 0.5 with caps and y = 0 with capStyle NONE, the top strip at
    y = 1; with caps the rim rings are the points
    centre + 0.25 (cos, sin), hence on the circles of radius 0.25 about
    (0.75, 0.25) for the bottom cap and (0.25, 0.25) for the top cap.
    In binary64 the products [j * (1.0 / sectors)] are rounded, and the
    last one need not be 1: see [C9_counterexample]. *)
Theorem C9_uv_layout (p : TubeParams) :
  valid p -> calc_uvs p = true ->
  tri_ngon_clash (cap_flags (sectors p) (cap_face_type p)) = false ->
  let s := sectors p in
  let f := cap_flags s (cap_face_type p) in
  let tp := vt_plan s f (use_edge_loops (edge_loop_fac p)) in
  let min_y := if is_none (cap_face_type p) then 0%R else 0.5%R in
  exists m uv step,
    execute p = Ok m /\ uvs m = Some uv /\ sectors_to_theta p = Ok step
    /\ (forall j, 0 <= j <= s ->
          getitem (vts uv) (vt_idx_btm_strip tp + j)
          = Some ((IZR j / IZR s)%R, min_y)
          /\ getitem (vts uv) (vt_idx_top_strip tp + j)
             = Some ((IZR j / IZR s)%R, 1%R))
    /\ (IZR 0 / IZR s = 0 /\ IZR s / IZR s = 1)%R
    /\ (use_edge_loops (edge_loop_fac p) = true ->
        exists y_lwr y_mid y_upp,
          forall j, 0 <= j <= s ->
            getitem (vts uv) (vt_idx_side_lwr_ctrl tp + j)
            = Some ((IZR j / IZR s)%R, y_lwr)
            /\ getitem (vts uv) (vt_idx_mid_strip tp + j)
               = Some ((IZR j / IZR s)%R, y_mid)
            /\ getitem (vts uv) (vt_idx_side_upp_ctrl tp + j)
               = Some ((IZR j / IZR s)%R, y_upp))
    /\ (cap_face_type p <> NONE ->
        forall i, 0 <= i < s ->
          let theta := (orientation p + IZR i * step)%R in
          getitem (vts uv) (vt_idx_btm_edge tp + i)
          = Some ((0.75 + cos theta * 0.25)%R, (0.25 + sin theta * 0.25)%R)
          /\ getitem (vts uv) (vt_idx_top_edge tp + i)
             = Some ((0.25 + cos theta * 0.25)%R, (0.25 + sin theta * 0.25)%R)
          /\ (((0.75 + cos theta * 0.25) - 0.75) ^ 2
              + ((0.25 + sin theta * 0.25) - 0.25) ^ 2 = 0.25 ^ 2)%R
          /\ (((0.25 + cos theta * 0.25) - 0.25) ^ 2
              + ((0.25 + sin theta * 0.25) - 0.25) ^ 2 = 0.25 ^ 2)%R).
Proof.
  intros Hv Huv Hclash s f tp min_y.
  destruct (valid_execute_ok p Hv Hclash) as [m E].
  destruct (execute_inv _ _ E) as (k & step & Ek & Es & Ev & Ef & Hu).
  rewrite Huv in Hu; destruct Hu as (uv & Eu & Hm).
  fold s f in Eu.
  exists m, uv, step; do 3 (split; [assumption|]).
  assert (Hs : 0 <= s) by (destruct Hv; unfold s; lia).
  assert (Hs0 : IZR s <> 0%R).
  { intros H0; apply eq_IZR_R0 in H0; destruct Hv; unfold s in *; lia. }
  assert (Hcaps : use_caps f = negb (is_none (cap_face_type p)))
    by apply use_caps_cap_flags.
  split; [|split; [|split]].
  - intros j Hj.
    destruct (vts_strip_rows p f _ k step uv j Hs Eu) as (Hb & Ht);
      [fold s; lia|].
    fold s tp in Hb, Ht; rewrite Hb, Ht; split.
    + f_equal; f_equal; [now field|].
      unfold vts_min_y, min_y; rewrite Hcaps.
      destruct (is_none (cap_face_type p)); reflexivity.
    + f_equal; f_equal; now field.
  - split; now field.
  - intros Hel.
    exists (vt_side_lwr_ctrl_y f k), (vts_mid_y f), (vt_side_upp_ctrl_y f k).
    intros j Hj; subst tp; revert Eu; rewrite Hel; intros Eu.
    destruct (vts_loop_rows p f k step uv j Hs Eu) as (H1 & H2 & H3);
      [fold s; lia|].
    fold s in H1, H2, H3; rewrite H1, H2, H3.
    repeat split; f_equal; f_equal; now field.
  - intros Hn i Hi theta.
    assert (Hc : use_caps f = true)
      by (rewrite Hcaps; destruct (cap_face_type p); auto; congruence).
    destruct (vts_edge_rings p f _ k step uv i Hs Eu Hc Hi) as (Hb & Ht).
    fold s tp in Hb, Ht.
    split; [exact Hb|]. split; [exact Ht|].
    pose proof (sin2_cos2 theta) as Hsc; unfold Rsqr in Hsc.
    split; nra.
Qed.

Lemma C9_witness :
  exists m uv, execute p_uv = Ok m /\ uvs m = Some uv
    /\ getitem (vts uv) 8 = Some (1%R, 0.5%R).
Proof.
  assert (Hv : valid p_uv) by (constructor; simpl; try lia; lra).
  destruct (C9_uv_layout p_uv Hv eq_refl eq_refl)
    as (m & uv & step & E & Hu & _ & H & _).
  exists m, uv; do 2 (split; [assumption|]).
  assert (H8 : 0 <= 8 <= sectors p_uv) by (simpl; lia).
  destruct (H 8 H8) as (Hb & _).
  assert (Hel : use_edge_loops (edge_loop_fac p_uv) = false)
    by (apply use_edge_loops_false; simpl; lra).
  rewrite Hel in Hb.
  replace (vt_idx_btm_strip
             (vt_plan (sectors p_uv)
                      (cap_flags (sectors p_uv) (cap_face_type p_uv)) false)
           + 8) with 8 in Hb by reflexivity.
  rewrite Hb; simpl; do 2 f_equal; lra.
Defined.

(** * Further properties *)

(** ** Bounds on the control factors *)

Lemma factors_bounds p caps k :
  factors_spec p caps k ->
  (0 < radius_btm p)%R -> (0 < radius_top p)%R -> (0 < depth p)%R ->
  (0 <= edge_loop_fac p)%R ->
  (0 <= t_btm k <= edge_loop_fac p)%R
  /\ (0 <= t_top k <= edge_loop_fac p)%R
  /\ (0 <= t_fan_btm k <= edge_loop_fac p)%R
  /\ (0 <= t_fan_top k <= edge_loop_fac p)%R.
Proof.
  intros [Hab Hat Htb Htt Htfb Htft _ _ _ _] Hb Ht Hd H0.
  assert (Hq : forall r, (0 < r)%R -> (r < depth p)%R ->
                 (0 <= edge_loop_fac p * (r / depth p) <= edge_loop_fac p)%R).
  { intros r Hr Hlt.
    assert (0 < r / depth p < 1)%R.
    { split; [apply Rdiv_lt_0_compat; lra|].
      apply (Rmult_lt_reg_r (depth p)); [lra|].
      unfold Rdiv; rewrite Rmult_assoc, Rinv_l; lra. }
    split; nra. }
  assert (Hp : forall r, (0 < r)%R -> (r >= depth p)%R ->
                 (0 <= edge_loop_fac p / (r / depth p) <= edge_loop_fac p)%R).
  { intros r Hr Hge.
    replace (edge_loop_fac p / (r / depth p))%R
      with (edge_loop_fac p * (depth p / r))%R by (field; lra).
    assert (0 < depth p / r <= 1)%R.
    { split; [apply Rdiv_lt_0_compat; lra|].
      apply (Rmult_le_reg_r r); [lra|].
      unfold Rdiv; rewrite Rmult_assoc, Rinv_l; lra. }
    split; nra. }
  rewrite Htb, Htt, Htfb, Htft, Hab, Hat.
  destruct (Rltb (radius_btm p) (depth p)) eqn:E1,
           (Rltb (radius_top p) (depth p)) eqn:E2,
           (Rgeb (radius_btm p) (depth p)) eqn:E3,
           (Rgeb (radius_top p) (depth p)) eqn:E4, caps;
    rewrite ?Rltb_true, ?Rltb_false, ?Rgeb_true, ?Rgeb_false in *;
    repeat split;
    try (apply Hq; assumption); try (apply Hp; assumption);
    try lra.
Qed.

Lemma p_loops_valid : valid p_loops.
Proof. constructor; simpl; try lia; lra. Qed.

Lemma p_uv_valid : valid p_uv.
Proof. constructor; simpl; try lia; lra. Qed.

(** ** The mesh inside its bounding cylinder *)

Lemma ring_in_cylinder off i cart r z M zlo zhi :
  (fst cart * fst cart + snd cart * snd cart = 1)%R ->
  (0 <= r <= M)%R -> (zlo <= z <= zhi)%R ->
  in_cylinder M zlo zhi (snd (ring off i cart r z)).
Proof.
  intros Hc Hr Hz; unfold in_cylinder, ring; simpl; split; [assumption|].
  replace (fst cart * r * (fst cart * r) + snd cart * r * (snd cart * r))%R
    with (r * r * (fst cart * fst cart + snd cart * snd cart))%R by ring.
  rewrite Hc; nra.
Qed.

Lemma cartesian_unit p step i :
  (fst (cartesian p step i) * fst (cartesian p step i)
   + snd (cartesian p step i) * snd (cartesian p step i) = 1)%R.
Proof.
  unfold cartesian; simpl.
  pose proof (sin2_cos2 (orientation p + IZR i * step)) as H.
  unfold Rsqr in H; lra.
Qed.

Lemma heights p :
  (vz_top p - vz_btm p = depth p
   /\ vz_mid p = depth_offset p * (depth p / 2)
   /\ vz_mid p - vz_btm p = depth p / 2
   /\ vz_top p - vz_mid p = depth p / 2)%R.
Proof.
  unfold vz_top, vz_btm, vz_mid, offset_fac, half_depth; repeat split; lra.
Qed.

(** X1.  For a valid parameter set every position of the returned mesh
    lies between the heights [vz_btm] and [vz_top], which are [depth]
    apart, and within the larger of the two radii of the axis. *)
Theorem X1_positions_in_bounding_cylinder (p : TubeParams) (m : Mesh) :
  valid p -> execute p = Ok m ->
  (vz_top p - vz_btm p = depth p)%R
  /\ Forall (in_cylinder (Rmax (radius_btm p) (radius_top p))
                         (vz_btm p) (vz_top p))
            (vs m).
Proof.
  intros Hv E; split; [apply heights|].
  destruct (execute_inv _ _ E) as (k & step & Ek & _ & Ev & _).
  apply factors_inv in Ek.
  destruct Hv as [Hs Hb Ht Hd Ho Hf].
  destruct (factors_bounds p _ k Ek Hb Ht Hd) as (B1 & B2 & B3 & B4);
    [lra|].
  destruct Ek as [_ _ _ _ _ _ U1 U2 U3 U4].
  destruct (heights p) as (H1 & H2 & H3 & H4).
  set (M := Rmax (radius_btm p) (radius_top p)).
  assert (Mb : (radius_btm p <= M)%R) by apply Rmax_l.
  assert (Mt : (radius_top p <= M)%R) by apply Rmax_r.
  assert (Hm : (vz_btm p <= vz_mid p <= vz_top p)%R) by lra.
  assert (H0 : (vz_btm p <= 0 <= vz_top p)%R) by (split; nra).
  unfold positions in Ev; revert Ev.
  set (f := cap_flags (sectors p) (cap_face_type p)).
  set (el := use_edge_loops (edge_loop_fac p)); intros Ev.
  eapply (store_all_Forall (in_cylinder M (vz_btm p) (vz_top p)));
    [| |exact Ev].
  - apply Forall_pyrepeat; unfold in_cylinder; split; [assumption|nra].
  - unfold vs_stores, vs_spokes, vs_edges, vs_side_loops, vs_cap_loops.
    unfold radius_side_lwr_ctrl, radius_side_upp_ctrl, side_lwr_ctrl_z,
      side_upp_ctrl_z, radius_cap_lwr_ctrl, radius_cap_upp_ctrl,
      radius_fan_btm, radius_fan_top, radius_mid.
    rewrite U1, U2, U3, U4.
    destruct (use_center_spoke f), el, (use_caps f);
      repeat first
        [ apply Forall_nil
        | apply Forall_cons
        | apply Forall_app; split
        | apply Forall_for_range; intros ];
      try (apply ring_in_cylinder; [apply cartesian_unit|split; nra|nra]);
      unfold in_cylinder; simpl; split; nra.
Qed.

Lemma X1_witness :
  exists m, execute p_round_trip = Ok m
            /\ Forall (in_cylinder (Rmax 0.5 0.5) (vz_btm p_round_trip)
                                   (vz_top p_round_trip)) (vs m).
Proof.
  destruct (valid_execute_ok p_round_trip p_round_trip_valid eq_refl)
    as [m E].
  exists m; split; [assumption|].
  apply (X1_positions_in_bounding_cylinder p_round_trip m
           p_round_trip_valid E).
Defined.

(** ** Control rings strictly between their neighbours *)

Lemma factors_positive p caps k :
  factors_spec p caps k ->
  (0 < radius_btm p)%R -> (0 < radius_top p)%R -> (0 < depth p)%R ->
  (0 < edge_loop_fac p)%R ->
  (0 < t_btm k /\ 0 < t_top k /\ 0 < t_fan_btm k /\ 0 < t_fan_top k)%R.
Proof.
  intros [Hab Hat Htb Htt Htfb Htft _ _ _ _] Hb Ht Hd H0.
  assert (Hq : forall r, (0 < r)%R -> (0 < edge_loop_fac p * (r / depth p))%R).
  { intros r Hr; apply Rmult_lt_0_compat; [lra|].
    apply Rdiv_lt_0_compat; lra. }
  assert (Hp : forall r, (0 < r)%R -> (0 < edge_loop_fac p / (r / depth p))%R).
  { intros r Hr; apply Rdiv_lt_0_compat; [lra|].
    apply Rdiv_lt_0_compat; lra. }
  rewrite Htb, Htt, Htfb, Htft, Hab, Hat.
  destruct (Rltb (radius_btm p) (depth p)), (Rltb (radius_top p) (depth p)),
           (Rgeb (radius_btm p) (depth p)), (Rgeb (radius_top p) (depth p)),
           caps;
    repeat split; try (apply Hq; assumption); try (apply Hp; assumption);
    try lra; rewrite ?Rmult_1_r; try lra;
    unfold Rdiv; rewrite ?Rinv_1, ?Rmult_1_r; lra.
Qed.

(** In binary64 an edge-loop factor too small to change [1.0 - t] leaves
    a control ring on the ring it starts from: with the factor 1e-20, both
    radii 0.5 and depth 1.5 the lower side control ring is at the height
    of the bottom ring, and with both radii 2 the bottom cap control ring
    has the radius of the cap. *)
Section ControlRings64.
Import PrimFloat.

Lemma control_ring_on_edge64 :
  exists k, factors64 0.5 0.5 1.5 0x1.79ca10c924223p-67 true = Ok k
    /\ u_btm64 k = 1%float
    /\ side_lwr_ctrl_z64 k 1.5 0 = vz_btm64 1.5 0.
Proof.
  eexists; split; [vm_compute; reflexivity|split; vm_compute; reflexivity].
Qed.

Lemma cap_ring_on_edge64 :
  exists k, factors64 2 2 1.5 0x1.79ca10c924223p-67 true = Ok k
    /\ u_fan_btm64 k = 1%float
    /\ radius_cap_lwr_ctrl64 k 2 = 2%float.
Proof.
  eexists; split; [vm_compute; reflexivity|split; vm_compute; reflexivity].
Qed.

End ControlRings64.

(** X2.  Over the reals, as this file reads the floats of [execute]:
    with edge loops on a valid parameter set the side rings are stacked
    strictly from bottom to top: the lower control ring is stored
    strictly between the heights of the bottom edge ring and the mid ring,
    the upper control ring strictly between the mid ring and the top edge
    ring.  With caps, each cap control ring is stored at the height of its
    cap with a radius strictly between half the cap radius (the fan ring)
    and the cap radius (the edge ring).  In binary64 the inequalities are
    not strict for every factor: see [control_ring_on_edge64] and
    [cap_ring_on_edge64]. *)
Theorem X2_control_rings_strictly_between (p : TubeParams) (m : Mesh) :
  valid p -> (0 < edge_loop_fac p < 1)%R -> execute p = Ok m ->
  let f := cap_flags (sectors p) (cap_face_type p) in
  let vp := v_plan (sectors p) f true in
  exists step zl zu rl ru rcb rct,
    sectors_to_theta p = Ok step
    /\ (vz_btm p < zl < vz_mid p /\ vz_mid p < zu < vz_top p)%R
    /\ (Rmin (radius_btm p) (radius_top p) <= rl
        <= Rmax (radius_btm p) (radius_top p))%R
    /\ (Rmin (radius_btm p) (radius_top p) <= ru
        <= Rmax (radius_btm p) (radius_top p))%R
    /\ (radius_btm p / 2 < rcb < radius_btm p)%R
    /\ (radius_top p / 2 < rct < radius_top p)%R
    /\ forall i, 0 <= i < sectors p ->
         getitem (vs m) (v_idx_side_lwr_ctrl vp + i)
         = Some (ring_point p step i rl zl)
         /\ getitem (vs m) (v_idx_side_upp_ctrl vp + i)
            = Some (ring_point p step i ru zu)
         /\ (cap_face_type p <> NONE ->
             getitem (vs m) (v_idx_btm_ctrl vp + i)
             = Some (ring_point p step i rcb (vz_btm p))
             /\ getitem (vs m) (v_idx_top_ctrl vp + i)
                = Some (ring_point p step i rct (vz_top p))).
Proof.
  intros Hv Hel E f vp.
  destruct (execute_inv _ _ E) as (k & step & Ek & Es & Ev & _).
  fold f in Ek, Ev.
  assert (He : use_edge_loops (edge_loop_fac p) = true)
    by now apply use_edge_loops_true.
  rewrite He in Ev; fold vp in Ev.
  apply factors_inv in Ek.
  pose proof Hv as [Hs Hb Ht Hd Ho Hf].
  destruct (factors_bounds p _ k Ek Hb Ht Hd) as (B1 & B2 & B3 & B4); [lra|].
  destruct (factors_positive p _ k Ek Hb Ht Hd) as (P1 & P2 & P3 & P4);
    [lra|].
  destruct Ek as [_ _ _ _ _ _ U1 U2 U3 U4].
  destruct (heights p) as (H1 & H2 & H3 & H4).
  exists step, (side_lwr_ctrl_z p k), (side_upp_ctrl_z p k),
    (radius_side_lwr_ctrl p k), (radius_side_upp_ctrl p k),
    (radius_cap_lwr_ctrl p k), (radius_cap_upp_ctrl p k).
  split; [assumption|].
  unfold side_lwr_ctrl_z, side_upp_ctrl_z, radius_side_lwr_ctrl,
    radius_side_upp_ctrl, radius_cap_lwr_ctrl, radius_cap_upp_ctrl,
    radius_fan_btm, radius_fan_top, radius_mid.
  rewrite U1, U2, U3, U4.
  split; [split; split; nra|].
  split.
  { unfold Rmin, Rmax; destruct (Rle_dec (radius_btm p) (radius_top p));
      split; nra. }
  split.
  { unfold Rmin, Rmax; destruct (Rle_dec (radius_btm p) (radius_top p));
      split; nra. }
  split; [split; nra|]. split; [split; nra|].
  intros i Hi.
  assert (Hs0 : 0 <= sectors p) by lia.
  pose proof (cap_flags_caps_or_none (sectors p) (cap_face_type p)) as Hc.
  fold f in Hc.
  destruct (vs_side_rings p f k step (vs m) i Hs0 Hc Ev Hi) as (Hl & _ & Hu).
  fold vp in Hl, Hu.
  unfold side_lwr_ctrl_z, side_upp_ctrl_z, radius_side_lwr_ctrl,
    radius_side_upp_ctrl, radius_mid in Hl, Hu.
  rewrite U1 in Hl; rewrite U2 in Hu.
  split; [exact Hl|]. split; [exact Hu|].
  intros Hn.
  assert (Hcaps : use_caps f = true).
  { subst f; rewrite use_caps_cap_flags.
    destruct (cap_face_type p); auto; congruence. }
  destruct (vs_cap_rings p f k step (vs m) i Hs0 Hcaps Ev Hi)
    as (_ & Hbc & Htc & _).
  fold vp in Hbc, Htc.
  unfold radius_cap_lwr_ctrl, radius_cap_upp_ctrl, radius_fan_btm,
    radius_fan_top in Hbc, Htc.
  rewrite U3 in Hbc; rewrite U4 in Htc; auto.
Qed.

Lemma X2_witness :
  exists m zl,
    execute p_loops = Ok m
    /\ (vz_btm p_loops < zl < vz_mid p_loops)%R.
Proof.
  destruct (valid_execute_ok p_loops p_loops_valid eq_refl) as [m E].
  assert (Hel : (0 < edge_loop_fac p_loops < 1)%R) by (simpl; lra).
  destruct (X2_control_rings_strictly_between p_loops m p_loops_valid Hel E)
    as (step & zl & zu & rl & ru & rcb & rct & _ & (Hz & _) & _).
  exists m, zl; split; assumption.
Defined.

(** ** Texture coordinates inside the unit square *)

Lemma strip_x_unit s j :
  0 <= j < s + 1 -> (0 <= IZR j * (1 / IZR s) <= 1)%R.
Proof.
  intros Hj.
  destruct (Z.eq_dec s 0) as [->|Hs].
  - assert (j = 0) by lia; subst; simpl; lra.
  - assert (Hs' : (0 < IZR s)%R) by (apply IZR_lt; lia).
    assert (H0 : (0 <= IZR j)%R) by (apply IZR_le; lia).
    assert (H1 : (IZR j <= IZR s)%R) by (apply IZR_le; lia).
    replace (IZR j * (1 / IZR s))%R with (IZR j / IZR s)%R by (field; lra).
    split.
    + apply Rmult_le_pos; [assumption|].
      apply Rlt_le, Rinv_0_lt_compat; assumption.
    + apply (Rmult_le_reg_r (IZR s)); [assumption|].
      unfold Rdiv; rewrite Rmult_assoc, Rinv_l; lra.
Qed.

Lemma cartesian_bounds p step i :
  (-1 <= fst (cartesian p step i) <= 1
   /\ -1 <= snd (cartesian p step i) <= 1)%R.
Proof.
  unfold cartesian; simpl; split; [apply COS_bound|apply SIN_bound].
Qed.

(** X3.  For a valid parameter set every texture coordinate of the
    returned mesh lies in the unit square. *)
Theorem X3_texcoords_in_unit_square (p : TubeParams) (m : Mesh) (uv : UVs) :
  valid p -> execute p = Ok m -> uvs m = Some uv ->
  Forall (in_rect 0 1 0 1) (vts uv).
Proof.
  intros Hv E Hu.
  destruct (execute_inv _ _ E) as (k & step & Ek & _ & _ & _ & Huv).
  destruct (calc_uvs p); [|congruence].
  destruct Huv as (uv' & Eu & Hu'); assert (uv' = uv) by congruence; subst uv'.
  apply texcoords_inv in Eu; destruct Eu as (_ & Eu).
  apply factors_inv in Ek.
  destruct Hv as [Hs Hb Ht Hd Ho Hf].
  destruct (factors_bounds p _ k Ek Hb Ht Hd) as (B1 & B2 & B3 & B4); [lra|].
  destruct Ek as [_ _ _ _ _ _ U1 U2 U3 U4].
  revert Eu.
  set (f := cap_flags (sectors p) (cap_face_type p)).
  set (el := use_edge_loops (edge_loop_fac p)); intros Eu.
  eapply (store_all_Forall (in_rect 0 1 0 1)); [| |exact Eu].
  - apply Forall_pyrepeat; unfold in_rect; simpl; lra.
  - unfold vts_stores, vts_strips, vts_side_loops, vts_spokes, vts_edges,
      vts_cap_loops.
    unfold vt_side_lwr_ctrl_y, vt_side_upp_ctrl_y, vts_mid_y, vts_min_y,
      vts_max_y, vts_radius_cap_lwr_ctrl, vts_radius_cap_upp_ctrl,
      vts_radius_mid, vts_rad, vt_btm_center_x, vt_btm_center_y,
      vt_top_center_x, vt_top_center_y.
    rewrite U1, U2, U3, U4.
    destruct (use_center_spoke f), el, (use_caps f);
      repeat first
        [ apply Forall_nil
        | apply Forall_cons
        | apply Forall_app; split
        | apply Forall_for_range; intros ];
      unfold in_rect; cbn [fst snd];
      try match goal with
          | H : 0 <= ?j < sectors p + 1 |- _ =>
              pose proof (strip_x_unit (sectors p) j H)
          end;
      try match goal with
          | H : 0 <= ?i < sectors p |- _ =>
              pose proof (cartesian_bounds p step i)
          end;
      split; nra.
Qed.

Lemma X3_witness :
  exists m uv, execute p_uv = Ok m /\ uvs m = Some uv
               /\ Forall (in_rect 0 1 0 1) (vts uv).
Proof.
  destruct (valid_execute_ok p_uv p_uv_valid eq_refl) as [m E].
  destruct (execute_inv _ _ E) as (k & step & _ & _ & _ & _ & Hu).
  change (calc_uvs p_uv) with true in Hu; cbv iota in Hu.
  destruct Hu as (uv & _ & Hu).
  exists m, uv; do 2 (split; [assumption|]).
  apply (X3_texcoords_in_unit_square p_uv m uv p_uv_valid E Hu).
Defined.

(** ** How [execute] ends *)





(** A run of [execute] that returns has no clash of the cap flags. *)
Lemma execute_no_clash p m :
  1 <= sectors p -> execute p = Ok m ->
  tri_ngon_clash (cap_flags (sectors p) (cap_face_type p)) = false.
Proof.
  intros Hs E.
  destruct (execute_inv _ _ E) as (k & step & _ & _ & _ & Ef & _).
  destruct (tri_ngon_clash _) eqn:Hc; [exfalso|reflexivity].
  apply cap_flags_clash in Hc; destruct Hc as (Ht & H4 & Hx).
  rewrite Ht, cap_flags_tri_clash in Ef by assumption.
  rewrite faces_clash in Ef by lia; discriminate.
Qed.

(** ** Buffer sizes in closed form *)

Lemma texcoords_inv_idcs p f el k step uv :
  texcoords p f el k step = Ok uv ->
  exists ws,
    vt_idcs_stores (sectors p) f el (l_plan (sectors p) f el)
                   (vt_plan (sectors p) f el) = Ok ws
    /\ store_all ws (pyrepeat [0; 0; 0; 0]
                              (len_loop_idcs (l_plan (sectors p) f el)))
       = Ok (vt_idcs uv).
Proof.
  unfold texcoords; intros H.
  destruct (fdiv 1 (IZR (sectors p))) as [stu|]; cbn [bind] in H;
    [|discriminate].
  destruct (store_all (vts_stores _ _ _ _ _ _ _) _) as [v|]; cbn [bind] in H;
    [|discriminate].
  destruct (vt_idcs_stores _ _ _ _ _) as [ws|]; cbn [bind] in H;
    [|discriminate].
  destruct (store_all ws _) as [vi|] eqn:Ei; cbn [bind] in H; [|discriminate].
  inversion H; subst; simpl; eauto.
Qed.

Lemma spoke_count_flags s c :
  (if use_center_spoke (cap_flags s c) then 2 else 0) = spoke_count s c.
Proof.
  unfold cap_flags, use_center_spoke, spoke_count.
  destruct c, (Z.ltb_spec s 5), (s mod 2 =? 0), (Z.ltb_spec s 4);
    simpl; try reflexivity; lia.
Qed.

Lemma cap_face_count_flags s c :
  tri_ngon_clash (cap_flags s c) = false ->
  (if cap_is_ngon (cap_flags s c) then 1
   else if cap_is_quad (cap_flags s c) then s / 2
        else if cap_is_tri (cap_flags s c) then s else 0)
  = cap_face_count s c.
Proof.
  unfold cap_flags, tri_ngon_clash, cap_face_count.
  destruct c, (Z.ltb_spec s 5), (s mod 2 =? 0), (Z.ltb_spec s 4);
    simpl; intros Hx; try discriminate Hx; try reflexivity; lia.
Qed.

Lemma len_vs_closed s f el :
  use_caps f || cap_is_none f = true ->
  len_vs (v_plan s f el)
  = (if el then (if use_caps f then 9 else 7) else 2) * s
    + (if use_center_spoke f then 2 else 0).
Proof.
  unfold v_plan.
  destruct (use_center_spoke f), (use_caps f), (cap_is_none f), el;
    simpl; intros Hx; try discriminate Hx; lia.
Qed.

Lemma len_loop_idcs_closed s f el :
  len_loop_idcs (l_plan s f el)
  = 2 * (if cap_is_ngon f then 1
         else if cap_is_quad f then s / 2
              else if cap_is_tri f then s else 0)
    + (if el then (if use_caps f then 8 else 4) else 1) * s.
Proof.
  unfold l_plan.
  destruct (cap_is_ngon f), (cap_is_quad f), (cap_is_tri f), (use_caps f),
    el; simpl; lia.
Qed.

Lemma len_vts_closed s f el :
  len_vts (vt_plan s f el)
  = (if el then 5 else 2) * (s + 1)
    + (if use_caps f
       then (if el then 6 else 2) * s + (if use_center_spoke f then 2 else 0)
       else 0).
Proof.
  unfold vt_plan.
  destruct (use_center_spoke f), (use_caps f), el; simpl; lia.
Qed.

(** X5.  When [execute] returns, the buffers have these sizes: positions,
    [ring_count * sectors + spoke_count]; faces, two caps of
    [cap_face_count] faces and [strip_count] strips of [sectors] quads;
    with texture coordinates, as many texture faces as faces. *)
Theorem X5_buffer_sizes (p : TubeParams) (m : Mesh) :
  1 <= sectors p -> execute p = Ok m ->
  let s := sectors p in
  let c := cap_face_type p in
  let el := use_edge_loops (edge_loop_fac p) in
  len (vs m) = ring_count c el * s + spoke_count s c
  /\ len (v_idcs m) = 2 * cap_face_count s c + strip_count c el * s
  /\ (forall uv, uvs m = Some uv ->
        len (vt_idcs uv) = len (v_idcs m)
        /\ len (vts uv)
           = (if el then 5 else 2) * (s + 1)
             + (if is_none c then 0
                else (if el then 6 else 2) * s + spoke_count s c)).
Proof.
  intros Hs E s c el.
  assert (Hc := execute_no_clash p m Hs E).
  destruct (execute_inv _ _ E) as (k & step & _ & _ & Ev & Ef & Hu).
  fold s c el in Ev, Ef, Hu.
  assert (Hs0 : 0 <= s) by (subst s; lia).
  apply positions_len in Ev; [|assumption].
  apply faces_len in Ef; [|assumption].
  fold s c in Hc.
  pose proof (use_caps_cap_flags s c) as Hcaps.
  split; [|split].
  - rewrite Ev, len_vs_closed by apply cap_flags_caps_or_none.
    rewrite spoke_count_flags, Hcaps; unfold ring_count.
    destruct el, (is_none c); reflexivity.
  - rewrite Ef, len_loop_idcs_closed, cap_face_count_flags, Hcaps
      by assumption.
    unfold strip_count; destruct el, (is_none c); reflexivity.
  - intros uv Huv; destruct (calc_uvs p); [|congruence].
    destruct Hu as (uv' & Eu & Hu'); assert (uv' = uv) by congruence.
    subst uv'; split.
    + destruct (texcoords_inv_idcs _ _ _ _ _ _ Eu) as (ws & _ & Ei).
      apply store_all_len in Ei; rewrite Ei, Ef.
      apply len_pyrepeat; apply len_loop_idcs_nonneg; lia.
    + apply texcoords_inv in Eu; destruct Eu as (_ & Eu).
      apply store_all_len in Eu; rewrite Eu.
      fold s c el.
      rewrite len_pyrepeat by (apply len_vts_nonneg; assumption).
      rewrite len_vts_closed, spoke_count_flags, Hcaps.
      destruct el, (is_none c); reflexivity.
Qed.

Lemma X5_witness :
  exists m, execute p_round_trip = Ok m /\ len (vs m) = 18
            /\ len (v_idcs m) = 16.
Proof.
  destruct (valid_execute_ok p_round_trip p_round_trip_valid eq_refl)
    as [m E].
  assert (Hs : 1 <= sectors p_round_trip) by (simpl; lia).
  destruct (X5_buffer_sizes p_round_trip m Hs E) as (Hv & Hf & _).
  assert (Hel : use_edge_loops (edge_loop_fac p_round_trip) = false)
    by (apply use_edge_loops_false; simpl; lra).
  rewrite Hel in Hv, Hf.
  exists m; repeat split; assumption.
Defined.

(** ** Texture faces beside faces *)

Lemma Forall2_update {A B : Type} (R : A -> B -> Prop) l1 l2 n a b :
  Forall2 R l1 l2 -> R a b -> Forall2 R (update l1 n a) (update l2 n b).
Proof.
  intros H Hab; revert n; induction H as [|x y l1 l2 Hxy H IH];
    intros [|n]; simpl; auto.
Qed.

Lemma Forall2_len {A B : Type} (R : A -> B -> Prop) l1 l2 :
  Forall2 R l1 l2 -> len l1 = len l2.
Proof. intros H; unfold len; now rewrite (Forall2_length H). Qed.

(** Two blocks of assignments at the same indices keep two lists related
    item by item. *)
Lemma store_all_Forall2 {A B : Type} (R : A -> B -> Prop) ws1 ws2 :
  Forall2 (fun w1 w2 => fst w1 = fst w2 /\ R (snd w1) (snd w2)) ws1 ws2 ->
  forall l1 l2 l1' l2',
    Forall2 R l1 l2 ->
    store_all ws1 l1 = Ok l1' -> store_all ws2 l2 = Ok l2' ->
    Forall2 R l1' l2'.
Proof.
  induction 1 as [|[i a] [j b] ws1 ws2 (Hi & Hab) Hws IH];
    intros l1 l2 l1' l2' Hl E1 E2; simpl in *.
  - now inversion E1; inversion E2; subst.
  - subst j; unfold setitem in E1, E2.
    rewrite <- (Forall2_len _ _ _ Hl) in E2.
    destruct ((0 <=? i) && (i <? len l1)).
    + cbn [bind] in E1, E2.
      eapply IH; [|exact E1|exact E2]; now apply Forall2_update.
    + destruct ((- len l1 <=? i) && (i <? 0)); [|discriminate].
      cbn [bind] in E1, E2.
      eapply IH; [|exact E1|exact E2]; now apply Forall2_update.
Qed.

Lemma Forall2_for_range {A B : Type} (R : Z * A -> Z * B -> Prop) n b1 b2 :
  (forall i, 0 <= i < n -> Forall2 R (b1 i) (b2 i)) ->
  Forall2 R (for_range n b1) (for_range n b2).
Proof.
  intros H; unfold for_range.
  assert (Hr : forall i, In i (range n) -> Forall2 R (b1 i) (b2 i))
    by (intros i Hi; apply H; now apply in_range).
  induction (range n) as [|i l IH]; simpl; [constructor|].
  apply Forall2_app; [apply Hr; now left|].
  apply IH; intros j Hj; apply Hr; now right.
Qed.

Lemma Forall2_pyrepeat {A B : Type} (R : A -> B -> Prop) a b n :
  R a b -> Forall2 R (pyrepeat a n) (pyrepeat b n).
Proof.
  intros H; unfold pyrepeat; induction (Z.to_nat n); simpl; auto.
Qed.

Ltac arity_ok :=
  repeat first
    [ apply Forall2_nil
    | apply Forall2_cons
    | apply Forall2_app
    | apply Forall2_for_range; intros ];
  try (split; reflexivity).

Lemma ngon_arrays_len s bf tf b t :
  0 <= s -> ngon_arrays s bf tf = Ok (b, t) -> len b = s /\ len t = s.
Proof.
  intros Hs; unfold ngon_arrays.
  destruct (store_all (for_range s (fun i => [(i, bf + s - 1 - (i - 1) mod s)]))
                      (pyrepeat 0 s)) as [b'|] eqn:Eb; cbn [bind];
    [|discriminate].
  destruct (store_all (for_range s (fun i => [(i, tf + i)])) (pyrepeat 0 s))
    as [t'|] eqn:Et; cbn [bind]; [|discriminate].
  intros H; inversion H; subst.
  apply store_all_len in Eb, Et; rewrite Eb, Et.
  split; now apply len_pyrepeat.
Qed.

(** The texture face at each position has as many corners as the face at
    that position. *)
Lemma faces_same_arity p f el k step fs uv :
  0 <= sectors p -> flags_shape f ->
  faces (sectors p) f el = Ok fs -> texcoords p f el k step = Ok uv ->
  Forall2 same_arity fs (vt_idcs uv).
Proof.
  intros Hs Hf Ef Eu.
  destruct (texcoords_inv_idcs _ _ _ _ _ _ Eu) as (ws2 & Ews2 & Ei).
  unfold faces in Ef.
  destruct (v_idcs_stores _ _ _ _ _) as [ws1|] eqn:Ews1; cbn [bind] in Ef;
    [|discriminate].
  eapply (store_all_Forall2 same_arity ws1 ws2); [| |exact Ef|exact Ei].
  2:{ apply Forall2_pyrepeat; reflexivity. }
  revert Ews1 Ews2; unfold v_idcs_stores, vt_idcs_stores, fan_stores.
  destruct Hf; cbn [cap_is_tri cap_is_quad cap_is_ngon bind].
  - intros [= <-] [= <-].
    unfold side_stores, vt_side_stores; destruct el; simpl; arity_ok.
  - destruct (ngon_arrays _ _ _) as [[b1 t1]|] eqn:E1; cbn [bind];
      [|discriminate].
    destruct (ngon_arrays _ (vt_idx_btm_fan _) _) as [[b2 t2]|] eqn:E2;
      cbn [bind]; [|discriminate].
    apply ngon_arrays_len in E1, E2; try assumption.
    destruct E1 as (Hb1 & Ht1), E2 as (Hb2 & Ht2).
    intros [= <-] [= <-]; cbn [fst snd app].
    apply Forall2_cons; [split; [reflexivity|]|].
    { unfold same_arity, len in *; cbn [snd]; lia. }
    apply Forall2_cons; [split; [reflexivity|]|].
    { unfold same_arity, len in *; cbn [snd]; lia. }
    unfold cap_band_stores, side_stores, vt_side_stores;
      destruct el; simpl; arity_ok.
  - intros [= <-] [= <-].
    unfold cap_band_stores, side_stores, vt_side_stores;
      destruct el; simpl; arity_ok.
  - intros [= <-] [= <-].
    unfold cap_band_stores, side_stores, vt_side_stores;
      destruct el; simpl; arity_ok.
Qed.

Ltac vt_values s f el E :=
  eapply (store_all_Forall
            (Forall (fun x => 0 <= x < len_vts (vt_plan s f el))));
  [ | | exact E ];
  [ apply Forall_pyrepeat; unfold vt_plan; destruct el; simpl; values_ok
  | unfold cap_band_stores, vt_side_stores, vt_plan; destruct el; simpl;
    values_ok ].

(** Outside the clash every index of every texture face is the index of a
    texture coordinate; no [-1] of the plan reaches a face. *)
Lemma vt_indices_in_range p f el k step uv :
  1 <= sectors p -> flags_shape f -> texcoords p f el k step = Ok uv ->
  Forall (Forall (fun x => 0 <= x < len (vts uv))) (vt_idcs uv).
Proof.
  intros Hs Hf Eu.
  destruct (texcoords_inv_idcs _ _ _ _ _ _ Eu) as (ws & Ews & Ei).
  apply texcoords_inv in Eu; destruct Eu as (_ & Eu).
  apply store_all_len in Eu; rewrite Eu.
  rewrite len_pyrepeat by (apply len_vts_nonneg; lia).
  revert Ews Ei; generalize (vt_idcs uv); intros fs.
  set (s := sectors p) in *.
  unfold vt_idcs_stores, fan_stores.
  destruct Hf; cbn [cap_is_tri cap_is_quad cap_is_ngon bind].
  - intros [= <-] E; vt_values s (mkFlags true false false false) el E.
  - set (f := mkFlags false true false false).
    destruct (ngon_arrays s _ _) as [[b t]|] eqn:En; cbn [bind];
      [|discriminate].
    apply (ngon_arrays_range s _ _ 0 (len_vts (vt_plan s f el))) in En;
      try (unfold vt_plan; destruct el; simpl; lia).
    destruct En as (Hb & Ht); intros [= <-] E.
    eapply (store_all_Forall
              (Forall (fun x => 0 <= x < len_vts (vt_plan s f el))));
      [ | | exact E ].
    + apply Forall_pyrepeat; unfold vt_plan; destruct el; simpl; values_ok.
    + cbn [fst snd app]; apply Forall_cons; [assumption|].
      apply Forall_cons; [assumption|].
      unfold cap_band_stores, vt_side_stores, vt_plan; destruct el; simpl;
        values_ok.
  - intros [= <-] E; vt_values s (mkFlags false false true false) el E.
  - intros [= <-] E; vt_values s (mkFlags false false false true) el E.
Qed.

Lemma pyindex_getitem {A : Type} (l : list A) i x :
  getitem l i = Some x -> pyindex l i = Ok x.
Proof.
  unfold getitem, pyindex; destruct (0 <=? i) eqn:E0; [|discriminate].
  intros H; apply Z.leb_le in E0.
  replace (i <? 0) with false by (symmetry; apply Z.ltb_ge; lia).
  assert (Hn : nth_error l (Z.to_nat i) <> None) by congruence.
  apply nth_error_Some in Hn.
  replace (0 <=? i) with true by (symmetry; apply Z.leb_le; lia).
  replace (i <? len l) with true
    by (symmetry; apply Z.ltb_lt; unfold len; lia).
  cbn [andb]; now rewrite H.
Qed.

Lemma getitem_inbounds {A : Type} (l : list A) i :
  0 <= i < len l -> exists x, getitem l i = Some x.
Proof.
  intros Hi; unfold getitem.
  replace (0 <=? i) with true by (symmetry; apply Z.leb_le; lia).
  destruct (nth_error l (Z.to_nat i)) as [x|] eqn:E; [eauto|].
  apply nth_error_None in E; unfold len in Hi; lia.
Qed.

Lemma getitem_In {A : Type} (l : list A) i x :
  getitem l i = Some x -> In x l.
Proof.
  unfold getitem; destruct (0 <=? i); [|discriminate].
  apply nth_error_In.
Qed.

Lemma Forall2_getitem {A B : Type} (R : A -> B -> Prop) l1 l2 i a :
  Forall2 R l1 l2 -> getitem l1 i = Some a ->
  exists b, getitem l2 i = Some b /\ R a b.
Proof.
  unfold getitem; destruct (0 <=? i); [|discriminate].
  generalize (Z.to_nat i) as n; intros n H; revert n.
  induction H as [|x y l1 l2 Hxy H IH]; intros [|n]; simpl;
    try discriminate.
  - intros [= <-]; eauto.
  - apply IH.
Qed.

(** X6.  With texture coordinates, at every face of the returned mesh
    and every corner of it, the read [vts[vt_idcs[face.index][i]]] of
    lines 791-793 finds a texture face with that corner and a texture
    coordinate at a non-negative index below [len(vts)]: it raises no
    [IndexError] and never reads through a negative index. *)
Theorem X6_loop_uv_reads (p : TubeParams) (m : Mesh) (uv : UVs)
    (fi i : Z) (fc : face) :
  1 <= sectors p -> execute p = Ok m -> uvs m = Some uv ->
  getitem (v_idcs m) fi = Some fc -> 0 <= i < len fc ->
  exists uvfc vi pt,
    getitem (vt_idcs uv) fi = Some uvfc
    /\ length uvfc = length fc
    /\ getitem uvfc i = Some vi
    /\ 0 <= vi < len (vts uv)
    /\ getitem (vts uv) vi = Some pt
    /\ loop_uv uv fi i = Ok pt.
Proof.
  intros Hs E Hu Hfc Hi.
  destruct (execute_inv _ _ E) as (k & step & _ & _ & _ & Ef & Huv).
  destruct (calc_uvs p); [|congruence].
  destruct Huv as (uv' & Eu & Hu'); assert (uv' = uv) by congruence.
  subst uv'.
  set (f := cap_flags (sectors p) (cap_face_type p)) in *.
  assert (Hf : flags_shape f)
    by (apply cap_flags_shape, (execute_no_clash p m Hs E)).
  pose proof (faces_same_arity p f _ k step _ uv ltac:(lia) Hf Ef Eu) as Ha.
  pose proof (vt_indices_in_range p f _ k step uv Hs Hf Eu) as Hr.
  destruct (Forall2_getitem _ _ _ _ _ Ha Hfc) as (uvfc & Huvfc & Hlen).
  unfold same_arity in Hlen.
  destruct (getitem_inbounds uvfc i) as [vi Hvi];
    [unfold len in *; lia|].
  rewrite Forall_forall in Hr.
  pose proof (Hr _ (getitem_In _ _ _ Huvfc)) as Hr'.
  rewrite Forall_forall in Hr'.
  pose proof (Hr' _ (getitem_In _ _ _ Hvi)) as Hvi'.
  destruct (getitem_inbounds (vts uv) vi Hvi') as [pt Hpt].
  exists uvfc, vi, pt; repeat split; auto; try lia.
  unfold loop_uv.
  rewrite (pyindex_getitem _ _ _ Huvfc); cbn [bind].
  rewrite (pyindex_getitem _ _ _ Hvi); cbn [bind].
  now apply pyindex_getitem.
Qed.

Lemma X6_witness :
  exists m uv pt, execute p_uv = Ok m /\ uvs m = Some uv
                  /\ loop_uv uv 0 0 = Ok pt.
Proof.
  destruct (valid_execute_ok p_uv p_uv_valid eq_refl) as [m E].
  destruct (execute_inv _ _ E) as (k & step & _ & _ & _ & Ef & Hu).
  change (calc_uvs p_uv) with true in Hu; cbv iota in Hu.
  destruct Hu as (uv & _ & Hu).
  assert (Hs : 1 <= sectors p_uv) by (simpl; lia).
  assert (Hel : use_edge_loops (edge_loop_fac p_uv) = false)
    by (apply use_edge_loops_false; simpl; lra).
  rewrite Hel in Ef.
  change (faces 8 (cap_flags 8 QUAD) false = Ok (v_idcs m)) in Ef.
  remember (v_idcs m) as fs eqn:Efs; vm_compute in Ef.
  injection Ef as Ef.
  assert (H0 : getitem (v_idcs m) 0 = Some [0; 3; 2; 1])
    by (rewrite <- Efs, <- Ef; reflexivity).
  assert (Hi : 0 <= 0 < len [0; 3; 2; 1]) by (unfold len; simpl; lia).
  destruct (X6_loop_uv_reads p_uv m uv 0 0 [0; 3; 2; 1] Hs E Hu H0 Hi)
    as (uvfc & vi & pt & _ & _ & _ & _ & _ & Hpt).
  exists m, uv, pt; repeat split; assumption.
Defined.

(** ** Where a final item comes from *)

(** An item of the final list was stored by an assignment to its index,
    or no assignment went to that index and it is the initial item. *)
Lemma store_all_origin {A : Type} (ws : list (Z * A)) l l' i x :
  store_all ws l = Ok l' -> Forall (inbounds (len l)) ws -> 0 <= i ->
  getitem l' i = Some x ->
  In (i, x) ws \/ ((forall v, ~ In (i, v) ws) /\ getitem l i = Some x).
Proof.
  revert l; induction ws as [|[j w] ws IH]; intros l E Hb Hi Hx; simpl in E.
  - inversion E; subst; right; split; auto.
  - inversion Hb as [|? ? Hj Hws]; subst; unfold inbounds in Hj; simpl in Hj.
    rewrite setitem_inbounds in E by assumption; cbn [bind] in E.
    destruct (IH _ E) as [Hin|(Hno & Hg)]; auto.
    + now rewrite len_update.
    + left; now right.
    + destruct (Z.eq_dec j i) as [->|Hne].
      * rewrite getitem_update_eq in Hg by assumption.
        left; left; congruence.
      * rewrite getitem_update_neq in Hg by lia.
        right; split; auto.
        intros v [Hv|Hv]; [congruence|now apply (Hno v)].
Qed.

(** When every index is assigned, every final item is a stored value. *)
Lemma store_all_covered {A : Type} (P : A -> Prop) (ws : list (Z * A)) l l' :
  store_all ws l = Ok l' -> Forall (inbounds (len l)) ws ->
  (forall i, 0 <= i < len l -> covered i ws) ->
  Forall (fun w => P (snd w)) ws ->
  Forall P l'.
Proof.
  intros E Hb Hcov HP; apply Forall_forall; intros x Hx.
  apply In_getitem in Hx; destruct Hx as (i & Hi & Hg).
  rewrite (store_all_len _ _ _ E) in Hi.
  destruct (store_all_origin ws l l' i x E Hb) as [Hin|(Hno & _)];
    auto; try lia.
  - rewrite Forall_forall in HP; apply (HP _ Hin).
  - destruct (Hcov i Hi) as [v Hv]; now apply Hno in Hv.
Qed.

Lemma in_blocks_In n i offs :
  in_blocks n i offs -> exists o, In o offs /\ o <= i < o + n.
Proof.
  induction offs as [|o tl IH]; simpl; [tauto|].
  intros [H|H]; [eauto|].
  destruct (IH H) as (o' & Ho & Hr); eauto.
Qed.

(** A loop whose body assigns at [o + j] for each [o] of [offs] covers the
    blocks of [offs]. *)
Lemma covered_for_range {A : Type} (offs : list Z) n
    (body : Z -> list (Z * A)) i :
  (forall j, 0 <= j < n -> map fst (body j) = map (fun o => o + j) offs) ->
  in_blocks n i offs -> covered i (for_range n body).
Proof.
  intros Hb Hi; apply in_blocks_In in Hi; destruct Hi as (o & Ho & Hr).
  assert (Hj : 0 <= i - o < n) by lia.
  assert (Hin : In (o + (i - o)) (map fst (body (i - o)))).
  { rewrite (Hb _ Hj); apply in_map_iff; eauto. }
  apply in_map_iff in Hin; destruct Hin as ([a v] & Ha & Hin).
  simpl in Ha; exists v; apply in_for_range; exists (i - o).
  split; [assumption|].
  replace a with i in Hin by lia; assumption.
Qed.

Lemma covered_app {A : Type} (P Q : Prop) (l1 l2 : list (Z * A)) i :
  (P -> covered i l1) -> (Q -> covered i l2) -> P \/ Q ->
  covered i (l1 ++ l2).
Proof.
  intros H1 H2 [H|H]; [destruct (H1 H) as [v Hv]|destruct (H2 H) as [v Hv]];
    exists v; apply in_or_app; auto.
Qed.

Lemma covered_cons {A : Type} (Q : Prop) (a : Z) (x : A) l i :
  (Q -> covered i l) -> i = a \/ Q -> covered i ((a, x) :: l).
Proof.
  intros H [->|HQ]; [exists x; now left|].
  destruct (H HQ) as [v Hv]; exists v; now right.
Qed.

Lemma covered_nil {A : Type} i : False -> covered i (@nil (Z * A)).
Proof. tauto. Qed.

Ltac offs_of l :=
  lazymatch l with
  | nil => constr:(@nil Z)
  | (?o + 0) :: ?tl => let r := offs_of tl in constr:(o :: r)
  end.

(** Reduces [covered i ws] to a disjunction on [i]. *)
Ltac cover_cond :=
  lazymatch goal with
  | |- ?P -> covered _ (_ ++ _) =>
      let H := fresh "H" in
      intros H; eapply covered_app; [cover_cond | cover_cond | exact H]
  | |- ?P -> covered _ (for_range ?n ?body) =>
      let l := eval cbn [map fst ring] in (map fst (body 0)) in
      let offs := offs_of l in
      let H := fresh "H" in
      intros H; apply (covered_for_range offs);
      [ intros; reflexivity | exact H ]
  | |- ?P -> covered _ (_ :: _) =>
      let H := fresh "H" in
      intros H; eapply covered_cons; [cover_cond | exact H]
  | |- ?P -> covered _ nil => exact (covered_nil _)
  end.

Ltac cover :=
  lazymatch goal with
  | |- covered ?i ?ws =>
      let P := fresh "P" in
      let HP := fresh "HP" in
      evar (P : Prop);
      assert (HP : P -> covered i ws) by (subst P; cover_cond);
      apply HP; subst P; cbn [in_blocks]; zlia
  end.

(** Outside capStyle NONE with edge loops, every position is assigned. *)
Lemma vs_stores_cover p f el k step i :
  0 <= sectors p -> use_caps f || cap_is_none f = true ->
  el && negb (use_caps f) = false ->
  0 <= i < len_vs (v_plan (sectors p) f el) ->
  covered i (vs_stores p f el k step (v_plan (sectors p) f el)).
Proof.
  intros Hs Hc Hn; revert Hc Hn.
  unfold vs_stores, vs_spokes, vs_edges, vs_side_loops, vs_cap_loops, v_plan.
  destruct (use_center_spoke f), (use_caps f), (cap_is_none f), el;
    simpl; intros Hc Hn Hi; try discriminate; cover.
Qed.

(** ** Faces without repeated corners *)

Lemma mod_wrap s x :
  0 < s -> 0 <= x < 2 * s -> x mod s = if x <? s then x else x - s.
Proof.
  intros Hs Hx; destruct (Z.ltb_spec x s).
  - apply Z.mod_small; lia.
  - replace x with (x - s + 1 * s) at 1 by lia.
    rewrite Z.mod_add by lia; apply Z.mod_small; lia.
Qed.

Lemma mod_pred s i :
  0 < s -> 0 <= i < s -> (i - 1) mod s = if i =? 0 then s - 1 else i - 1.
Proof.
  intros Hs Hi; destruct (Z.eqb_spec i 0) as [->|Hne].
  - replace (0 - 1) with (s - 1 + (-1) * s) by lia.
    rewrite Z.mod_add by lia; apply Z.mod_small; lia.
  - apply Z.mod_small; lia.
Qed.

(** What the two n-gon arrays hold: the bottom one runs through the fan
    backwards from its first vertex, the top one forwards. *)
Lemma ngon_arrays_get s bf tf b t i :
  1 <= s -> ngon_arrays s bf tf = Ok (b, t) -> 0 <= i < s ->
  getitem b i = Some (bf + (s - i) mod s) /\ getitem t i = Some (tf + i).
Proof.
  intros Hs; unfold ngon_arrays.
  destruct (store_all (for_range s (fun i => [(i, bf + s - 1 - (i - 1) mod s)]))
                      (pyrepeat 0 s)) as [b'|] eqn:Eb; cbn [bind];
    [|discriminate].
  destruct (store_all (for_range s (fun i => [(i, tf + i)])) (pyrepeat 0 s))
    as [t'|] eqn:Et; cbn [bind]; [|discriminate].
  intros H Hi; inversion H; subst; split.
  - replace (bf + (s - i) mod s) with (bf + s - 1 - (i - 1) mod s).
    2:{ rewrite mod_pred by lia.
        replace (s - i) with (s - i + 0) by lia.
        destruct (Z.eqb_spec i 0) as [->|Hne].
        - replace (s - 0 + 0) with (0 + 1 * s) by lia.
          rewrite Z.mod_add by lia; rewrite Z.mod_0_l by lia; lia.
        - rewrite Z.mod_small by lia; lia. }
    apply (store_all_getitem _ _ _ _ _ Eb).
    + rewrite len_pyrepeat by lia.
      apply Forall_for_range; intros j Hj.
      apply Forall_cons; [unfold inbounds; simpl; lia|apply Forall_nil].
    + apply in_for_range; exists i; split; [lia|now left].
    + intros v' Hin; apply in_for_range in Hin.
      destruct Hin as (j & Hj & [Hin|[]]).
      injection Hin as Hji Hv; subst; reflexivity.
  - apply (store_all_getitem _ _ _ _ _ Et).
    + rewrite len_pyrepeat by lia.
      apply Forall_for_range; intros j Hj.
      apply Forall_cons; [unfold inbounds; simpl; lia|apply Forall_nil].
    + apply in_for_range; exists i; split; [lia|now left].
    + intros v' Hin; apply in_for_range in Hin.
      destruct Hin as (j & Hj & [Hin|[]]).
      injection Hin as Hji Hv; subst; reflexivity.
Qed.

Lemma NoDup_getitem {A : Type} (l : list A) (g : Z -> A) :
  (forall i, 0 <= i < len l -> getitem l i = Some (g i)) ->
  (forall i j, 0 <= i < len l -> 0 <= j < len l -> g i = g j -> i = j) ->
  NoDup l.
Proof.
  intros Hg Hinj; apply NoDup_nth_error; intros n k Hn E.
  assert (Hk : (k < length l)%nat).
  { apply nth_error_Some; rewrite <- E; apply nth_error_Some; assumption. }
  assert (Gn := Hg (Z.of_nat n)); assert (Gk := Hg (Z.of_nat k)).
  unfold getitem, len in Gn, Gk.
  replace (0 <=? Z.of_nat n) with true in Gn
    by (symmetry; apply Z.leb_le; lia).
  replace (0 <=? Z.of_nat k) with true in Gk
    by (symmetry; apply Z.leb_le; lia).
  rewrite Nat2Z.id in Gn, Gk.
  rewrite Gn, Gk in E by lia.
  injection E as E; apply Hinj in E; unfold len; lia.
Qed.

Lemma ngon_arrays_NoDup s bf tf b t :
  1 <= s -> ngon_arrays s bf tf = Ok (b, t) -> NoDup b /\ NoDup t.
Proof.
  intros Hs E.
  destruct (ngon_arrays_len s bf tf b t ltac:(lia) E) as (Lb & Lt).
  split.
  - apply (NoDup_getitem b (fun i => bf + (s - i) mod s)).
    + intros i Hi; rewrite Lb in Hi.
      apply (ngon_arrays_get s bf tf b t i Hs E Hi).
    + rewrite Lb; intros i j Hi Hj Hij.
      assert (Hm : forall x, 0 <= x < s ->
                    (s - x) mod s = if x =? 0 then 0 else s - x).
      { intros x Hx; destruct (Z.eqb_spec x 0) as [->|Hne].
        - replace (s - 0) with (0 + 1 * s) by lia.
          rewrite Z.mod_add by lia; apply Z.mod_0_l; lia.
        - apply Z.mod_small; lia. }
      rewrite !Hm in Hij by assumption.
      destruct (Z.eqb_spec i 0), (Z.eqb_spec j 0); lia.
  - apply (NoDup_getitem t (fun i => tf + i)).
    + intros i Hi; rewrite Lt in Hi.
      apply (ngon_arrays_get s bf tf b t i Hs E Hi).
    + intros; lia.
Qed.

Lemma v_idcs_stores_cover s f el ws i :
  0 <= s -> flags_shape f ->
  v_idcs_stores s f el (l_plan s f el) (v_plan s f el) = Ok ws ->
  0 <= i < len_loop_idcs (l_plan s f el) ->
  covered i ws.
Proof.
  intros Hs Hf; unfold v_idcs_stores, fan_stores.
  destruct Hf; cbn [cap_is_tri cap_is_quad cap_is_ngon bind].
  - intros [= <-]; unfold side_stores, l_plan; destruct el; simpl;
      intros Hi; cover.
  - destruct (ngon_arrays s _ _) as [[b t]|]; cbn [bind]; [|discriminate].
    intros [= <-]; unfold cap_band_stores, side_stores, l_plan;
      destruct el; simpl; intros Hi; cover.
  - intros [= <-]; unfold cap_band_stores, side_stores, l_plan;
      destruct el; simpl; intros Hi; cover.
  - intros [= <-]; unfold cap_band_stores, side_stores, l_plan;
      destruct el; simpl; intros Hi; cover.
Qed.

Ltac nodup_face :=
  repeat rewrite mod_wrap by zlia;
  repeat match goal with
    | |- context [?a <? ?b] => destruct (Z.ltb_spec a b)
    end;
  repeat (apply NoDup_cons;
          [ cbn [In];
            let Hx := fresh "Hx" in
            intros Hx; decompose [or] Hx; try contradiction; zlia
          | ]);
  apply NoDup_nil.

Ltac nodup_stores :=
  repeat first
    [ apply Forall_nil
    | apply Forall_cons
    | apply Forall_app; split
    | apply Forall_for_range; intros ];
  cbn [snd]; nodup_face.

Lemma v_idcs_stores_NoDup s f el ws :
  3 <= s -> flags_shape f ->
  v_idcs_stores s f el (l_plan s f el) (v_plan s f el) = Ok ws ->
  Forall (fun w => NoDup (snd w)) ws.
Proof.
  intros Hs Hf; unfold v_idcs_stores, fan_stores.
  destruct Hf; cbn [cap_is_tri cap_is_quad cap_is_ngon bind].
  - intros [= <-]; unfold side_stores, v_plan; destruct el; simpl;
      nodup_stores.
  - destruct (ngon_arrays s _ _) as [[b t]|] eqn:En; cbn [bind];
      [|discriminate].
    apply ngon_arrays_NoDup in En; [|lia]; destruct En as (Nb & Nt).
    intros [= <-]; cbn [fst snd app].
    apply Forall_cons; [assumption|]. apply Forall_cons; [assumption|].
    unfold cap_band_stores, side_stores, v_plan; destruct el; simpl;
      nodup_stores.
  - intros [= <-]; unfold cap_band_stores, side_stores, v_plan;
      destruct el; simpl; nodup_stores.
  - intros [= <-]; unfold cap_band_stores, side_stores, v_plan;
      destruct el; simpl; nodup_stores.
Qed.

Ltac arity_values :=
  repeat first
    [ apply Forall_nil
    | apply Forall_cons
    | apply Forall_app; split
    | apply Forall_for_range; intros ];
  cbn [snd length]; auto.

Lemma v_idcs_stores_arity s f el ws :
  0 <= s -> flags_shape f ->
  v_idcs_stores s f el (l_plan s f el) (v_plan s f el) = Ok ws ->
  Forall (fun w => length (snd w) = 3%nat \/ length (snd w) = 4%nat
                   \/ len (snd w) = s) ws.
Proof.
  intros Hs Hf; unfold v_idcs_stores, fan_stores.
  destruct Hf; cbn [cap_is_tri cap_is_quad cap_is_ngon bind].
  - intros [= <-]; unfold side_stores; destruct el; simpl; arity_values.
  - destruct (ngon_arrays s _ _) as [[b t]|] eqn:En; cbn [bind];
      [|discriminate].
    apply ngon_arrays_len in En; [|assumption]; destruct En as (Lb & Lt).
    intros [= <-]; cbn [fst snd app].
    apply Forall_cons; [cbn [snd]; auto|].
    apply Forall_cons; [cbn [snd]; auto|].
    unfold cap_band_stores, side_stores; destruct el; simpl; arity_values.
  - intros [= <-]; unfold cap_band_stores, side_stores; destruct el; simpl;
      arity_values.
  - intros [= <-]; unfold cap_band_stores, side_stores; destruct el; simpl;
      arity_values.
Qed.

(** X7.  For three sectors or more, every face of a returned mesh has 3,
    4 or [sectors] corners, its corners are indices of positions, and no
    corner occurs twice in it; in particular no slot of the face buffer
    keeps its initial (0, 0, 0, 0). *)
Theorem X7_faces_well_formed (p : TubeParams) (m : Mesh) :
  3 <= sectors p -> execute p = Ok m ->
  Forall (fun fc =>
            (length fc = 3%nat \/ length fc = 4%nat \/ len fc = sectors p)
            /\ Forall (fun x => 0 <= x < len (vs m)) fc
            /\ NoDup fc)
         (v_idcs m).
Proof.
  intros Hs E.
  assert (Hc := execute_no_clash p m ltac:(lia) E).
  pose proof (execute_indices_in_range p m ltac:(lia) Hc E) as Hr.
  destruct (execute_inv _ _ E) as (k & step & _ & _ & _ & Ef & _).
  apply cap_flags_shape in Hc.
  assert (Hs0 : 0 <= sectors p) by lia.
  set (f := cap_flags (sectors p) (cap_face_type p)) in *.
  set (el := use_edge_loops (edge_loop_fac p)) in *.
  unfold faces in Ef.
  destruct (v_idcs_stores_inbounds (sectors p) f el Hs0 Hc)
    as (ws & Ews & Hb).
  rewrite Ews in Ef; cbn [bind] in Ef.
  assert (Hl : len (pyrepeat [0; 0; 0; 0]
                             (len_loop_idcs (l_plan (sectors p) f el)))
               = len_loop_idcs (l_plan (sectors p) f el))
    by (apply len_pyrepeat, len_loop_idcs_nonneg; lia).
  assert (Ha : Forall (fun fc => length fc = 3%nat \/ length fc = 4%nat
                                 \/ len fc = sectors p) (v_idcs m)).
  { eapply store_all_Forall; [| |exact Ef].
    - apply Forall_pyrepeat; auto.
    - apply (v_idcs_stores_arity _ _ _ _ Hs0 Hc Ews). }
  assert (Hn : Forall (@NoDup Z) (v_idcs m)).
  { eapply (store_all_covered (@NoDup Z)); [exact Ef| | |].
    - now rewrite Hl.
    - rewrite Hl; intros i Hi.
      apply (v_idcs_stores_cover _ _ _ _ _ Hs0 Hc Ews Hi).
    - apply (v_idcs_stores_NoDup _ _ _ _ Hs Hc Ews). }
  rewrite Forall_forall in *; intros fc Hfc; auto.
Qed.

Lemma X7_witness :
  exists m, execute p_round_trip = Ok m /\ Forall (@NoDup Z) (v_idcs m).
Proof.
  destruct (valid_execute_ok p_round_trip p_round_trip_valid eq_refl)
    as [m E].
  assert (Hs : 3 <= sectors p_round_trip) by (simpl; lia).
  pose proof (X7_faces_well_formed p_round_trip m Hs E) as H.
  exists m; split; [assumption|].
  rewrite Forall_forall in *; intros fc Hfc; apply (H fc Hfc).
Defined.

(** ** Every stored face survives *)

Ltac two_stores H1 H2 :=
  unfold ring in H1, H2;
  let I1 := fresh "I1" in
  let V1 := fresh "V1" in
  let I2 := fresh "I2" in
  let V2 := fresh "V2" in
  injection H1 as I1 V1; injection H2 as I2 V2;
  first [ exfalso; zlia
        | match type of I1 with
          | _ + ?j1 = _ =>
              match type of I2 with
              | _ + ?j2 = _ => assert (j1 = j2) by zlia; subst; reflexivity
              end
          end
        | subst; reflexivity ].

(** No two assignments of the face loop go to the same slot with different
    faces. *)
Lemma v_idcs_stores_functional s f el ws i v v' :
  0 <= s -> flags_shape f ->
  v_idcs_stores s f el (l_plan s f el) (v_plan s f el) = Ok ws ->
  In (i, v) ws -> In (i, v') ws -> v = v'.
Proof.
  intros Hs Hf; unfold v_idcs_stores, fan_stores.
  destruct Hf; cbn [cap_is_tri cap_is_quad cap_is_ngon bind].
  - intros [= <-]; unfold side_stores, l_plan; destruct el; simpl;
      intros H1 H2; split_in; two_stores H1 H2.
  - destruct (ngon_arrays s _ _) as [[b t]|]; cbn [bind]; [|discriminate].
    intros [= <-]; unfold cap_band_stores, side_stores, l_plan;
      destruct el; simpl; intros H1 H2; split_in; two_stores H1 H2.
  - intros [= <-]; unfold cap_band_stores, side_stores, l_plan;
      destruct el; simpl; intros H1 H2; split_in; two_stores H1 H2.
  - intros [= <-]; unfold cap_band_stores, side_stores, l_plan;
      destruct el; simpl; intros H1 H2; split_in; two_stores H1 H2.
Qed.

(** Every face assigned by the face loop is in the buffer at its slot. *)
Lemma faces_stored s f el ws fs i v :
  0 <= s -> flags_shape f ->
  v_idcs_stores s f el (l_plan s f el) (v_plan s f el) = Ok ws ->
  faces s f el = Ok fs ->
  In (i, v) ws -> getitem fs i = Some v.
Proof.
  intros Hs Hf Ews Ef Hin.
  destruct (v_idcs_stores_inbounds s f el Hs Hf) as (ws' & Ews' & Hb).
  assert (ws' = ws) by congruence; subst ws'.
  unfold faces in Ef; rewrite Ews in Ef; cbn [bind] in Ef.
  apply (store_all_getitem _ _ _ _ _ Ef); auto.
  - rewrite len_pyrepeat by now apply len_loop_idcs_nonneg.
    assumption.
  - intros v' Hv'; symmetry.
    apply (v_idcs_stores_functional s f el ws i v v' Hs Hf Ews Hin Hv').
Qed.

(** ** The faces of the tube, ring by ring *)

Ltac band_face :=
  lazymatch goal with
  | |- tube_face ?s ?f ?el [?a + ?i; _; ?b + _; _] =>
      apply (face_band s f el a b i);
      [ unfold bands, ring_chain; cbn; tauto | assumption ]
  end.

Ltac stored_face :=
  lazymatch goal with
  | H : (_, _) = (_, _) |- _ => injection H as _ <-
  end;
  first [ band_face
        | apply face_tri_btm; [reflexivity|assumption]
        | apply face_tri_top; [reflexivity|assumption]
        | apply face_quad_btm; [reflexivity|assumption]
        | apply face_quad_top; [reflexivity|assumption] ].

Ltac in_band H :=
  unfold bands, ring_chain in H; cbn in H;
  repeat match type of H with
    | _ \/ _ => destruct H as [H|H]
    | False => destruct H
    end;
  injection H as <- <-.

(** The face loop stores the faces of the tube and nothing else. *)
Lemma stores_tube_face s f el ws fc :
  0 <= s -> flags_shape f ->
  v_idcs_stores s f el (l_plan s f el) (v_plan s f el) = Ok ws ->
  (exists i, In (i, fc) ws) <-> tube_face s f el fc.
Proof.
  intros Hs Hf; unfold v_idcs_stores, fan_stores.
  destruct Hf; cbn [cap_is_tri cap_is_quad cap_is_ngon bind].
  - intros [= <-]; split.
    + intros [i Hin]; revert Hin; unfold side_stores; destruct el; simpl;
        intros Hin; split_in; stored_face.
    + intros T; destruct T as [a b i Hb Hi| | | | | |]; try discriminate.
      unfold side_stores, side_quad; destruct el;
        in_band Hb; eexists; simpl; find_store i.
  - destruct (ngon_arrays s _ _) as [[b t]|] eqn:En; cbn [bind];
      [|discriminate].
    intros [= <-]; split.
    + intros [i Hin]; revert Hin; cbn [fst snd app].
      intros [Hin|[Hin|Hin]].
      * injection Hin as _ <-; now apply (face_ngon_btm _ _ _ b t).
      * injection Hin as _ <-; now apply (face_ngon_top _ _ _ b t).
      * revert Hin; unfold cap_band_stores, side_stores; destruct el; simpl;
          intros Hin; split_in;
          stored_face.
    + intros T; destruct T as [a b' i Hb Hi| | | | |b' t' _ E'|b' t' _ E'];
        try discriminate.
      * unfold cap_band_stores, side_stores, side_quad; destruct el;
          in_band Hb; eexists; cbn [fst snd app];
          do 2 right; simpl; find_store i.
      * rewrite En in E'; injection E' as <- <-.
        eexists; left; reflexivity.
      * rewrite En in E'; injection E' as <- <-.
        eexists; right; left; reflexivity.
  - intros [= <-]; split.
    + intros [i Hin]; revert Hin; unfold cap_band_stores, side_stores;
        destruct el; simpl; intros Hin; split_in;
        stored_face.
    + intros T; destruct T as [a b i Hb Hi| | |h _ Hh|h _ Hh| |];
        try discriminate.
      * unfold cap_band_stores, side_stores, side_quad; destruct el;
          in_band Hb; eexists; simpl; find_store i.
      * destruct el; eexists; simpl; find_store h.
      * destruct el; eexists; simpl; find_store h.
  - intros [= <-]; split.
    + intros [i Hin]; revert Hin; unfold cap_band_stores, side_stores;
        destruct el; simpl; intros Hin; split_in;
        stored_face.
    + intros T; destruct T as [a b i Hb Hi|i _ Hi|i _ Hi| | | |];
        try discriminate.
      * unfold cap_band_stores, side_stores, side_quad; destruct el;
          in_band Hb; eexists; simpl; find_store i.
      * destruct el; eexists; simpl; find_store i.
      * destruct el; eexists; simpl; find_store i.
Qed.

(** The face buffer holds the faces of the tube and nothing else. *)
Lemma faces_tube_face s f el fs fc :
  0 <= s -> flags_shape f -> faces s f el = Ok fs ->
  In fc fs <-> tube_face s f el fc.
Proof.
  intros Hs Hf Ef.
  destruct (v_idcs_stores_inbounds s f el Hs Hf) as (ws & Ews & Hb).
  rewrite <- (stores_tube_face s f el ws fc Hs Hf Ews); split.
  - intros Hin; apply In_getitem in Hin; destruct Hin as (i & Hi & Hg).
    exists i.
    assert (Ef' := Ef); unfold faces in Ef'; rewrite Ews in Ef';
      cbn [bind] in Ef'.
    pose proof (store_all_len _ _ _ Ef') as Hlen.
    rewrite len_pyrepeat in Hlen by (apply len_loop_idcs_nonneg; lia).
    rewrite Hlen in Hi.
    destruct (store_all_origin ws _ fs i fc Ef') as [Hin|(Hno & _)];
      auto; try lia.
    + rewrite len_pyrepeat by (apply len_loop_idcs_nonneg; lia); exact Hb.
    + destruct (v_idcs_stores_cover s f el ws i Hs Hf Ews Hi) as [v Hv].
      now apply Hno in Hv.
  - intros [i Hin].
    apply (getitem_In fs i), (faces_stored s f el ws fs i fc Hs Hf Ews Ef Hin).
Qed.

(** ** Edges and their opposites *)

Lemma mod_is s x y k : 0 < s -> 0 <= y < s -> x = y + k * s -> x mod s = y.
Proof.
  intros Hs Hy ->; rewrite Z.mod_add by lia; apply Z.mod_small; lia.
Qed.

Ltac mod_eq :=
  first [ eapply (mod_is _ _ _ 0); lia
        | eapply (mod_is _ _ _ 1); lia
        | eapply (mod_is _ _ _ (-1)); lia ].

Lemma mod_succ_pred s i :
  0 < s -> 0 <= i < s -> ((i - 1) mod s + 1) mod s = i.
Proof.
  intros Hs Hi; rewrite mod_pred by lia.
  destruct (Z.eqb_spec i 0); mod_eq.
Qed.

Lemma mod_neg s x :
  0 < s -> 0 <= x < s -> (s - x) mod s = if x =? 0 then 0 else s - x.
Proof.
  intros Hs Hx; destruct (Z.eqb_spec x 0); mod_eq.
Qed.

Lemma mod_neg_neg s i :
  0 < s -> 0 <= i < s -> (s - (s - i) mod s) mod s = i.
Proof.
  intros Hs Hi; rewrite (mod_neg s i) by lia.
  destruct (Z.eqb_spec i 0); mod_eq.
Qed.

Lemma mod_neg_succ s i :
  0 < s -> 0 <= i < s ->
  ((s - (i + 1) mod s) mod s + 1) mod s = (s - i) mod s.
Proof.
  intros Hs Hi; rewrite (mod_wrap s (i + 1)) by lia.
  rewrite (mod_neg s i) by lia.
  destruct (Z.ltb_spec (i + 1) s), (Z.eqb_spec i 0).
  - rewrite mod_neg by lia.
    destruct (Z.eqb_spec (i + 1) 0); [lia|].
    destruct (Z.eq_dec s 1); [subst; lia|]. mod_eq.
  - rewrite mod_neg by lia.
    destruct (Z.eqb_spec (i + 1) 0); [lia|mod_eq].
  - rewrite mod_neg by lia.
    destruct (Z.eqb_spec (i + 1 - s) 0); [|lia]. mod_eq.
  - rewrite mod_neg by lia.
    destruct (Z.eqb_spec (i + 1 - s) 0); [|lia]. mod_eq.
Qed.

Lemma quad_next s h :
  0 < s -> s mod 2 = 0 -> 0 <= h < s / 2 ->
  ((h + h + 1) mod s + 1) mod s = (h + h + 2) mod s.
Proof.
  intros Hs He Hh.
  assert (Es : s = 2 * (s / 2)) by zlia.
  replace ((h + h + 1) mod s) with (h + h + 1) by (symmetry; mod_eq).
  f_equal; lia.
Qed.

Lemma quad_succ s h :
  0 < s -> s mod 2 = 0 -> 0 <= h < s / 2 ->
  (h + h + 2) mod s = (h + 1) mod (s / 2) + (h + 1) mod (s / 2).
Proof.
  intros Hs He Hh.
  assert (Es : s = 2 * (s / 2)) by zlia.
  rewrite (mod_wrap (s / 2) (h + 1)) by lia.
  destruct (Z.ltb_spec (h + 1) (s / 2)).
  - apply (mod_is _ _ _ 0); lia.
  - apply (mod_is _ _ _ 1); lia.
Qed.

Lemma quad_pred s h :
  0 < s -> s mod 2 = 0 -> 0 <= h < s / 2 ->
  ((h - 1) mod (s / 2) + (h - 1) mod (s / 2) + 2) mod s = h + h.
Proof.
  intros Hs He Hh.
  assert (Es : s = 2 * (s / 2)) by zlia.
  rewrite (mod_pred (s / 2) h) by lia.
  destruct (Z.eqb_spec h 0).
  - apply (mod_is _ _ _ 1); lia.
  - apply (mod_is _ _ _ 0); lia.
Qed.

Lemma In_combine_nth {A B : Type} (l1 : list A) (l2 : list B) x y :
  In (x, y) (combine l1 l2)
  <-> exists n, nth_error l1 n = Some x /\ nth_error l2 n = Some y.
Proof.
  revert l2; induction l1 as [|a l1 IH]; intros [|b l2]; simpl.
  - split; [tauto|]. intros ([|n] & H & _); discriminate.
  - split; [tauto|]. intros ([|n] & H & _); discriminate.
  - split; [tauto|]. intros ([|n] & _ & H); discriminate.
  - rewrite IH; split.
    + intros [H|(n & H1 & H2)].
      * injection H as -> ->; now exists 0%nat.
      * now exists (S n).
    + intros ([|n] & H1 & H2); simpl in *.
      * left; congruence.
      * right; eauto.
Qed.

(** The edges of a face go from each corner to the next one, cyclically. *)
Lemma edges_getitem (l : face) x y :
  In (x, y) (edges l)
  <-> exists i, 0 <= i < len l /\ getitem l i = Some x
                /\ getitem l ((i + 1) mod len l) = Some y.
Proof.
  destruct l as [|a tl].
  - simpl; split; [tauto|]. intros (i & Hi & _); unfold len in Hi; simpl in Hi.
    lia.
  - unfold edges; rewrite In_combine_nth.
    assert (Hn : forall n, (n < length (a :: tl))%nat ->
              nth_error (tl ++ [a]) n
              = getitem (a :: tl) ((Z.of_nat n + 1) mod len (a :: tl))).
    { intros n Hn; unfold getitem, len.
      assert (Hp : 0 < Z.of_nat (length (a :: tl))) by (simpl; lia).
      rewrite (mod_wrap _ (Z.of_nat n + 1)) by lia.
      destruct (Z.ltb_spec (Z.of_nat n + 1) (Z.of_nat (length (a :: tl)))).
      - replace (0 <=? Z.of_nat n + 1) with true
          by (symmetry; apply Z.leb_le; lia).
        replace (Z.to_nat (Z.of_nat n + 1)) with (S n) by lia.
        simpl in *; apply nth_error_app1; lia.
      - replace (Z.of_nat n + 1 - Z.of_nat (length (a :: tl))) with 0 by lia.
        simpl in *; rewrite nth_error_app2 by lia.
        replace (n - length tl)%nat with 0%nat by lia; reflexivity. }
    split.
    + intros (n & H1 & H2).
      assert (Hlt : (n < length (a :: tl))%nat)
        by (apply nth_error_Some; congruence).
      exists (Z.of_nat n); split; [unfold len; lia|].
      rewrite <- Hn by assumption; split; [|assumption].
      unfold getitem; replace (0 <=? Z.of_nat n) with true
        by (symmetry; apply Z.leb_le; lia).
      now rewrite Nat2Z.id.
    + intros (i & Hi & H1 & H2); exists (Z.to_nat i).
      unfold len in Hi.
      rewrite Hn by lia; rewrite Z2Nat.id by lia; split; [|assumption].
      unfold getitem in H1; replace (0 <=? i) with true in H1
        by (symmetry; apply Z.leb_le; lia).
      assumption.
Qed.

(** ** The rings of the tube, from cap to cap *)

Ltac pick_band :=
  solve [ unfold bands, ring_chain; cbn;
          repeat first [left; reflexivity | right] ].

Ltac band_cases H :=
  unfold bands, ring_chain in H; cbn in H;
  repeat match type of H with
    | _ \/ _ => destruct H as [H|H]
    | False => destruct H
    end;
  injection H as <- <-.

(** Below a band lies another band, or the bottom cap, or nothing. *)
Lemma bands_below s f el a b :
  flags_shape f -> In (a, b) (bands s f el) ->
  (exists a', In (a', a) (bands s f el))
  \/ (use_caps f = true /\ a = v_idx_btm_fan (v_plan s f el))
  \/ (cap_is_none f = true /\ a = v_idx_btm_edge (v_plan s f el)).
Proof.
  intros Hf H; destruct Hf, el; band_cases H;
    first [ right; left; split; reflexivity
          | right; right; split; reflexivity
          | left; eexists; pick_band ].
Qed.

(** Above a band lies another band, or the top cap, or nothing. *)
Lemma bands_above s f el a b :
  flags_shape f -> In (a, b) (bands s f el) ->
  (exists c, In (b, c) (bands s f el))
  \/ (use_caps f = true /\ b = v_idx_top_fan (v_plan s f el))
  \/ (cap_is_none f = true /\ b = v_idx_top_edge (v_plan s f el)).
Proof.
  intros Hf H; destruct Hf, el; band_cases H;
    first [ right; left; split; reflexivity
          | right; right; split; reflexivity
          | left; eexists; pick_band ].
Qed.

Lemma bands_first s f el :
  flags_shape f -> use_caps f = true ->
  exists c, In (v_idx_btm_fan (v_plan s f el), c) (bands s f el).
Proof.
  intros Hf Hc; destruct Hf, el; try discriminate; eexists; pick_band.
Qed.

Lemma bands_last s f el :
  flags_shape f -> use_caps f = true ->
  exists a, In (a, v_idx_top_fan (v_plan s f el)) (bands s f el).
Proof.
  intros Hf Hc; destruct Hf, el; try discriminate; eexists; pick_band.
Qed.

Lemma side_quad_edges s a b i :
  edges (side_quad s a b i)
  = [(a + i, a + (i + 1) mod s);
     (a + (i + 1) mod s, b + (i + 1) mod s);
     (b + (i + 1) mod s, b + i);
     (b + i, a + i)].
Proof. reflexivity. Qed.

Lemma half_range s i :
  0 < s -> s mod 2 = 0 -> 0 <= i < s ->
  0 <= i / 2 < s / 2
  /\ (i = i / 2 + i / 2 \/ i = i / 2 + i / 2 + 1).
Proof. intros; zlia. Qed.

(** With caps, the bottom cap runs along the first ring backwards. *)
Lemma cap_btm_edge s f el i :
  3 <= s -> flags_shape f -> use_caps f = true ->
  (cap_is_quad f = true -> s mod 2 = 0) -> 0 <= i < s ->
  exists fc, tube_face s f el fc
    /\ In (v_idx_btm_fan (v_plan s f el) + (i + 1) mod s,
           v_idx_btm_fan (v_plan s f el) + i) (edges fc).
Proof.
  intros Hs Hf Hc He Hi.
  assert (Hs0 : 0 <= s) by lia; assert (Hs1 : 1 <= s) by lia.
  assert (Hp : 0 < s) by lia.
  destruct Hf; try discriminate.
  - set (f := mkFlags false true false false).
    destruct (ngon_arrays_ok s (v_idx_btm_fan (v_plan s f el))
                (v_idx_top_fan (v_plan s f el)) Hs0) as (b & t & E).
    exists b; split; [now apply (face_ngon_btm s f el b t)|].
    destruct (ngon_arrays_len _ _ _ _ _ Hs0 E) as (Lb & _).
    apply edges_getitem; rewrite Lb.
    assert (Hj : 0 <= (i + 1) mod s < s) by (apply Z.mod_pos_bound; lia).
    assert (Hx : 0 <= (s - (i + 1) mod s) mod s < s)
      by (apply Z.mod_pos_bound; lia).
    assert (Hy : 0 <= (s - i) mod s < s) by (apply Z.mod_pos_bound; lia).
    exists ((s - (i + 1) mod s) mod s); split; [assumption|]; split.
    + destruct (ngon_arrays_get _ _ _ _ _ _ Hs1 E Hx) as (G & _).
      rewrite G, mod_neg_neg by lia; reflexivity.
    + rewrite mod_neg_succ by lia.
      destruct (ngon_arrays_get _ _ _ _ _ _ Hs1 E Hy) as (G & _).
      rewrite G, mod_neg_neg by lia; reflexivity.
  - specialize (He eq_refl).
    destruct (half_range s i Hp He Hi) as (Hh & [Ei|Ei]).
    + eexists; split; [apply (face_quad_btm _ _ _ (i / 2)); auto|].
      rewrite <- Ei; simpl; tauto.
    + eexists; split; [apply (face_quad_btm _ _ _ (i / 2)); auto|].
      replace ((i + 1) mod s) with ((i / 2 + i / 2 + 2) mod s)
        by (f_equal; lia).
      replace (v_idx_btm_fan _ + i)
        with (v_idx_btm_fan
                (v_plan s (mkFlags false false true false) el)
              + (i / 2 + i / 2 + 1) mod s)
        by (f_equal; rewrite <- Ei; apply Z.mod_small; lia).
      simpl; tauto.
  - eexists; split; [apply (face_tri_btm _ _ _ i); auto|].
    simpl; tauto.
Qed.

(** With caps, the top cap runs along the last ring forwards. *)
Lemma cap_top_edge s f el i :
  3 <= s -> flags_shape f -> use_caps f = true ->
  (cap_is_quad f = true -> s mod 2 = 0) -> 0 <= i < s ->
  exists fc, tube_face s f el fc
    /\ In (v_idx_top_fan (v_plan s f el) + i,
           v_idx_top_fan (v_plan s f el) + (i + 1) mod s) (edges fc).
Proof.
  intros Hs Hf Hc He Hi.
  assert (Hs0 : 0 <= s) by lia; assert (Hs1 : 1 <= s) by lia.
  assert (Hp : 0 < s) by lia.
  destruct Hf; try discriminate.
  - set (f := mkFlags false true false false).
    destruct (ngon_arrays_ok s (v_idx_btm_fan (v_plan s f el))
                (v_idx_top_fan (v_plan s f el)) Hs0) as (b & t & E).
    exists t; split; [now apply (face_ngon_top s f el b t)|].
    destruct (ngon_arrays_len _ _ _ _ _ Hs0 E) as (_ & Lt).
    apply edges_getitem; rewrite Lt.
    assert (Hj : 0 <= (i + 1) mod s < s) by (apply Z.mod_pos_bound; lia).
    exists i; split; [assumption|]; split.
    + now destruct (ngon_arrays_get _ _ _ _ _ _ Hs1 E Hi) as (_ & G).
    + now destruct (ngon_arrays_get _ _ _ _ _ _ Hs1 E Hj) as (_ & G).
  - specialize (He eq_refl).
    destruct (half_range s i Hp He Hi) as (Hh & [Ei|Ei]).
    + eexists; split; [apply (face_quad_top _ _ _ (i / 2)); auto|].
      rewrite <- Ei; simpl; tauto.
    + eexists; split; [apply (face_quad_top _ _ _ (i / 2)); auto|].
      replace ((i + 1) mod s) with ((i / 2 + i / 2 + 2) mod s)
        by (f_equal; lia).
      replace (v_idx_top_fan _ + i)
        with (v_idx_top_fan
                (v_plan s (mkFlags false false true false) el)
              + (i / 2 + i / 2 + 1) mod s)
        by (f_equal; rewrite <- Ei; apply Z.mod_small; lia).
      simpl; tauto.
  - eexists; split; [apply (face_tri_top _ _ _ i); auto|].
    simpl; tauto.
Qed.

(** ** Every edge meets its opposite *)

Ltac in_edges := rewrite ?side_quad_edges; simpl; tauto.

(** Each directed edge of a face of the tube is run through the other way
    by a face of the tube, but for the two rims of a tube without caps. *)
Lemma tube_face_opposite s f el fc e :
  3 <= s -> flags_shape f -> (cap_is_quad f = true -> s mod 2 = 0) ->
  tube_face s f el fc -> In e (edges fc) ->
  (exists fc', tube_face s f el fc' /\ In (flip e) (edges fc'))
  \/ (cap_is_none f = true
      /\ exists i, 0 <= i < s
           /\ (e = (v_idx_btm_edge (v_plan s f el) + i,
                    v_idx_btm_edge (v_plan s f el) + (i + 1) mod s)
               \/ e = (v_idx_top_edge (v_plan s f el) + (i + 1) mod s,
                       v_idx_top_edge (v_plan s f el) + i))).
Proof.
  intros Hs Hf He T Hin.
  assert (Hp : 0 < s) by lia.
  assert (Hs0 : 0 <= s) by lia; assert (Hs1 : 1 <= s) by lia.
  destruct T as [a b i Hb Hi|i Ht Hi|i Ht Hi|h Hq Hh|h Hq Hh|b t Hn E|b t Hn E].
  - assert (Hj : 0 <= (i + 1) mod s < s) by (apply Z.mod_pos_bound; lia).
    assert (Hk : 0 <= (i - 1) mod s < s) by (apply Z.mod_pos_bound; lia).
    rewrite side_quad_edges in Hin.
    destruct Hin as [<-|[<-|[<-|[<-|[]]]]]; unfold flip; cbn [fst snd].
    + destruct (bands_below s f el a b Hf Hb)
        as [(a' & Ha')|[(Hc & ->)|(Hno & ->)]].
      * left; exists (side_quad s a' a i); split;
          [now apply face_band|in_edges].
      * left; now apply cap_btm_edge.
      * right; split; [assumption|]; exists i; auto.
    + left; exists (side_quad s a b ((i + 1) mod s)); split;
        [now apply face_band|in_edges].
    + destruct (bands_above s f el a b Hf Hb)
        as [(c & Hc)|[(Hc & ->)|(Hno & ->)]].
      * left; exists (side_quad s b c i); split;
          [now apply face_band|in_edges].
      * left; now apply cap_top_edge.
      * right; split; [assumption|]; exists i; auto.
    + left; exists (side_quad s a b ((i - 1) mod s)); split;
        [now apply face_band|].
      rewrite side_quad_edges, mod_succ_pred by lia; simpl; tauto.
  - assert (Hc : use_caps f = true) by (unfold use_caps; now rewrite Ht).
    assert (Hj : 0 <= (i + 1) mod s < s) by (apply Z.mod_pos_bound; lia).
    assert (Hk : 0 <= (i - 1) mod s < s) by (apply Z.mod_pos_bound; lia).
    destruct (bands_first s f el Hf Hc) as (c & Hb).
    destruct Hin as [<-|[<-|[<-|[]]]]; unfold flip; cbn [fst snd]; left.
    + eexists; split; [apply (face_tri_btm _ _ _ ((i + 1) mod s)); auto|].
      in_edges.
    + eexists; split; [apply (face_band _ _ _ _ _ i Hb Hi)|in_edges].
    + eexists; split; [apply (face_tri_btm _ _ _ ((i - 1) mod s)); auto|].
      simpl; rewrite mod_succ_pred by lia; tauto.
  - assert (Hc : use_caps f = true) by (unfold use_caps; now rewrite Ht).
    assert (Hj : 0 <= (i + 1) mod s < s) by (apply Z.mod_pos_bound; lia).
    assert (Hk : 0 <= (i - 1) mod s < s) by (apply Z.mod_pos_bound; lia).
    destruct (bands_last s f el Hf Hc) as (a & Hb).
    destruct Hin as [<-|[<-|[<-|[]]]]; unfold flip; cbn [fst snd]; left.
    + eexists; split; [apply (face_tri_top _ _ _ ((i - 1) mod s)); auto|].
      simpl; rewrite mod_succ_pred by lia; tauto.
    + eexists; split; [apply (face_band _ _ _ _ _ i Hb Hi)|in_edges].
    + eexists; split; [apply (face_tri_top _ _ _ ((i + 1) mod s)); auto|].
      in_edges.
  - assert (Hc : use_caps f = true)
      by (unfold use_caps; rewrite Hq; now destruct (cap_is_tri f)).
    specialize (He Hq).
    assert (Es : s = 2 * (s / 2)) by zlia.
    assert (Hj : 0 <= (h + h + 1) mod s < s) by (apply Z.mod_pos_bound; lia).
    assert (Hn : 0 <= (h + 1) mod (s / 2) < s / 2)
      by (apply Z.mod_pos_bound; lia).
    assert (Hk : 0 <= (h - 1) mod (s / 2) < s / 2)
      by (apply Z.mod_pos_bound; lia).
    assert (Hi : 0 <= h + h < s) by lia.
    destruct (bands_first s f el Hf Hc) as (c & Hb).
    destruct Hin as [<-|[<-|[<-|[<-|[]]]]]; unfold flip; cbn [fst snd]; left.
    + eexists; split;
        [apply (face_quad_btm _ _ _ ((h + 1) mod (s / 2))); auto|].
      rewrite (quad_succ s h) by assumption; in_edges.
    + eexists; split; [apply (face_band _ _ _ _ _ _ Hb Hj)|].
      rewrite <- (quad_next s h) by assumption; in_edges.
    + eexists; split; [apply (face_band _ _ _ _ _ _ Hb Hi)|in_edges].
    + eexists; split;
        [apply (face_quad_btm _ _ _ ((h - 1) mod (s / 2))); auto|].
      simpl; rewrite (quad_pred s h) by assumption; tauto.
  - assert (Hc : use_caps f = true)
      by (unfold use_caps; rewrite Hq; now destruct (cap_is_tri f)).
    specialize (He Hq).
    assert (Es : s = 2 * (s / 2)) by zlia.
    assert (Hj : 0 <= (h + h + 1) mod s < s) by (apply Z.mod_pos_bound; lia).
    assert (Hn : 0 <= (h + 1) mod (s / 2) < s / 2)
      by (apply Z.mod_pos_bound; lia).
    assert (Hk : 0 <= (h - 1) mod (s / 2) < s / 2)
      by (apply Z.mod_pos_bound; lia).
    assert (Hi : 0 <= h + h < s) by lia.
    destruct (bands_last s f el Hf Hc) as (a & Hb).
    destruct Hin as [<-|[<-|[<-|[<-|[]]]]]; unfold flip; cbn [fst snd]; left.
    + eexists; split;
        [apply (face_quad_top _ _ _ ((h - 1) mod (s / 2))); auto|].
      simpl; rewrite (quad_pred s h) by assumption; tauto.
    + eexists; split; [apply (face_band _ _ _ _ _ _ Hb Hi)|in_edges].
    + eexists; split; [apply (face_band _ _ _ _ _ _ Hb Hj)|].
      rewrite <- (quad_next s h) by assumption; in_edges.
    + eexists; split;
        [apply (face_quad_top _ _ _ ((h + 1) mod (s / 2))); auto|].
      rewrite (quad_succ s h) by assumption; in_edges.
  - assert (Hc : use_caps f = true)
      by (unfold use_caps; rewrite Hn; now destruct (cap_is_tri f),
            (cap_is_quad f)).
    destruct (bands_first s f el Hf Hc) as (c & Hb).
    destruct (ngon_arrays_len _ _ _ _ _ Hs0 E) as (Lb & _).
    destruct e as [x y]; apply edges_getitem in Hin; rewrite Lb in Hin.
    destruct Hin as (i & Hi & G1 & G2).
    assert (Hj : 0 <= (i + 1) mod s < s) by (apply Z.mod_pos_bound; lia).
    assert (Hx : 0 <= (s - (i + 1) mod s) mod s < s)
      by (apply Z.mod_pos_bound; lia).
    destruct (ngon_arrays_get _ _ _ _ _ _ Hs1 E Hi) as (G1' & _).
    destruct (ngon_arrays_get _ _ _ _ _ _ Hs1 E Hj) as (G2' & _).
    rewrite G1' in G1; rewrite G2' in G2.
    injection G1 as <-; injection G2 as <-.
    unfold flip; cbn [fst snd]; left.
    eexists; split; [apply (face_band _ _ _ _ _ _ Hb Hx)|].
    rewrite <- (mod_neg_succ s i) by lia; in_edges.
  - assert (Hc : use_caps f = true)
      by (unfold use_caps; rewrite Hn; now destruct (cap_is_tri f),
            (cap_is_quad f)).
    destruct (bands_last s f el Hf Hc) as (a & Hb).
    destruct (ngon_arrays_len _ _ _ _ _ Hs0 E) as (_ & Lt).
    destruct e as [x y]; apply edges_getitem in Hin; rewrite Lt in Hin.
    destruct Hin as (i & Hi & G1 & G2).
    assert (Hj : 0 <= (i + 1) mod s < s) by (apply Z.mod_pos_bound; lia).
    destruct (ngon_arrays_get _ _ _ _ _ _ Hs1 E Hi) as (_ & G1').
    destruct (ngon_arrays_get _ _ _ _ _ _ Hs1 E Hj) as (_ & G2').
    rewrite G1' in G1; rewrite G2' in G2.
    injection G1 as <-; injection G2 as <-.
    unfold flip; cbn [fst snd]; left.
    eexists; split; [apply (face_band _ _ _ _ _ _ Hb Hi)|in_edges].
Qed.

(** ** The surface of a returned mesh *)

Lemma cap_flags_quad_even s c :
  cap_is_quad (cap_flags s c) = true -> s mod 2 = 0.
Proof.
  unfold cap_flags.
  destruct c, (s <? 5), (Z.eqb_spec (s mod 2) 0), (s <? 4); simpl;
    intros H; try discriminate H; assumption.
Qed.

Lemma cap_flags_is_none s c : cap_is_none (cap_flags s c) = is_none c.
Proof.
  unfold cap_flags.
  destruct c, (s <? 5), (s mod 2 =? 0), (s <? 4); reflexivity.
Qed.

(** The faces of a returned mesh are the faces of the tube. *)
Lemma execute_tube_face p m fc :
  3 <= sectors p -> execute p = Ok m ->
  In fc (v_idcs m)
  <-> tube_face (sectors p) (cap_flags (sectors p) (cap_face_type p))
                (use_edge_loops (edge_loop_fac p)) fc.
Proof.
  intros Hs E.
  assert (Hs1 : 1 <= sectors p) by lia; assert (Hs0 : 0 <= sectors p) by lia.
  assert (Hc := execute_no_clash p m Hs1 E).
  apply cap_flags_shape in Hc.
  destruct (execute_inv _ _ E) as (k & step & _ & _ & _ & Ef & _).
  apply (faces_tube_face _ _ _ _ fc Hs0 Hc Ef).
Qed.

Lemma execute_opposite p m fc e :
  3 <= sectors p -> execute p = Ok m ->
  In fc (v_idcs m) -> In e (edges fc) ->
  let s := sectors p in
  let vp := v_plan s (cap_flags s (cap_face_type p))
                   (use_edge_loops (edge_loop_fac p)) in
  has_edge (v_idcs m) (flip e)
  \/ (cap_face_type p = NONE
      /\ exists i, 0 <= i < s
           /\ (e = (v_idx_btm_edge vp + i, v_idx_btm_edge vp + (i + 1) mod s)
               \/ e = (v_idx_top_edge vp + (i + 1) mod s,
                       v_idx_top_edge vp + i))).
Proof.
  intros Hs E Hfc He s vp.
  assert (Hs1 : 1 <= sectors p) by lia.
  assert (Hc := execute_no_clash p m Hs1 E).
  apply cap_flags_shape in Hc.
  apply (execute_tube_face p m fc Hs E) in Hfc.
  destruct (tube_face_opposite _ _ _ fc e Hs Hc
              (cap_flags_quad_even _ _) Hfc He)
    as [(fc' & T & Hin)|(Hn & i & Hi & Hr)].
  - left; exists fc'; split; [|assumption].
    now apply (execute_tube_face p m fc' Hs E).
  - right; split.
    + rewrite cap_flags_is_none in Hn.
      now destruct (cap_face_type p).
    + exists i; auto.
Qed.

(** X8.  With caps and three sectors or more, the faces of a returned
    mesh close up: each directed edge of a face, from one corner to the
    next, is run through the other way by some face, so the surface has no
    border and its faces are wound consistently. *)
Theorem X8_closed_surface (p : TubeParams) (m : Mesh) :
  3 <= sectors p -> cap_face_type p <> NONE -> execute p = Ok m ->
  forall fc e, In fc (v_idcs m) -> In e (edges fc) ->
               has_edge (v_idcs m) (flip e).
Proof.
  intros Hs Hn E fc e Hfc He.
  destruct (execute_opposite p m fc e Hs E Hfc He) as [H|(H & _)];
    [assumption|contradiction].
Qed.

Lemma X8_witness :
  exists m, execute p_round_trip = Ok m
    /\ forall fc e, In fc (v_idcs m) -> In e (edges fc) ->
                    has_edge (v_idcs m) (flip e).
Proof.
  destruct (valid_execute_ok p_round_trip p_round_trip_valid eq_refl)
    as [m E].
  assert (Hs : 3 <= sectors p_round_trip) by (simpl; lia).
  assert (Hn : cap_face_type p_round_trip <> NONE) by discriminate.
  exists m; split; [assumption|].
  apply (X8_closed_surface p_round_trip m Hs Hn E).
Defined.

(** On a tube without caps no face runs through a rim edge the other
    way. *)
Lemma rim_unmatched s el fc i :
  3 <= s -> 0 <= i < s ->
  tube_face s no_caps el fc ->
  ~ In ((i + 1) mod s, i) (edges fc)
  /\ ~ In ((if el then 4 else 1) * s + i,
           (if el then 4 else 1) * s + (i + 1) mod s) (edges fc).
Proof.
  intros Hs Hi T.
  destruct T as [a b j Hb Hj| | | | | |]; try discriminate.
  rewrite side_quad_edges.
  rewrite (mod_wrap s (i + 1)), (mod_wrap s (j + 1)) by lia.
  destruct el; band_cases Hb; unfold v_plan; cbn;
    destruct (Z.ltb_spec (i + 1) s), (Z.ltb_spec (j + 1) s);
    split; intros Hin; decompose [or] Hin; try contradiction;
    match goal with
    | Hx : (_, _) = (_, _) |- _ => injection Hx; intros; lia
    end.
Qed.

(** X9.  Without caps and with three sectors or more, the surface of a
    returned mesh is open along its two rims and nowhere else: a directed
    edge of a face is run through the other way by some face exactly when
    it lies neither on the bottom ring, which starts at position 0, nor
    on the top ring, which starts at position [sectors] without edge loops
    and at [4 * sectors] with them. *)
Theorem X9_open_tube_rims (p : TubeParams) (m : Mesh) :
  3 <= sectors p -> cap_face_type p = NONE -> execute p = Ok m ->
  let s := sectors p in
  let top := (if use_edge_loops (edge_loop_fac p) then 4 else 1) * s in
  forall fc e, In fc (v_idcs m) -> In e (edges fc) ->
    (has_edge (v_idcs m) (flip e) <-> ~ on_rim s top e).
Proof.
  intros Hs Hn E s top fc e Hfc He; split.
  - intros (fc' & Hfc' & Hin) (i & Hi & Hr).
    apply (execute_tube_face p m fc' Hs E) in Hfc'.
    rewrite Hn, cap_flags_none in Hfc'.
    destruct (rim_unmatched _ _ _ i Hs Hi Hfc') as (Hb & Ht).
    destruct Hr as [->| ->]; unfold flip in Hin; cbn [fst snd] in Hin;
      [now apply Hb|now apply Ht].
  - intros Hr.
    destruct (execute_opposite p m fc e Hs E Hfc He)
      as [H|(_ & i & Hi & H)]; [assumption|].
    exfalso; apply Hr; exists i; split; [assumption|].
    rewrite Hn, cap_flags_none in H; fold s in H.
    unfold top; revert H; unfold v_plan.
    destruct (use_edge_loops (edge_loop_fac p)); cbn;
      intros [-> | ->]; [left|right|left|right]; f_equal; lia.
Qed.

Lemma p_capless_valid : valid p_capless.
Proof. constructor; simpl; try lia; lra. Qed.

Lemma X9_witness :
  exists m, execute p_capless = Ok m
    /\ forall fc e, In fc (v_idcs m) -> In e (edges fc) ->
         (has_edge (v_idcs m) (flip e) <-> ~ on_rim 8 32 e).
Proof.
  assert (Hs : 3 <= sectors p_capless) by (simpl; lia).
  assert (Hn : cap_face_type p_capless = NONE) by reflexivity.
  destruct (valid_execute_ok p_capless p_capless_valid eq_refl) as [m E].
  exists m; split; [assumption|].
  assert (Hel : use_edge_loops (edge_loop_fac p_capless) = true)
    by (apply use_edge_loops_true; simpl; lra).
  pose proof (X9_open_tube_rims p_capless m Hs Hn E) as H.
  cbv zeta in H; rewrite Hel in H; exact H.
Defined.

(** ** Positions no face uses *)

(** Every position of a ring of the tube is a corner of a face. *)
Lemma chain_corner s f el a i :
  flags_shape f -> In a (ring_chain s f el) -> 0 <= i < s ->
  exists fc, tube_face s f el fc /\ In (a + i) fc.
Proof.
  intros Hf Ha Hi.
  assert (Hb : (exists b, In (a, b) (bands s f el))
               \/ (exists a', In (a', a) (bands s f el))).
  { revert Ha; destruct Hf, el; unfold ring_chain; cbn; intros Ha;
      decompose [or] Ha; try contradiction; subst a;
      first [ left; eexists; pick_band | right; eexists; pick_band ]. }
  destruct Hb as [(b & Hb)|(a' & Hb)].
  - exists (side_quad s a b i); split; [now apply face_band|].
    unfold side_quad; simpl; tauto.
  - exists (side_quad s a' a i); split; [now apply face_band|].
    unfold side_quad; simpl; tauto.
Qed.

(** With a centre position on each cap, both are corners of faces. *)
Lemma spoke_corner s f el :
  3 <= s -> flags_shape f -> use_center_spoke f = true ->
  (cap_is_quad f = true -> s mod 2 = 0) ->
  (exists fc, tube_face s f el fc
              /\ In (v_idx_btm_spoke (v_plan s f el)) fc)
  /\ (exists fc, tube_face s f el fc
                 /\ In (v_idx_top_spoke (v_plan s f el)) fc).
Proof.
  intros Hs Hf Hc He; destruct Hf; try discriminate.
  - assert (Hh : 0 <= 0 < s / 2) by zlia.
    split; eexists.
    + split; [apply (face_quad_btm _ _ _ 0); [reflexivity|exact Hh]|].
      left; reflexivity.
    + split; [apply (face_quad_top _ _ _ 0); [reflexivity|exact Hh]|].
      left; reflexivity.
  - assert (Hh : 0 <= 0 < s) by lia.
    split; eexists.
    + split; [apply (face_tri_btm _ _ _ 0); [reflexivity|exact Hh]|].
      left; reflexivity.
    + split; [apply (face_tri_top _ _ _ 0); [reflexivity|exact Hh]|].
      left; reflexivity.
Qed.

(** The positions are the two centres, when there are some, and the
    rings; without caps and with edge loops there are [2 * s] more. *)
Lemma position_cases s f el v :
  0 <= s -> flags_shape f ->
  0 <= v < len_vs (v_plan s f el) ->
  (cap_is_none f = true -> el = true -> v < 5 * s) ->
  (use_center_spoke f = true
   /\ (v = v_idx_btm_spoke (v_plan s f el)
       \/ v = v_idx_top_spoke (v_plan s f el)))
  \/ in_blocks s v (ring_chain s f el).
Proof.
  intros Hs Hf; destruct Hf, el; unfold ring_chain, v_plan; cbn;
    intros Hv Hg; try specialize (Hg eq_refl eq_refl);
    first [ right; lia
          | match goal with
            | |- (_ /\ ?B) \/ ?C =>
                let HH := fresh "HH" in
                assert (HH : B \/ C) by lia;
                destruct HH;
                [left; split; [reflexivity|assumption]|right; assumption]
            end ].
Qed.

(** Without caps and with edge loops the faces use the first
    [5 * s] positions only. *)
Lemma capless_loops_corners s fc v :
  1 <= s -> tube_face s no_caps true fc -> In v fc -> 0 <= v < 5 * s.
Proof.
  intros Hs T; destruct T as [a b i Hb Hi| | | | | |]; try discriminate.
  assert (Hj : 0 <= (i + 1) mod s < s) by (apply Z.mod_pos_bound; lia).
  band_cases Hb; unfold side_quad, v_plan; cbn;
    intros Hin; decompose [or] Hin; try contradiction; lia.
Qed.

Lemma execute_len_vs p m :
  0 <= sectors p -> execute p = Ok m ->
  len (vs m)
  = len_vs (v_plan (sectors p) (cap_flags (sectors p) (cap_face_type p))
                   (use_edge_loops (edge_loop_fac p))).
Proof.
  intros Hs E.
  destruct (execute_inv _ _ E) as (k & step & _ & _ & Ev & _).
  apply (positions_len _ _ _ _ _ _ Hs Ev).
Qed.

(** X10.  With three sectors or more, every position of a returned mesh
    is a corner of some face, except that without caps and with edge loops
    the positions from [5 * sectors] on are corners of no face. *)
Theorem X10_loose_positions (p : TubeParams) (m : Mesh) (v : Z) :
  3 <= sectors p -> execute p = Ok m -> 0 <= v < len (vs m) ->
  (is_corner (v_idcs m) v
   <-> ~ (cap_face_type p = NONE
          /\ use_edge_loops (edge_loop_fac p) = true
          /\ 5 * sectors p <= v)).
Proof.
  intros Hs E Hv.
  assert (Hs0 : 0 <= sectors p) by lia; assert (Hs1 : 1 <= sectors p) by lia.
  rewrite (execute_len_vs p m Hs0 E) in Hv.
  assert (Hc := execute_no_clash p m Hs1 E).
  apply cap_flags_shape in Hc.
  split.
  - intros (fc & Hfc & Hin) (Hn & Hel & Hg).
    apply (execute_tube_face p m fc Hs E) in Hfc.
    rewrite Hn, cap_flags_none, Hel in Hfc.
    pose proof (capless_loops_corners _ _ _ Hs1 Hfc Hin); lia.
  - intros Hg.
    assert (Hg' : cap_is_none (cap_flags (sectors p) (cap_face_type p)) = true
                  -> use_edge_loops (edge_loop_fac p) = true
                  -> v < 5 * sectors p).
    { intros Hn Hel; rewrite cap_flags_is_none in Hn.
      destruct (Z.lt_ge_cases v (5 * sectors p)) as [|Hge]; [assumption|].
      exfalso; apply Hg; repeat split; try assumption.
      now destruct (cap_face_type p). }
    assert (T : exists fc,
               tube_face (sectors p) (cap_flags (sectors p) (cap_face_type p))
                         (use_edge_loops (edge_loop_fac p)) fc
               /\ In v fc).
    { destruct (position_cases _ _ _ v Hs0 Hc Hv Hg') as [(Hsp & Hx)|Hb].
      - destruct (spoke_corner _ _ (use_edge_loops (edge_loop_fac p))
                    Hs Hc Hsp (cap_flags_quad_even _ _)) as (Hbt & Htp).
        destruct Hx as [-> | ->]; assumption.
      - apply in_blocks_In in Hb; destruct Hb as (o & Ho & Hr).
        replace v with (o + (v - o)) by lia.
        apply chain_corner; [assumption|assumption|lia]. }
    destruct T as (fc & T & Hin); exists fc; split; [|assumption].
    now apply (execute_tube_face p m fc Hs E).
Qed.

Lemma X10_witness :
  exists m, execute p_capless = Ok m
    /\ is_corner (v_idcs m) 39 /\ ~ is_corner (v_idcs m) 40.
Proof.
  assert (Hs : 3 <= sectors p_capless) by (simpl; lia).
  destruct (valid_execute_ok p_capless p_capless_valid eq_refl) as [m E].
  assert (Hel : use_edge_loops (edge_loop_fac p_capless) = true)
    by (apply use_edge_loops_true; simpl; lra).
  assert (Hl : len (vs m) = 56).
  { rewrite (execute_len_vs p_capless m ltac:(simpl; lia) E), Hel.
    reflexivity. }
  exists m; split; [assumption|]; split.
  - apply (X10_loose_positions p_capless m 39 Hs E); [lia|].
    intros (_ & _ & H); simpl in H; lia.
  - intros H.
    apply (X10_loose_positions p_capless m 40 Hs E) in H; [|lia].
    apply H; repeat split; [assumption|simpl; lia].
Defined.

(** ** An edge-loop factor outside (0, 1) *)

(** Whether the control factors can be computed does not depend on the
    edge-loop factor. *)
Lemma factors_status p t1 t2 caps :
  match factors (with_edge_loop_fac p t1) caps,
        factors (with_edge_loop_fac p t2) caps with
  | Ok _, Ok _ => True
  | Raise e1, Raise e2 => e1 = e2
  | _, _ => False
  end.
Proof.
  unfold factors, fdiv, with_edge_loop_fac;
    cbn [radius_btm radius_top depth edge_loop_fac].
  destruct caps;
    repeat match goal with
      | |- context [if ?c then _ else _] => destruct c; cbn [bind fst snd]
      end; auto.
Qed.

(** X11.  An edge-loop factor outside the open interval (0, 1) is
    ignored: with any two such factors, and the other parameters alike,
    [execute] ends the same way, with the same mesh or the same error. *)
Theorem X11_factor_outside_ignored (p : TubeParams) (t1 t2 : R) :
  (t1 <= 0 \/ 1 <= t1)%R -> (t2 <= 0 \/ 1 <= t2)%R ->
  execute (with_edge_loop_fac p t1) = execute (with_edge_loop_fac p t2).
Proof.
  intros H1 H2.
  apply use_edge_loops_false in H1; apply use_edge_loops_false in H2.
  unfold execute.
  change (sectors (with_edge_loop_fac p t1)) with (sectors p).
  change (sectors (with_edge_loop_fac p t2)) with (sectors p).
  change (cap_face_type (with_edge_loop_fac p t1)) with (cap_face_type p).
  change (cap_face_type (with_edge_loop_fac p t2)) with (cap_face_type p).
  change (calc_uvs (with_edge_loop_fac p t1)) with (calc_uvs p).
  change (calc_uvs (with_edge_loop_fac p t2)) with (calc_uvs p).
  change (edge_loop_fac (with_edge_loop_fac p t1)) with t1.
  change (edge_loop_fac (with_edge_loop_fac p t2)) with t2.
  rewrite H1, H2.
  set (f := cap_flags (sectors p) (cap_face_type p)).
  pose proof (factors_status p t1 t2 (use_caps f)) as Hk.
  destruct (factors (with_edge_loop_fac p t1) (use_caps f)) as [k1|e1],
           (factors (with_edge_loop_fac p t2) (use_caps f)) as [k2|e2];
    try contradiction; cbn [bind]; [|now subst].
  change (sectors_to_theta (with_edge_loop_fac p t2))
    with (sectors_to_theta (with_edge_loop_fac p t1)).
  destruct (sectors_to_theta (with_edge_loop_fac p t1)) as [step|];
    cbn [bind]; [|reflexivity].
  change (positions (with_edge_loop_fac p t2) f false k2 step
                    (v_plan (sectors p) f false))
    with (positions (with_edge_loop_fac p t1) f false k1 step
                    (v_plan (sectors p) f false)).
  destruct (positions _ _ _ _ _ _); cbn [bind]; [|reflexivity].
  destruct (faces _ _ _); cbn [bind]; [|reflexivity].
  change (texcoords (with_edge_loop_fac p t2) f false k2 step)
    with (texcoords (with_edge_loop_fac p t1) f false k1 step).
  reflexivity.
Qed.

Lemma X11_witness :
  execute (with_edge_loop_fac p_round_trip 0)
  = execute (with_edge_loop_fac p_round_trip 1).
Proof.
  apply X11_factor_outside_ignored; [left|right]; lra.
Defined.

(** ** The direction of the rings *)

Lemma theta_step p step :
  3 <= sectors p -> sectors_to_theta p = Ok step ->
  (IZR (sectors p) * step = 2 * PI /\ 0 < step < PI)%R.
Proof.
  intros Hs E.
  assert (H3 : (3 <= IZR (sectors p))%R) by now apply IZR_le.
  rewrite sectors_to_theta_ok in E by lia; injection E as <-.
  pose proof PI_RGT_0 as Hpi.
  split; [field; lra|]; split.
  - apply Rdiv_lt_0_compat; lra.
  - apply (Rmult_lt_reg_r (IZR (sectors p))); [lra|].
    replace (2 * PI / IZR (sectors p) * IZR (sectors p))%R with (2 * PI)%R
      by (field; lra).
    nra.
Qed.

(** In binary64 an orientation of 1e17 absorbs [i * sectors_to_theta]:
    with eight sectors every sector has the angle 1e17. *)
Section Angles64.
Import PrimFloat.

Lemma orientation_absorbs64 :
  Forall (fun i => theta64 1e17 8 i = Ok 1e17%float) (range 8).
Proof.
  unfold range; simpl.
  repeat (apply Forall_cons; [vm_compute; reflexivity|]); apply Forall_nil.
Qed.

End Angles64.

(** X12.  Over the reals, as this file reads the floats of [execute],
    with [math.cos] and [math.sin] read as the cosine and the sine: with
    three sectors or more, the table of cosines and sines goes round
    counter-clockwise in equal steps: from the entry of sector [i] to that
    of the next sector, the first one after the last, the cross product
    is the sine of [tau / sectors], which is positive.  In binary64 the
    equality holds up to rounding only, and not at all for an orientation
    that absorbs the step: see [orientation_absorbs64]. *)
Theorem X12_rings_counter_clockwise (p : TubeParams) (step : R) (i : Z) :
  3 <= sectors p -> sectors_to_theta p = Ok step -> 0 <= i < sectors p ->
  cross2 (cartesian p step i) (cartesian p step ((i + 1) mod sectors p))
  = sin step
  /\ (0 < sin step)%R.
Proof.
  intros Hs E Hi.
  destruct (theta_step p step Hs E) as (Hst & Hpos & Hlt).
  split; [|apply sin_gt_0; assumption].
  unfold cross2, cartesian; cbn [fst snd].
  rewrite (mod_wrap (sectors p) (i + 1)) by lia.
  destruct (Z.ltb_spec (i + 1) (sectors p)) as [Hlt1|Hge].
  - rewrite plus_IZR.
    replace (orientation p + (IZR i + 1) * step)%R
      with ((orientation p + IZR i * step) + step)%R by ring.
    set (a := (orientation p + IZR i * step)%R).
    rewrite (sin_plus a step), (cos_plus a step).
    assert (H1 : (sin a * sin a + cos a * cos a = 1)%R)
      by (rewrite <- !Rsqr_def; apply sin2_cos2).
    transitivity ((sin a * sin a + cos a * cos a) * sin step)%R; [ring|].
    rewrite H1; ring.
  - replace (i + 1 - sectors p) with 0 by lia.
    assert (Ei : IZR i = (IZR (sectors p) - 1)%R).
    { replace i with (sectors p - 1) by lia; rewrite minus_IZR; reflexivity. }
    rewrite Ei.
    replace (orientation p + (IZR (sectors p) - 1) * step)%R
      with ((orientation p + 0 * step) - step + 2 * PI)%R
      by (rewrite <- Hst; ring).
    set (a := (orientation p + 0 * step)%R).
    rewrite (sin_plus (a - step) (2 * PI)), (cos_plus (a - step) (2 * PI)).
    rewrite sin_2PI, cos_2PI, (sin_minus a step), (cos_minus a step).
    assert (H1 : (sin a * sin a + cos a * cos a = 1)%R)
      by (rewrite <- !Rsqr_def; apply sin2_cos2).
    transitivity ((sin a * sin a + cos a * cos a) * sin step)%R; [ring|].
    rewrite H1; ring.
Qed.

Lemma X12_witness :
  exists step, sectors_to_theta p_round_trip = Ok step
    /\ cross2 (cartesian p_round_trip step 7) (cartesian p_round_trip step 0)
       = sin step
    /\ (0 < sin step)%R.
Proof.
  assert (Hs : 3 <= sectors p_round_trip) by (simpl; lia).
  assert (E : sectors_to_theta p_round_trip = Ok (2 * PI / IZR 8)%R)
    by (apply sectors_to_theta_ok; simpl; lia).
  assert (Hi : 0 <= 7 < sectors p_round_trip) by (simpl; lia).
  exists (2 * PI / IZR 8)%R; split; [assumption|].
  exact (X12_rings_counter_clockwise p_round_trip _ 7 Hs E Hi).
Defined.
